(** * Diaspora: the adapter contract and the query normalization engine

    A shallow embedding of the adapter base class ([Adapter]: [matchEntity],
    [normalizeOptions], [normalizeQuery], the default CRUD methods and
    [waitReady]), of the web storage adapter's [findOne] and [deleteOne], and
    of the registry of the [Diaspora] namespace, with the properties of the
    specification stated over them. *)

From stdpp Require Import gmap strings list fin_maps pretty.
From Stdlib Require Import ZArith Lia.

Set Warnings "-register-all".

Open Scope string_scope.
Open Scope list_scope.
Open Scope Z_scope.

(** ** JavaScript values and the lodash helpers the sources call *)

Module JS.

(** The values that flow through queries, options and records: data, with
    no function among them.  Numbers are represented by integers (nothing
    below computes with a fractional part or NaN), a date by its time stamp.
    A [VObj] lists the own enumerable properties of a plain object in
    enumeration order, which is the order of their creation (the objects
    below have no integer keys, which the language would enumerate first);
    its keys are distinct, and its prototype is [Object.prototype].  Values
    are immutable, so [_.cloneDeep] is the identity on them. *)
Inductive value : Type :=
| VUndefined
| VNull
| VBool (b : bool)
| VNum (n : Z)
| VStr (s : string)
| VDate (t : Z)
| VArr (items : list value)
| VObj (props : list (string * value)).

Abbreviation object := (list (string * value)).

Definition cloneDeep (v : value) : value := v.

Definition isUndefined (v : value) : bool :=
  match v with VUndefined => true | _ => false end.

Definition isNil (v : value) : bool :=
  match v with VUndefined | VNull => true | _ => false end.

Definition isString (v : value) : bool :=
  match v with VStr _ => true | _ => false end.

Definition isNumber (v : value) : bool :=
  match v with VNum _ => true | _ => false end.

Definition isDate (v : value) : bool :=
  match v with VDate _ => true | _ => false end.

(** [_.isObject]: the language type of the value is object (arrays and dates
    included), [null] excluded. *)
Definition isObject (v : value) : bool :=
  match v with VDate _ | VArr _ | VObj _ => true | _ => false end.

(** [v instanceof Object]; on the values above it agrees with [isObject]. *)
Definition instanceofObject (v : value) : bool := isObject v.

(** The value of the own property [key] of a plain object, [undefined] when
    the object owns none: this is [o[key]] for a key that [Object.prototype]
    has no property of (see [readProperty] for the other keys). *)
Fixpoint get (o : object) (key : string) : value :=
  match o with
  | [] => VUndefined
  | (k, v) :: rest => if String.eqb k key then v else get rest key
  end.

(** [o.hasOwnProperty(key)] on a plain object. *)
Fixpoint hasOwn (o : object) (key : string) : bool :=
  match o with
  | [] => false
  | (k, _) :: rest => String.eqb k key || hasOwn rest key
  end.

(** [o[key] = v]: an existing property keeps its place, a new one is added
    last. *)
Fixpoint set (o : object) (key : string) (v : value) : object :=
  match o with
  | [] => [(key, v)]
  | (k, w) :: rest =>
      if String.eqb k key then (k, v) :: rest else (k, w) :: set rest key v
  end.

(** The properties of [Object.prototype], which every plain object
    inherits: a read [o[key]] finds them when [o] owns no property [key]. *)
Definition Object_prototype : list string :=
  ["constructor"; "hasOwnProperty"; "isPrototypeOf"; "propertyIsEnumerable";
   "toLocaleString"; "toString"; "valueOf"; "__proto__";
   "__defineGetter__"; "__defineSetter__"; "__lookupGetter__";
   "__lookupSetter__"].

Definition inherited (key : string) : bool :=
  bool_decide (key ∈ Object_prototype).

(** What a read [o[key]] gives, for any key: the value of an own property, or
    what the object inherits under that key, a function of the language (the
    prototype itself for [__proto__]), which is no data and is named here by
    its key; [undefined] otherwise. *)
Inductive property : Type :=
| Data (v : value)
| Inherited (name : string).

Definition readProperty (o : object) (key : string) : property :=
  if hasOwn o key then Data (get o key)
  else if inherited key then Inherited key
  else Data VUndefined.

(** Whether what was read is an object of the language: functions are. *)
Definition isObjectProperty (p : property) : bool :=
  match p with
  | Data v => isObject v
  | Inherited _ => true
  end.

(** Whether a method call [v.method(...)] finds an own property of [v]
    where the method [v] inherits was meant: a plain object can own a
    property of any name.  The property holds data, so the call throws. *)
Definition shadowed (v : value) (method : string) : bool :=
  match v with
  | VObj props => hasOwn props method
  | _ => false
  end.

(** The index keys of an array, as property names. *)
Definition indexed (items : list value) : object :=
  imap (fun i x => (pretty i, x)) items.

(** The own enumerable string keyed properties of a value, in enumeration
    order ([_.toPairs], and what [_.mapKeys] and [_.mapValues] visit): the
    properties of a plain object, the elements of an array under their
    indices, the characters of a string under theirs, nothing for a date or
    another primitive. *)
Definition ownEntries (v : value) : object :=
  match v with
  | VObj props => props
  | VArr items => indexed items
  | VStr s => indexed ((fun c => VStr (String c EmptyString)) <$> String.list_ascii_of_string s)
  | _ => []
  end.

(** [_.toPairs] and [_.keys]. *)
Definition toPairs (v : value) : object := ownEntries v.
Definition keys (v : value) : list string := fst <$> ownEntries v.

(** What [Object.prototype.hasOwnProperty] answers for a value that is an
    object: an array also owns [length]. *)
Definition hasOwnProperty (v : value) (key : string) : bool :=
  match v with
  | VArr items => hasOwn (indexed items) key || String.eqb "length" key
  | _ => hasOwn (ownEntries v) key
  end.

(** [v[key]]: a property of an object, an element or the [length] of an array
    or a string, [undefined] otherwise. *)
Definition getProperty (v : value) (key : string) : value :=
  match v with
  | VArr items =>
      if String.eqb "length" key then VNum (Z.of_nat (length items))
      else get (indexed items) key
  | VStr s =>
      if String.eqb "length" key then VNum (Z.of_nat (String.length s))
      else get (ownEntries v) key
  | _ => get (ownEntries v) key
  end.

Definition MAX_SAFE_INTEGER : Z := 9007199254740991.

(** lodash's [isLength] on the [length] property. *)
Definition isLength (v : value) : bool :=
  match v with
  | VNum n => (0 <=? n) && (n <=? MAX_SAFE_INTEGER)
  | _ => false
  end.

(** What lodash's collection functions ([_.every], [_.forEach]) visit, as
    (key, value) pairs: the elements of an array under their indices; for any
    other object with a valid [length] (lodash calls it array like) the
    indices below that length; otherwise the own enumerable properties. *)
Definition eachEntries (v : value) : object :=
  match v with
  | VObj props =>
      if isLength (get props "length") then
        match get props "length" with
        | VNum n => (fun i => (pretty i, get props (pretty i))) <$> seq 0 (Z.to_nat n)
        | _ => props
        end
      else props
  | _ => ownEntries v
  end.

(** The text of a value in a template literal.  The text of a date depends
    on the time zone of the host; its time stamp stands for it. *)
Fixpoint toString (v : value) : string :=
  match v with
  | VUndefined => "undefined"
  | VNull => "null"
  | VBool true => "true"
  | VBool false => "false"
  | VNum n => pretty n
  | VStr s => s
  | VDate t => pretty t
  | VArr items =>
      String.concat ","
        (map (fun x => if isNil x then "" else toString x) items)
  | VObj _ => "[object Object]"
  end.

(** [matched > skip] for a count [matched]: [skip] is converted to a number
    ([null] and the booleans have one; [undefined] is NaN, and so are, for
    this model, the values the type of the option excludes). *)
Definition greaterThan (matched : Z) (skip : value) : bool :=
  match skip with
  | VNum n => n <? matched
  | VNull | VBool false => 0 <? matched
  | VBool true => 1 <? matched
  | _ => false
  end.

(** [v > 0] for a number or a boolean; the numeric text of a string is not
    modelled. *)
Definition isPositive (v : value) : bool :=
  match v with
  | VNum n => 0 <? n
  | VBool true => true
  | _ => false
  end.

(** [_.pull(array, v)] on an array of strings: the elements equal to [v]
    (SameValueZero) are removed. *)
Definition pull (array : list string) (v : value) : list string :=
  match v with
  | VStr s => filter (fun x => x ≠ s) array
  | _ => array
  end.

(** [_.assign(target, source)]: the own enumerable properties of the source
    are assigned to the target, in order; a source that has none ([undefined],
    [null], a number) changes nothing. *)
Definition assign (target : object) (source : value) : object :=
  fold_left (fun acc (p : string * value) => set acc p.1 p.2)
            (ownEntries source) target.

(** [_.invert(o)]: every value becomes a key, its text, and maps to the key
    it was under; of two keys with the same value the later one wins.  The
    entries are assigned with [result[value] = key]: an assignment to
    [__proto__] does not create a property, and what is assigned is a string,
    which is no prototype, so that nothing happens. *)
Definition invert (o : object) : object :=
  fold_left (fun acc (p : string * value) =>
               if String.eqb (toString p.2) "__proto__" then acc
               else set acc (toString p.2) (VStr p.1))
            o [].

(** [_.compact] on the results of a method, each an entity or [undefined]. *)
Definition compact {A} (results : list (option A)) : list A :=
  omap (fun r => r) results.

(** [JSON.parse(JSON.stringify(v))] for an object or an array [v]: a property
    whose value is [undefined] is left out, an [undefined] element of an array
    becomes [null], a date becomes its ISO text, which the language computes
    ([toISOString]). *)
Fixpoint reparse (toISOString : Z -> string) (v : value) : value :=
  match v with
  | VDate t => VStr (toISOString t)
  | VArr items =>
      VArr (map (fun x => if isUndefined x then VNull else reparse toISOString x)
                items)
  | VObj props =>
      VObj ((fix properties (ps : list (string * value)) : list (string * value) :=
               match ps with
               | [] => []
               | (k, x) :: rest =>
                   if isUndefined x then properties rest
                   else (k, reparse toISOString x) :: properties rest
               end) props)
  | _ => v
  end.

Definition reparseObject (toISOString : Z -> string) (o : object) : object :=
  ownEntries (reparse toISOString (VObj o)).

End JS.

Import JS.

(** ** The query engine of the adapter base class *)

(** What [normalizeQuery] and the option transforms throw.  A constructor
    stands for the error class and the message template of its [throw]; its
    arguments are the parts the template interpolates. *)
Inductive exn : Type :=
| ConflictError (operator canonical : string)
    (* Error: Search can't have both "<operator>" and "<canonical>" keys, as
       they are synonyms *)
| ArithmeticTypeError (operation : string) (attrSearch : value)
    (* TypeError: Expect "<operation>" in <JSON.stringify(attrSearch)> to be
       a numeric value *)
| OptionError (optionName : string) (opts : object)
    (* what a transform of QUERY_OPTIONS_TRANSFORMS throws *)
| StoreError (message : string)
    (* what a data store method rejects with *)
| NotAFunction (callee : string)
    (* TypeError: <callee> is not a function *)
| UndefinedReceiver (method : string).
    (* the TypeError a method of Object.prototype throws when it is called
       as a plain function: it has no object to act on, if it gets that far
       with its arguments *)

Module Result.

(** A computation that returns or throws. *)
Definition t (A : Type) : Type := exn + A.

Definition ret {A} (a : A) : t A := inr a.
Definition throw {A} (e : exn) : t A := inl e.

Definition bind {A B} (c : t A) (k : A -> t B) : t B :=
  match c with
  | inl e => inl e
  | inr a => k a
  end.

End Result.

Declare Scope result_scope.
Delimit Scope result_scope with result.
Notation "'try!' x := c 'in' k" := (Result.bind c (fun x => k))
  (at level 10, x name, c at level 100, k at level 200) : result_scope.
Open Scope result_scope.

(** [obj.hasOwnProperty(key)], a method call: the method is looked up on
    [obj], and an own property of that name is found before the method of
    [Object.prototype]; it holds data, and calling it throws.  [callee] is
    the text of the callee, which the message of the error shows. *)
Definition hasOwnPropertyOf (callee : string) (obj : value) (key : string)
  : Result.t bool :=
  if shadowed obj "hasOwnProperty" then Result.throw (NotAFunction callee)
  else Result.ret (hasOwnProperty obj key).

(** [_.every(collection, predicate)]: the elements are visited in order up to
    the first one the predicate is false of; a throw of the predicate ends
    the visit. *)
Fixpoint every {A} (predicate : A -> Result.t bool) (collection : list A)
  : Result.t bool :=
  match collection with
  | [] => Result.ret true
  | x :: rest =>
      try! holds := predicate x in
      if holds then every predicate rest else Result.ret false
  end.

(** What a property of [Object.prototype] does when it is called as a plain
    function on [entityVal] and an operand, as truth value: [Object] returns
    an object and [toString] a text; [isPrototypeOf] answers [false] for an
    argument that is no object before it looks at the object it acts on;
    the other methods need that object first, and the prototype, read under
    [__proto__], is no function. *)
Definition callInherited (name : string) (entityVal : property) : Result.t bool :=
  if String.eqb name "constructor" || String.eqb name "toString" then
    Result.ret true
  else if String.eqb name "isPrototypeOf" then
    if isObjectProperty entityVal then Result.throw (UndefinedReceiver name)
    else Result.ret false
  else if String.eqb name "__proto__" then
    Result.throw (NotAFunction "operationFunction")
  else Result.throw (UndefinedReceiver name).

Section QueryEngine.

(** The operator table and the alias table are defined in [adapter-utils],
    which is not among the files embedded here; the engine is stated over
    any such tables.
    [OPERATORS name] is the predicate the table owns under [name], if any: a
    function of what was read from the record and of the operand;
    [CANONICAL_OPERATORS alias] is the canonical name of [alias], if [alias]
    is an own key of the table (a constant that owns no key
    [hasOwnProperty]). *)
Variable OPERATORS : string -> option (property -> value -> bool).
Variable CANONICAL_OPERATORS : string -> option string.

(** [Adapter.matchEntity].  [OPERATORS[operationName]] is read without a
    test that the table owns the name: a name the table does not own is
    looked up in [Object.prototype], and what is found there is called.
    [entity[key]] is read the same way. *)
Definition matchOperation (entityVal : property) (entry : string * value)
  : Result.t bool :=
  let '(operationName, val) := entry in
  match OPERATORS operationName with
  | Some operationFunction => Result.ret (operationFunction entityVal val)
  | None =>
      if inherited operationName then callInherited operationName entityVal
      else Result.ret false
  end.

Definition matchField (entity : object) (pair : string * value) : Result.t bool :=
  let '(key, desc) := pair in
  if isObject desc then
    let entityVal := readProperty entity key in
    every (matchOperation entityVal) (eachEntries desc)
  else Result.ret false.

Definition matchEntity (query : value) (entity : object) : Result.t bool :=
  every (matchField entity) (toPairs query).

(** [Adapter.normalizeQuery], from the inside out.  The iteratee of
    [_.mapKeys]: an alias is replaced by its canonical name, unless the
    descriptor [obj] owns that name as well. *)
Definition canonicalKey (obj : value) (operator : string) : Result.t string :=
  match CANONICAL_OPERATORS operator with
  | Some canonical =>
      try! owned := hasOwnPropertyOf "obj.hasOwnProperty" obj canonical in
      if owned
      then Result.throw (ConflictError operator canonical)
      else Result.ret canonical
  | None => Result.ret operator
  end.

(** [_.mapKeys(attrSearch, iteratee)]: the properties are visited in order and
    assigned to a fresh object under their new keys; the first throw of the
    iteratee ends the visit. *)
Fixpoint mapKeysFrom (obj : value) (entries : object) (result : object)
  : Result.t object :=
  match entries with
  | [] => Result.ret result
  | (operator, val) :: rest =>
      try! key := canonicalKey obj operator in
      mapKeysFrom obj rest (set result key val)
  end.

Definition mapKeys (attrSearch : value) : Result.t object :=
  mapKeysFrom attrSearch (ownEntries attrSearch) [].

Definition ARITHMETIC_OPERATIONS : list string :=
  ["$less"; "$lessEqual"; "$greater"; "$greaterEqual"].

Definition isNumeric (v : value) : bool := isNumber v || isDate v.

(** The [_.forEach] over the four arithmetic operations. *)
Fixpoint checkArithmetic (operations : list string) (attrSearch : object)
  : Result.t unit :=
  match operations with
  | [] => Result.ret tt
  | operation :: rest =>
      try! owned :=
        hasOwnPropertyOf "attrSearch.hasOwnProperty" (VObj attrSearch) operation in
      if owned && negb (isNumeric (get attrSearch operation))
      then Result.throw (ArithmeticTypeError operation (VObj attrSearch))
      else checkArithmetic rest attrSearch
  end.

(** The iteratee of [_.mapValues]. *)
Definition normalizeAttr (attrSearch : value) : Result.t value :=
  if isUndefined attrSearch then
    Result.ret (VObj [("$exists", VBool false)])
  else if negb (instanceofObject attrSearch) then
    Result.ret (VObj [("$equal", attrSearch)])
  else
    try! renamed := mapKeys attrSearch in
    try! _ := checkArithmetic ARITHMETIC_OPERATIONS renamed in
    Result.ret (VObj renamed).

(** [_.mapValues(query, iteratee)]: every property keeps its key and its
    place; the first throw of the iteratee ends the visit. *)
Fixpoint mapValues (entries : object) : Result.t object :=
  match entries with
  | [] => Result.ret []
  | (field, attrSearch) :: rest =>
      try! attr := normalizeAttr attrSearch in
      try! others := mapValues rest in
      Result.ret ((field, attr) :: others)
  end.

Definition normalizeQuery (originalQuery : value) (options : object)
  : Result.t value :=
  let originalQuery :=
    if isString originalQuery then VObj [("id", originalQuery)]
    else originalQuery in
  match get options "remapInput" with
  | VBool true =>
      try! normalizedQuery := mapValues (ownEntries (cloneDeep originalQuery)) in
      Result.ret (VObj normalizedQuery)
  | _ => Result.ret (cloneDeep originalQuery)
  end.

End QueryEngine.

(** ** Options *)

Section Options.

(** [QUERY_OPTIONS_TRANSFORMS] is a table of [adapter-utils] as well: under
    an option name, a function that rewrites the options in place or throws.
    The table is listed in its enumeration order. *)
Variable QUERY_OPTIONS_TRANSFORMS : list (string * (object -> Result.t object)).

(** The [_.forEach] of [normalizeOptions]: a transform runs when the options,
    as the transforms before it left them, own its name, which
    [opts.hasOwnProperty(optionName)] tests. *)
Fixpoint applyTransforms
  (transforms : list (string * (object -> Result.t object))) (opts : object)
  : Result.t object :=
  match transforms with
  | [] => Result.ret opts
  | (optionName, transform) :: rest =>
      try! owned := hasOwnPropertyOf "opts.hasOwnProperty" (VObj opts) optionName in
      if owned
      then try! opts' := transform opts in applyTransforms rest opts'
      else applyTransforms rest opts
  end.

(** [_.defaults(object, source)]: a property of [source] is assigned where
    the object's resolves to [undefined]. *)
Fixpoint defaults (opts : object) (source : object) : object :=
  match source with
  | [] => opts
  | (key, v) :: rest =>
      defaults (if isUndefined (get opts key) then set opts key v else opts) rest
  end.

Definition DEFAULT_OPTIONS : object :=
  [("skip", VNum 0); ("remapInput", VBool true); ("remapOutput", VBool true)].

(** [Adapter.normalizeOptions]; an omitted argument is the empty object. *)
Definition normalizeOptions (opts : object) : Result.t object :=
  let opts := ownEntries (cloneDeep (VObj opts)) in
  try! opts := applyTransforms QUERY_OPTIONS_TRANSFORMS opts in
  Result.ret (defaults opts DEFAULT_OPTIONS).

End Options.

(** ** The world the adapters act on *)

(** Option objects are passed by reference: a method that assigns to its
    [options] argument changes the object its caller holds.  They live in a
    heap, and a method receives the location of its argument. *)
Abbreviation loc := nat (only parsing).

(** The web storage ([localStorage] or [sessionStorage]): under a table name,
    the index of the table, the array of the ids of its items; under an item
    name, the attributes of the item.  Both are stored as JSON text and are
    represented here by what the text parses to; table names and item names
    are kept apart. *)
Record Storage : Type := {
  indexes : gmap string (list string);
  items : gmap string object;
}.

Record world : Type := {
  heap : gmap loc object;
  source : Storage;
}.

Definition setHeap (h : gmap loc object) (w : world) : world :=
  {| heap := h; source := source w |}.
Definition setSource (s : Storage) (w : world) : world :=
  {| heap := heap w; source := s |}.

(** An entity as [maybeCastEntity] builds it (the entity classes are not
    among the files embedded here): it is represented by the attributes it
    wraps, and its [id] is the [id] attribute. *)
Abbreviation AdapterEntity := (list (string * value)) (only parsing).

(** The outcome of an asynchronous method: its promise is resolved, it is
    rejected, or the model ran out of fuel before it settled. *)
Inductive outcome (A : Type) : Type :=
| Resolved (a : A) (w : world)
| Rejected (e : exn) (w : world)
| Unfinished.
Arguments Resolved {A} a w.
Arguments Rejected {A} e w.
Arguments Unfinished {A}.

Module Async.

Definition t (A : Type) : Type := world -> outcome A.

Definition ret {A} (a : A) : t A := fun w => Resolved a w.

Definition bind {A B} (c : t A) (k : A -> t B) : t B :=
  fun w =>
    match c w with
    | Resolved a w' => k a w'
    | Rejected e w' => Rejected e w'
    | Unfinished => Unfinished
    end.

(** A synchronous computation that may throw, run in the current world. *)
Definition lift {A} (c : Result.t A) : t A :=
  fun w => match c with inl e => Rejected e w | inr a => Resolved a w end.

(** Reading an object, assigning to it, creating one. *)
Definition load (r : loc) : t object :=
  fun w => Resolved (default [] (heap w !! r)) w.

Definition store (r : loc) (o : object) : t unit :=
  fun w => Resolved tt (setHeap (<[r := o]> (heap w)) w).

Definition alloc (o : object) : t loc :=
  fun w =>
    let r := fresh (dom (heap w)) in
    Resolved r (setHeap (<[r := o]> (heap w)) w).

Definition assign (r : loc) (key : string) (v : value) : t unit :=
  fun w => store r (set (default [] (heap w !! r)) key v) w.

Definition getStorage : t Storage := fun w => Resolved (source w) w.
Definition putStorage (s : Storage) : t unit :=
  fun w => Resolved tt (setSource s w).

End Async.

Declare Scope async_scope.
Delimit Scope async_scope with async.
Notation "'await!' x := c 'in' k" := (Async.bind c (fun x => k))
  (at level 10, x name, c at level 100, k at level 200) : async_scope.
Open Scope async_scope.

(** What [deleteMany] did, in order: the model returns it where the method
    returns nothing, so that the sequence of its calls can be stated. *)
Inductive call : Type :=
| FindOneCall (found : option AdapterEntity)
| DeleteOneCall.

(** ** The default CRUD methods of the adapter base class *)

Section Adapter.

Variable QUERY_OPTIONS_TRANSFORMS : list (string * (object -> Result.t object)).

(** [this.normalizeOptions(opts)] on an object of the heap: the result is a
    new object. *)
Definition normalizeOptionsOf (options : loc) : Async.t loc :=
  await! opts := Async.load options in
  await! normalized := Async.lift (normalizeOptions QUERY_OPTIONS_TRANSFORMS opts) in
  Async.alloc normalized.

(** The default value of the [options] parameter:
    [options = this.normalizeOptions()]. *)
Definition optionsOrDefault (options : option loc) : Async.t loc :=
  match options with
  | Some r => Async.ret r
  | None =>
      await! normalized := Async.lift (normalizeOptions QUERY_OPTIONS_TRANSFORMS []) in
      Async.alloc normalized
  end.

(** The methods of the instance, as [this.insertMany], [this.findMany], ...
    resolve them: those of the concrete adapter where it overrides them. *)
Variable this_insertMany : string -> list object -> Async.t (list AdapterEntity).
Variable this_findOne : string -> value -> option loc -> Async.t (option AdapterEntity).
Variable this_findMany : string -> value -> option loc -> Async.t (list AdapterEntity).
Variable this_updateMany :
  string -> value -> object -> option loc -> Async.t (list AdapterEntity).
Variable this_deleteOne : string -> value -> option loc -> Async.t unit.
Variable this_deleteMany : string -> value -> option loc -> Async.t (list call).

(** [Adapter.insertOne]. *)
Definition insertOne (table : string) (entity : object)
  : Async.t (option AdapterEntity) :=
  await! inserted := this_insertMany table [entity] in
  Async.ret (head inserted).

(** [Adapter.findOne]. *)
Definition findOne (table : string) (queryFind : value) (options : option loc)
  : Async.t (option AdapterEntity) :=
  await! options := optionsOrDefault options in
  await! _ := Async.assign options "limit" (VNum 1) in
  await! found := this_findMany table queryFind (Some options) in
  Async.ret (head found).

(** [Adapter.updateOne]. *)
Definition updateOne (table : string) (queryFind : value) (update : object)
  (options : option loc) : Async.t (option AdapterEntity) :=
  await! options := optionsOrDefault options in
  await! options := normalizeOptionsOf options in
  await! _ := Async.assign options "limit" (VNum 1) in
  await! updated := this_updateMany table queryFind update (Some options) in
  Async.ret (head updated).

(** [Adapter.deleteOne]. *)
Definition deleteOne (table : string) (queryFind : value) (options : option loc)
  : Async.t unit :=
  await! options := optionsOrDefault options in
  await! _ := Async.assign options "limit" (VNum 1) in
  await! _ := this_deleteMany table queryFind (Some options) in
  Async.ret tt.

(** [count === options.limit]. *)
Definition isCount (count : Z) (limit : value) : bool :=
  match limit with
  | VNum n => count =? n
  | _ => false
  end.

(** [Adapter.deleteMany]: [loopFind], with [count] as it stands when the
    loop is entered.  Every turn chains a [findOne] and, on its result, a
    [deleteOne] and the next turn. *)
Fixpoint loopFind (fuel : nat) (table : string) (queryFind : value)
  (options : loc) (count : Z) : Async.t (list call) :=
  match fuel with
  | O => fun _ => Unfinished
  | S fuel =>
      await! found := this_findOne table queryFind (Some options) in
      match found with
      | None => Async.ret [FindOneCall found]
      | Some _ =>
          await! opts := Async.load options in
          if isCount count (get opts "limit") then
            Async.ret [FindOneCall found]
          else
            let count := count + 1 in
            await! _ := this_deleteOne table queryFind (Some options) in
            await! calls := loopFind fuel table queryFind options count in
            Async.ret (FindOneCall found :: DeleteOneCall :: calls)
      end
  end.

Definition deleteMany (fuel : nat) (table : string) (queryFind : value)
  (options : option loc) : Async.t (list call) :=
  await! options := optionsOrDefault options in
  loopFind fuel table queryFind options 0.

(** [Adapter.maybeCastEntity] and [Adapter.maybeCastSet], on data that are
    objects where they are not nil. *)
Definition maybeCastEntity (data : option object) : option AdapterEntity :=
  match data with
  | None => None
  | Some data => Some data
  end.

Definition maybeCastSet (datas : option (list object)) : list AdapterEntity :=
  match datas with
  | None => []
  | Some datas => omap (fun data => maybeCastEntity (Some data)) datas
  end.

(** [Adapter.setIdHash], for the adapter named [name]. *)
Definition setIdHash (name : string) (entity : object) (propName : string)
  : object :=
  set entity "idHash"
      (VObj (assign (assign [] (get entity "idHash"))
                    (VObj [(name, get entity propName)]))).

(** [table[key] = v] on a plain object used as a table, whose own
    properties a map lists, for an object [v]: under the key [__proto__] the
    assignment replaces the prototype of the table and creates no
    property. *)
Definition assignKey {A} (properties : gmap string A) (key : string) (v : A)
  : gmap string A :=
  if String.eqb key "__proto__" then properties else <[key := v]> properties.

(** The tables [configureCollection] fills: under a table name, the remapping
    table with its inverse, and the filter table. *)
Record collections (Filter : Type) : Type := {
  remaps : gmap string (object * object);
  filters : gmap string (list (string * Filter));
}.
Arguments remaps {Filter} c.
Arguments filters {Filter} c.

(** [Adapter.configureCollection]; [filters] is the empty table when the
    argument is omitted. *)
Definition configureCollection {Filter} (c : collections Filter)
  (tableName : string) (remaps' : object)
  (filters' : option (list (string * Filter))) : collections Filter :=
  {| remaps := assignKey (remaps c) tableName (remaps', invert remaps');
     filters := assignKey (filters c) tableName (default [] filters') |}.

(** [Adapter.insertMany]: [mapSeries] calls [this.insertOne] on one entity
    after the other (an entity is an object, so [entity || {}] is the entity),
    and the results that are [undefined] are left out. *)
Variable this_insertOne : string -> object -> Async.t (option AdapterEntity).

Fixpoint mapSeries (table : string) (entities : list object)
  : Async.t (list (option AdapterEntity)) :=
  match entities with
  | [] => Async.ret []
  | entity :: rest =>
      await! inserted := this_insertOne table entity in
      await! others := mapSeries table rest in
      Async.ret (inserted :: others)
  end.

Definition insertMany (table : string) (entities : list object)
  : Async.t (list AdapterEntity) :=
  await! mapped := mapSeries table entities in
  Async.ret (compact mapped).

End Adapter.

(** ** The web storage adapter *)

Module WebStorageAdapter.

Section Methods.

Variable OPERATORS : string -> option (property -> value -> bool).
Variable QUERY_OPTIONS_TRANSFORMS : list (string * (object -> Result.t object)).

(** [WebStorageAdapter.getItemName]. *)
Definition getItemName (table : string) (id : value) : string :=
  table +:+ ".id=" +:+ toString id.

(** [ensureCollectionExists]: the index of the table, created empty when the
    storage has none. *)
Definition ensureCollectionExists (table : string) : Async.t (list string) :=
  await! source := Async.getStorage in
  match indexes source !! table with
  | None =>
      let newIndex := [] in
      await! _ := Async.putStorage
        {| indexes := <[table := newIndex]> (indexes source);
           items := items source |} in
      Async.ret newIndex
  | Some index => Async.ret index
  end.

(** [findOneById]. *)
Definition findOneById (table : string) (id : value)
  : Async.t (option AdapterEntity) :=
  await! source := Async.getStorage in
  Async.ret (items source !! getItemName table id).

(** The [_.each] of [findOne] over the index: the item returned, if any,
    given the number of items matched so far; a throw of the matcher ends
    it. *)
Fixpoint scanItems (source : Storage) (table : string) (queryFind : value)
  (skip : value) (itemIds : list string) (matched : Z)
  : Result.t (option object) :=
  match itemIds with
  | [] => Result.ret None
  | itemId :: rest =>
      match items source !! getItemName table (VStr itemId) with
      | None => scanItems source table queryFind skip rest matched
      | Some item =>
          try! matches := matchEntity OPERATORS queryFind item in
          if matches then
            let matched := matched + 1 in
            if greaterThan matched skip then Result.ret (Some item)
            else scanItems source table queryFind skip rest matched
          else scanItems source table queryFind skip rest matched
      end
  end.

(** The query names one id: [{ id: { $equal: ... } }]. *)
Definition isIdQuery (queryFind : value) : bool :=
  bool_decide (keys queryFind = ["id"])
  && bool_decide (keys (getProperty queryFind "id") = ["$equal"]).

(** [WebStorageAdapter.findOne]. *)
Definition findOne (table : string) (queryFind : value) (options : option loc)
  : Async.t (option AdapterEntity) :=
  await! options := optionsOrDefault QUERY_OPTIONS_TRANSFORMS options in
  await! opts := Async.load options in
  await! _ := Async.store options (defaults opts [("skip", VNum 0)]) in
  if negb (isObject queryFind) then findOneById table queryFind
  else if isIdQuery queryFind then
    findOneById table (getProperty (getProperty queryFind "id") "$equal")
  else
    await! itemIds := ensureCollectionExists table in
    await! source := Async.getStorage in
    await! opts := Async.load options in
    Async.lift (scanItems source table queryFind (get opts "skip") itemIds 0).

(** [WebStorageAdapter.deleteOne]; its [this.findOne] is the method above. *)
Definition deleteOne (table : string) (queryFind : value) (options : option loc)
  : Async.t unit :=
  await! options := optionsOrDefault QUERY_OPTIONS_TRANSFORMS options in
  await! entityToDelete := findOne table queryFind (Some options) in
  match entityToDelete with
  | None => Async.ret tt
  | Some entityToDelete =>
      let id := get entityToDelete "id" in
      await! tableIndex := ensureCollectionExists table in
      let tableIndex := pull tableIndex id in
      await! source := Async.getStorage in
      await! _ := Async.putStorage
        {| indexes := <[table := tableIndex]> (indexes source);
           items := items source |} in
      await! source := Async.getStorage in
      Async.putStorage
        {| indexes := indexes source;
           items := delete (getItemName table id) (items source) |}
  end.

(** The default [deleteMany] of the base class on this adapter's [findOne]
    and [deleteOne]. *)
Definition defaultDeleteMany (fuel : nat) (table : string) (queryFind : value)
  (options : option loc) : Async.t (list call) :=
  deleteMany QUERY_OPTIONS_TRANSFORMS findOne deleteOne fuel table queryFind options.

(** [setItem(name, JSON.stringify(item))] for an item, and
    [setItem(table, JSON.stringify(tableIndex))]. *)
Variable toISOString : Z -> string.

Definition setItem (name : string) (item : object) : Async.t unit :=
  await! source := Async.getStorage in
  Async.putStorage
    {| indexes := indexes source;
       items := <[name := reparseObject toISOString item]> (items source) |}.

Definition setIndex (table : string) (tableIndex : list string) : Async.t unit :=
  await! source := Async.getStorage in
  Async.putStorage
    {| indexes := <[table := tableIndex]> (indexes source);
       items := items source |}.

(** [WebStorageAdapter.insertOne]; [uuid] is what [Utils.generateUUID]
    returns at this call.  The adapter is named [webStorage] by its
    constructor, and [entity.id] stays the id just assigned: [setIdHash]
    assigns [idHash] only. *)
Definition insertOne (uuid : string) (table : string) (entity : object)
  : Async.t (option AdapterEntity) :=
  let entity := ownEntries (cloneDeep (VObj entity)) in
  let entity := set entity "id" (VStr uuid) in
  let entity := setIdHash "webStorage" entity "id" in
  await! tableIndex := ensureCollectionExists table in
  let tableIndex := tableIndex ++ [uuid] in
  await! _ := setIndex table tableIndex in
  await! _ := setItem (getItemName table (VStr uuid)) entity in
  Async.ret (maybeCastEntity (Some entity)).

(** [WebStorageAdapter.insertMany]; [uuids n] is what [Utils.generateUUID]
    returns at its call number [n] of this run.  The items are stored one by
    one, the index once all are. *)
Fixpoint storeEach (uuids : nat -> string) (n : nat) (table : string)
  (entities : list object) (tableIndex : list string)
  : Async.t (list object * list string) :=
  match entities with
  | [] => Async.ret ([], tableIndex)
  | entity :: rest =>
      let entity := set entity "id" (VStr (uuids n)) in
      let entity := setIdHash "webStorage" entity "id" in
      let tableIndex := tableIndex ++ [uuids n] in
      await! _ := setItem (getItemName table (VStr (uuids n))) entity in
      await! stored := storeEach uuids (S n) table rest tableIndex in
      Async.ret (entity :: stored.1, stored.2)
  end.

Definition insertMany (uuids : nat -> string) (table : string)
  (entities : list object) : Async.t (list AdapterEntity) :=
  let entities := (fun entity => ownEntries (cloneDeep (VObj entity))) <$> entities in
  await! tableIndex := ensureCollectionExists table in
  await! stored := storeEach uuids 0 table entities tableIndex in
  await! _ := setIndex table stored.2 in
  Async.ret (maybeCastSet (Some stored.1)).

(** [WebStorageAdapter.configureCollection]: the filters it is given are not
    passed on to the base class. *)
Definition configureCollection {Filter} (c : collections Filter)
  (tableName : string) (remaps' : object)
  (filters' : list (string * Filter)) : Async.t (collections Filter) :=
  let c := configureCollection c tableName remaps' None in
  await! _ := ensureCollectionExists tableName in
  Async.ret c.

End Methods.

End WebStorageAdapter.

(** ** The life cycle of an adapter *)

Module Lifecycle.

Inductive EAdapterState : Type := READY | ERROR | PREPARING.

#[global] Instance EAdapterState_eq_dec : EqDecision EAdapterState.
Proof. solve_decision. Defined.

(** The [Error] an [error] event carries, by its message. *)
Abbreviation Error := string.

(** What [waitReady] resolves its promise with: [this], the adapter. *)
Inductive resolution : Type := ThisAdapter.

(** The promise [waitReady] returns: pending, resolved with a value, or
    rejected with a reason ([undefined] when no error was stored).  Once
    settled it stays as it is. *)
Inductive promise : Type :=
| Pending
| Fulfilled (value : resolution)
| Failed (reason : option Error).

(** The handlers the sources register on the event emitter the adapter
    extends: the two of the constructor, and the two of a [waitReady] that
    found the adapter preparing, for the promise it returned. *)
Inductive handler : Type :=
| SetReady
| SetError
| ResolveWaiter (p : nat)
| RejectWaiter (p : nat).

#[global] Instance handler_eq_dec : EqDecision handler.
Proof. solve_decision. Defined.

(** The adapter: its [state] and [error] fields, the handlers registered with
    [on], in registration order, under the event they listen to (events are
    named by the states), and the promises [waitReady] has handed out. *)
Record adapter : Type := {
  state : EAdapterState;
  error : option Error;
  listeners : list (EAdapterState * handler);
  promises : list promise;
}.

(** The constructor of [Adapter]. *)
Definition new : adapter :=
  {| state := PREPARING;
     error := None;
     listeners := [(READY, SetReady); (ERROR, SetError)];
     promises := [] |}.

(** [resolve] and [reject] of a promise: they settle a pending promise and
    do nothing to a settled one. *)
Definition settle (p : nat) (outcome : promise) (ps : list promise)
  : list promise :=
  match ps !! p with
  | Some Pending => <[p := outcome]> ps
  | _ => ps
  end.

(** [Diaspora.logger], read on the class [Diaspora] that the module of the
    adapter imports: the class declares [logger] as a getter of its
    instances, so the class itself has no such property and the read gives
    [undefined]. *)
Definition Diaspora_logger : option unit := None.

(** A handler returns, or throws and leaves the adapter as it was when it
    threw. *)
Inductive completion : Type :=
| Returned (a : adapter)
| Threw (a : adapter).

(** One handler, called with the argument of the event.  The handler of the
    constructor for [error] assigns the state, calls
    [Diaspora.logger.error(...)], and then stores the error: the read of
    [error] on a logger that is [undefined] throws, before the arguments of
    the call are evaluated; with a logger,
    [Object.getOwnPropertyNames(err)] throws for an event without
    argument. *)
Definition run (h : handler) (err : option Error) (a : adapter) : completion :=
  match h with
  | SetReady =>
      Returned {| state := READY; error := error a;
                  listeners := listeners a; promises := promises a |}
  | SetError =>
      let a := {| state := ERROR; error := error a;
                  listeners := listeners a; promises := promises a |} in
      match Diaspora_logger with
      | None => Threw a
      | Some _ =>
          match err with
          | None => Threw a
          | Some _ =>
              Returned {| state := state a; error := err;
                          listeners := listeners a; promises := promises a |}
          end
      end
  | ResolveWaiter p =>
      Returned {| state := state a; error := error a;
                  listeners := listeners a;
                  promises := settle p (Fulfilled ThisAdapter) (promises a) |}
  | RejectWaiter p =>
      Returned {| state := state a; error := error a;
                  listeners := listeners a;
                  promises := settle p (Failed err) (promises a) |}
  end.

(** [emit(event, err)], of the event emitter the adapter extends: the
    handlers registered for the event are called one after the other, in
    registration order; when one throws, the handlers after it are not
    called. *)
Fixpoint runAll (event : EAdapterState) (err : option Error)
  (hs : list (EAdapterState * handler)) (a : adapter) : adapter :=
  match hs with
  | [] => a
  | (ev, h) :: rest =>
      if decide (ev = event) then
        match run h err a with
        | Returned a => runAll event err rest a
        | Threw a => a
        end
      else runAll event err rest a
  end.

Definition emit (event : EAdapterState) (err : option Error) (a : adapter)
  : adapter :=
  runAll event err (listeners a) a.

(** [Adapter.waitReady]: the promise is created and its executor runs at
    once.  The result is the index of the new promise and the adapter. *)
Definition waitReady (a : adapter) : nat * adapter :=
  let p := length (promises a) in
  match state a with
  | READY =>
      (p, {| state := state a; error := error a; listeners := listeners a;
             promises := promises a ++ [Fulfilled ThisAdapter] |})
  | ERROR =>
      (p, {| state := state a; error := error a; listeners := listeners a;
             promises := promises a ++ [Failed (error a)] |})
  | PREPARING =>
      (p, {| state := state a; error := error a;
             listeners := listeners a
                          ++ [(READY, ResolveWaiter p); (ERROR, RejectWaiter p)];
             promises := promises a ++ [Pending] |})
  end.

(** The adapters a program can reach: a new one, after any number of
    [waitReady] calls, [ready] and [error] events, and assignments to the
    state. *)
Inductive reachable : adapter -> Prop :=
| reachable_new : reachable new
| reachable_wait a : reachable a -> reachable (waitReady a).2
| reachable_ready a : reachable a -> reachable (emit READY None a)
| reachable_error a err : reachable a -> reachable (emit ERROR (Some err) a)
| reachable_assign a s :
    (* a subclass assigns [this.state], as the web storage adapter does *)
    reachable a ->
    reachable {| state := s; error := error a;
                 listeners := listeners a; promises := promises a |}.

(** The handler that settles promise [p] on an event, and what it settles
    the promise with. *)
Definition waiter (event : EAdapterState) (p : nat) : EAdapterState * handler :=
  match event with
  | READY => (READY, ResolveWaiter p)
  | _ => (ERROR, RejectWaiter p)
  end.

Definition settlement (event : EAdapterState) (err : option Error) : promise :=
  match event with
  | READY => Fulfilled ThisAdapter
  | _ => Failed err
  end.

(** Every handler listens to the event the sources register it for. *)
Definition consistent (hs : list (EAdapterState * handler)) : Prop :=
  forall ev h, (ev, h) ∈ hs ->
    match h with
    | SetReady | ResolveWaiter _ => ev = READY
    | SetError | RejectWaiter _ => ev = ERROR
    end.

(** What holds of every adapter a program can reach: the two handlers of
    the constructor were registered first, no error was ever stored, and
    the handlers of every pending promise are registered. *)
Definition invariant (a : adapter) : Prop :=
  consistent (listeners a) /\
  (exists waiters,
     listeners a = (READY, SetReady) :: (ERROR, SetError) :: waiters) /\
  error a = None /\
  forall p, promises a !! p = Some Pending ->
    (READY, ResolveWaiter p) ∈ listeners a /\
    (ERROR, RejectWaiter p) ∈ listeners a.

End Lifecycle.

(** ** The registry of the Diaspora namespace *)

Module Diaspora.

(** What the registry throws. *)
Inductive ConfigurationError : Type :=
| NonEmptyStringError (classname : string) (v : value)
    (* Error: <classname> name must be a non empty string, had "<v>" *)
| AdapterExistsError (label : string)
    (* Error: Adapter with label "<label>" already exists. *)
| NameUsedError (sourceName : value)
    (* Error: DataSource name already used, had "<sourceName>" *)
| LoadAdapterError (adapterLabel : string)
    (* Error: Could not load adapter "<adapterLabel>" ... *)
| LanguageTypeError
    (* the TypeError of the language for a property read on null or
       undefined *)
| NotCallableError.
    (* the TypeError of the language for a call of what is no function, or
       of a class without [new] *)

Section Registry.

(** A data source: the data access layer around an adapter instance. The
    constructors of the adapters are not among the files embedded here; one
    takes the name of the source and the configuration. *)
Variable DataSource : Type.
Definition IAdapterCtr : Type := value -> list value -> DataSource.

(** The registries are plain objects; a map lists their own properties. *)
Record registry : Type := {
  adapters : gmap string IAdapterCtr;
  _dataSources : gmap string DataSource;
}.

(** [registry.hasOwnProperty(key)], a method call: a registry that owns a
    property named [hasOwnProperty] has that property called, which throws:
    it is an adapter class, which cannot be called without [new], or a data
    source, which is no function. *)
Definition ownsKey {A} (properties : gmap string A) (key : string)
  : ConfigurationError + bool :=
  match properties !! "hasOwnProperty" with
  | Some _ => inl NotCallableError
  | None => inr (bool_decide (is_Some (properties !! key)))
  end.

(** The truth value of a value, as [||] reads it. *)
Definition truthy (v : value) : bool :=
  match v with
  | VUndefined | VNull | VBool false | VNum 0 | VStr "" => false
  | _ => true
  end.

(** [value.length > 0] for a value that is not a string, [None] when the
    read of [length] throws. *)
Definition lengthIsPositive (v : value) : option bool :=
  match v with
  | VUndefined | VNull => None
  | VArr items => Some (0 <? Z.of_nat (length items))
  | VObj props => Some (isPositive (get props "length"))
  | _ => Some false
  end.

(** [Diaspora.requireName]. *)
Definition requireName (classname : string) (v : value)
  : ConfigurationError + unit :=
  if negb (isString v) then
    match lengthIsPositive v with
    | None => inl LanguageTypeError
    | Some true => inl (NonEmptyStringError classname v)
    | Some false => inr tt
    end
  else inr tt.

(** [Diaspora.createDataSource], for a label that is registered; for one that
    is not, the module [diaspora-<label>] is looked up, which fails where no
    such module is installed. *)
Definition createDataSource (d : registry) (adapterLabel : string)
  (sourceName : value) (config : list value) : ConfigurationError + DataSource :=
  match ownsKey (adapters d) adapterLabel with
  | inl e => inl e
  | inr _ =>
      match adapters d !! adapterLabel with
      | None => inl (LoadAdapterError adapterLabel)
      | Some adapterCtr =>
          inr (adapterCtr
                 (if truthy sourceName then sourceName else VStr adapterLabel)
                 config)
      end
  end.

(** [Diaspora.createNamedDataSource]: the data source and the registry after
    the call. *)
Definition createNamedDataSource (d : registry) (sourceName : value)
  (adapterLabel : string) (otherConfig : list value)
  : ConfigurationError + (DataSource * registry) :=
  match requireName "DataSource" sourceName with
  | inl e => inl e
  | inr _ =>
      match createDataSource d adapterLabel sourceName otherConfig with
      | inl e => inl e
      | inr dataSource =>
          match ownsKey (_dataSources d) (toString sourceName) with
          | inl e => inl e
          | inr true => inl (NameUsedError sourceName)
          | inr false =>
              inr (dataSource,
                   {| adapters := adapters d;
                      _dataSources :=
                        assignKey (_dataSources d) (toString sourceName)
                          dataSource |})
          end
      end
  end.

(** [Diaspora.registerAdapter]. *)
Definition registerAdapter (d : registry) (label : string) (adapter : IAdapterCtr)
  : ConfigurationError + registry :=
  match ownsKey (adapters d) label with
  | inl e => inl e
  | inr true => inl (AdapterExistsError label)
  | inr false =>
      inr {| adapters := assignKey (adapters d) label adapter;
             _dataSources := _dataSources d |}
  end.

(** [Diaspora.declareModel]: the model and the models after the call.  The
    class of the models is not among the files embedded here; [newModel] is
    its constructor. *)
Variable Model : Type.
Variable newModel : value -> value -> Model.

Inductive DeclareModelError : Type :=
| ModelNameError (e : ConfigurationError)
| ModelDescError.
    (* Error: "modelDesc" must be an object *)

Definition isNonEmptyString (v : value) : bool :=
  match v with
  | VStr s => 0 <? Z.of_nat (String.length s)
  | _ => false
  end.

Definition declareModel (models : gmap string Model) (name : value)
  (modelDesc : value) : DeclareModelError + (Model * gmap string Model) :=
  match (if isNonEmptyString name then requireName "Model" name else inr tt) with
  | inl e => inl (ModelNameError e)
  | inr _ =>
      if negb (isObject modelDesc) then inl ModelDescError
      else
        let model := newModel name modelDesc in
        inr (model, assignKey models (toString name) model)
  end.

End Registry.

(** A data source that records what it was built with, and the registry
    with the built in adapter. *)
Definition sampleSource : Type := value * list value.

Definition inMemory : IAdapterCtr sampleSource := fun name config => (name, config).

Definition builtIn : registry sampleSource :=
  {| adapters := {[ "inMemory" := inMemory ]}; _dataSources := ∅ |}.

End Diaspora.

(** * The vocabulary of the statements *)

(** A descriptor in canonical form: a plain object none of whose keys is an
    alias, and whose arithmetic operations have a number or a date as operand.
    A query in canonical form maps its fields to such descriptors. *)
Definition canonicalDescriptor (CANONICAL_OPERATORS : string -> option string)
  (desc : value) : Prop :=
  exists props,
    desc = VObj props /\
    NoDup (map fst props) /\
    (forall operator, In operator (map fst props) ->
       CANONICAL_OPERATORS operator = None) /\
    (forall operation, In operation ARITHMETIC_OPERATIONS ->
       hasOwn props operation = true -> isNumeric (get props operation) = true).

Definition canonicalQuery (CANONICAL_OPERATORS : string -> option string)
  (query : value) : Prop :=
  exists fields,
    query = VObj fields /\
    forall field desc, In (field, desc) fields ->
      canonicalDescriptor CANONICAL_OPERATORS desc.

(** An arithmetic operation a descriptor owns with an operand that is
    neither a number nor a date; and a key of a descriptor that is an alias
    of a name the descriptor holds as well. *)
Definition offending (attrSearch : object) (operation : string) : bool :=
  hasOwn attrSearch operation && negb (isNumeric (get attrSearch operation)).

Definition conflicts (CANONICAL_OPERATORS : string -> option string)
  (obj : value) (operator : string) : bool :=
  match CANONICAL_OPERATORS operator with
  | Some canonical => hasOwnProperty obj canonical
  | None => false
  end.

(** Options the registered transforms accept and leave as they are. *)
Definition settled (transforms : list (string * (object -> Result.t object)))
  (opts : object) : Prop :=
  applyTransforms transforms opts = inr opts.

(** The world a method left behind, when it settled. *)
Definition finalWorld {A} (o : outcome A) : option world :=
  match o with
  | Resolved _ w | Rejected _ w => Some w
  | Unfinished => None
  end.

(** A method that leaves the objects of the heap as they are (it may create
    new ones), whatever its arguments. *)
Definition keepsObjects {X A} (method : X -> Async.t A) : Prop :=
  forall x w w' r o,
    finalWorld (method x w) = Some w' ->
    heap w !! r = Some o -> heap w' !! r = Some o.

(** A method whose promise is always resolved. *)
Definition resolves {X A} (method : X -> Async.t A) : Prop :=
  forall x w, exists a w', method x w = Resolved a w'.

(** The vocabulary of the statement: the index of a table, the item stored
    under an id, the ids of the index whose item the query matches, in index
    order, and the storage without some items. *)
Definition indexOf (s : Storage) (table : string) : list string :=
  default [] (indexes s !! table).

Definition itemOf (s : Storage) (table : string) (id : string) : option object :=
  items s !! WebStorageAdapter.getItemName table (VStr id).

Definition isMatch (OPERATORS : string -> option (property -> value -> bool))
  (s : Storage) (table : string) (queryFind : value) (id : string) : bool :=
  match itemOf s table id with
  | Some item =>
      match matchEntity OPERATORS queryFind item with
      | inr matches => matches
      | inl _ => false
      end
  | None => false
  end.

(** A query whose entries name operators the table owns, or names that
    [Object.prototype] has no property of. *)
Definition known (OPERATORS : string -> option (property -> value -> bool))
  (query : value) : Prop :=
  forall key desc operationName val,
    In (key, desc) (toPairs query) -> isObject desc = true ->
    In (operationName, val) (eachEntries desc) ->
    is_Some (OPERATORS operationName) \/ inherited operationName = false.

(** A query on which the matcher throws at no item of the table. *)
Definition evaluates (OPERATORS : string -> option (property -> value -> bool))
  (s : Storage) (table : string) (queryFind : value) : Prop :=
  forall id item,
    id ∈ indexOf s table -> itemOf s table id = Some item ->
    exists matches, matchEntity OPERATORS queryFind item = inr matches.

Definition matching (OPERATORS : string -> option (property -> value -> bool))
  (s : Storage) (table : string) (queryFind : value) : list string :=
  filter (fun id => isMatch OPERATORS s table queryFind id = true)
         (indexOf s table).

Definition removeOne (table : string) (s : Storage) (id : string) : Storage :=
  {| indexes := <[table := filter (fun x => x ≠ id) (indexOf s table)]> (indexes s);
     items := delete (WebStorageAdapter.getItemName table (VStr id)) (items s) |}.

Definition removeAll (table : string) (ids : list string) (s : Storage) : Storage :=
  fold_left (removeOne table) ids s.

(** A query [findOne] answers by id, without the matcher: one that is no
    object, or that names one id; and the id it asks for. *)
Definition namesOneId (queryFind : value) : bool :=
  negb (isObject queryFind) || WebStorageAdapter.isIdQuery queryFind.

Definition idOfQuery (queryFind : value) : value :=
  if isObject queryFind
  then getProperty (getProperty queryFind "id") "$equal"
  else queryFind.

(** A table as [insertOne] and [insertMany] leave it: no id twice in the
    index, and every item stored under the id it carries. *)
Definition wellFormed (s : Storage) (table : string) : Prop :=
  is_Some (indexes s !! table) /\
  NoDup (indexOf s table) /\
  forall id item,
    id ∈ indexOf s table -> itemOf s table id = Some item ->
    get item "id" = VStr id.

(** The calls of a run of [deleteMany] that deleted the entities [deleted],
    one [findOne] and [deleteOne] pair each, before the [findOne] that ended
    it. *)
Fixpoint turns (deleted : list AdapterEntity) (last : option AdapterEntity)
  : list call :=
  match deleted with
  | [] => [FindOneCall last]
  | e :: rest => FindOneCall (Some e) :: DeleteOneCall :: turns rest last
  end.

(** What [insertOne] makes of an entity for the id [uuid], and the storage
    it leaves: the id is added last to the index of the table, and the entity
    is stored, as its JSON text, under the name of the id. *)
Definition stamped (uuid : string) (entity : object) : object :=
  setIdHash "webStorage"
    (set (ownEntries (cloneDeep (VObj entity))) "id" (VStr uuid)) "id".

Definition stored (toISOString : Z -> string) (table : string) (s : Storage)
  (uuid : string) (entity : object) : Storage :=
  {| indexes := <[table := indexOf s table ++ [uuid]]> (indexes s);
     items := <[WebStorageAdapter.getItemName table (VStr uuid) :=
                  reparseObject toISOString (stamped uuid entity)]> (items s) |}.

(** One [insertOne] after the other, the way the default [insertMany] of the
    base class runs them, with the ids [uuids n], [uuids (n + 1)], ...; what
    the entities become, and the storage once all are stored. *)
Fixpoint insertEach (toISOString : Z -> string) (uuids : nat -> string)
  (n : nat) (table : string) (entities : list object)
  : Async.t (list (option AdapterEntity)) :=
  match entities with
  | [] => Async.ret []
  | entity :: rest =>
      await! inserted :=
        WebStorageAdapter.insertOne toISOString (uuids n) table entity in
      await! others := insertEach toISOString uuids (S n) table rest in
      Async.ret (inserted :: others)
  end.

Fixpoint stampedAll (uuids : nat -> string) (n : nat) (entities : list object)
  : list object :=
  match entities with
  | [] => []
  | entity :: rest => stamped (uuids n) entity :: stampedAll uuids (S n) rest
  end.

Fixpoint storedAll (toISOString : Z -> string) (table : string)
  (uuids : nat -> string) (n : nat) (entities : list object) (s : Storage)
  : Storage :=
  match entities with
  | [] => s
  | entity :: rest =>
      storedAll toISOString table uuids (S n) rest
        (stored toISOString table s (uuids n) entity)
  end.

(** * Sample tables and stores *)

(** An alias table with the alias of the specification's scenario. *)
Definition sampleAliases (operator : string) : option string :=
  if String.eqb operator "$gt" then Some "$greater"
  else if String.eqb operator "$lt" then Some "$less"
  else None.

Definition remapping : object := [("remapInput", VBool true)].
Definition notRemapping : object := [("remapInput", VBool false)].

Definition conflicting : value := VObj [("$gt", VNum 1); ("$greater", VNum 2)].

(** A table of transforms in the manner of the specification: an option is
    checked to be a natural number and left as it is. *)
Definition checkNatural (optionName : string) (opts : object) : Result.t object :=
  match get opts optionName with
  | VNum n => if 0 <=? n then inr opts else inl (OptionError optionName opts)
  | _ => inl (OptionError optionName opts)
  end.

Definition sampleTransforms : list (string * (object -> Result.t object)) :=
  [("limit", checkNatural "limit"); ("skip", checkNatural "skip")].

(** An operator table with the presence test of the specification. *)
Definition sampleOperators (name : string)
  : option (property -> value -> bool) :=
  if String.eqb name "$exists" then
    Some (fun entityVal targetVal =>
            match targetVal with
            | VBool b =>
                Bool.eqb b
                  (negb match entityVal with
                        | Data v => isUndefined v
                        | Inherited _ => false
                        end)
            | _ => false
            end)
  else None.

Definition user (id : string) : object := [("id", VStr id); ("name", VStr "n")].

(** Five users with a name and one without. *)
Definition sampleStorage : Storage :=
  {| indexes := {[ "users" := ["a"; "b"; "c"; "d"; "e"; "f"] ]};
     items := list_to_map
       [("users.id=a", user "a"); ("users.id=b", user "b");
        ("users.id=c", user "c"); ("users.id=d", user "d");
        ("users.id=e", user "e"); ("users.id=f", [("id", VStr "f")])] |}.

Definition named : value := VObj [("name", VObj [("$exists", VBool true)])].

Definition sampleWorld (opts : object) : world :=
  {| heap := {[ 0%nat := opts ]}; source := sampleStorage |}.

Definition limitTwo : object :=
  [("limit", VNum 2); ("skip", VNum 0);
   ("remapInput", VBool true); ("remapOutput", VBool true)].

Definition limitTwoSkipFour : object :=
  [("limit", VNum 2); ("skip", VNum 4);
   ("remapInput", VBool true); ("remapOutput", VBool true)].

(** * Properties *)

(** ** The matcher *)


Lemma every_returns {A} (predicate : A -> Result.t bool) (collection : list A) :
  (forall x, In x collection -> exists holds, predicate x = inr holds) ->
  exists holds, every predicate collection = inr holds.
Proof.
  induction collection as [|x rest IH]; intros H; cbn [every].
  - eexists. reflexivity.
  - destruct (H x (or_introl eq_refl)) as [[] ->]; cbn [Result.bind].
    + apply IH. intros y Hy. apply H. right. exact Hy.
    + eexists. reflexivity.
Qed.

Lemma every_ext {A} (f g : A -> Result.t bool) (collection : list A) :
  (forall x, In x collection -> f x = g x) ->
  every f collection = every g collection.
Proof.
  induction collection as [|x rest IH]; intros H; cbn [every]; [reflexivity|].
  rewrite (H x (or_introl eq_refl)).
  rewrite IH by (intros y Hy; apply H; right; exact Hy). reflexivity.
Qed.

(** A descriptor without a [length] property is visited property by
    property: this is the case of every operator mapping. *)
Lemma eachEntries_plain props :
  hasOwn props "length" = false -> eachEntries (VObj props) = props.
Proof.
  intros H. unfold eachEntries.
  assert (Hget : get props "length" = VUndefined).
  { induction props as [|[k v] rest IH]; [reflexivity|]. simpl in *.
    destruct (String.eqb k "length"); [discriminate|]. auto. }
  rewrite Hget. reflexivity.
Qed.

Section MatcherFacts.

Variable OPERATORS : string -> option (property -> value -> bool).


(** An entry whose name the table owns, or that nothing inherits, is
    evaluated without a throw. *)
Lemma matchOperation_returns entityVal operationName val :
  is_Some (OPERATORS operationName) \/ inherited operationName = false ->
  matchOperation OPERATORS entityVal (operationName, val)
  = inr match OPERATORS operationName with
        | Some f => f entityVal val
        | None => false
        end.
Proof using Type.
  unfold matchOperation, Result.ret.
  destruct (OPERATORS operationName) as [f|]; [reflexivity|].
  intros [[f Hf]| ->]; [discriminate | reflexivity].
Qed.



(** A query none of whose entries names a property of [Object.prototype]
    that the table does not own is evaluated without a throw, on every
    record. *)
Lemma matchEntity_returns Q R :
  known OPERATORS Q -> exists matches, matchEntity OPERATORS Q R = inr matches.
Proof using Type.
  intros Hknown. unfold matchEntity. apply every_returns.
  intros [key desc] Hin. unfold matchField.
  destruct (isObject desc) eqn:Hobj; [|eexists; reflexivity].
  apply every_returns. intros [op val] Hop.
  rewrite matchOperation_returns by apply (Hknown key desc op val Hin Hobj Hop).
  eexists. reflexivity.
Qed.

End MatcherFacts.

(** C1 (where the code departs from it).  [OPERATORS[operationName]] is read
    through the prototype of the table: an entry named [constructor], which
    no operator table holds, is an entry that holds, so that the match is
    true, and an entry named [hasOwnProperty] makes the matcher throw, where
    the claim has both make the match false.  A field named [constructor]
    is read through the prototype of the record the same way: it exists on
    the empty record.  Only a name that neither the table owns nor
    [Object.prototype] has makes the entry false. *)
Theorem matchEntity_inherited :
  (forall (OPERATORS : string -> option (property -> value -> bool))
          field val entity,
     OPERATORS "constructor" = None ->
     matchEntity OPERATORS (VObj [(field, VObj [("constructor", val)])]) entity
     = inr true)
  /\ (forall (OPERATORS : string -> option (property -> value -> bool))
             field val entity,
        OPERATORS "hasOwnProperty" = None ->
        matchEntity OPERATORS (VObj [(field, VObj [("hasOwnProperty", val)])])
          entity
        = inl (UndefinedReceiver "hasOwnProperty"))
  /\ matchEntity sampleOperators
       (VObj [("constructor", VObj [("$exists", VBool true)])]) []
     = inr true
  /\ (forall (OPERATORS : string -> option (property -> value -> bool))
             entityVal operationName val,
        OPERATORS operationName = None ->
        inherited operationName = false ->
        matchOperation OPERATORS entityVal (operationName, val) = inr false).
Proof.
  split; [|split; [|split]].
  - intros OPERATORS field val entity Hnone.
    unfold matchEntity, matchField. cbn [toPairs ownEntries every isObject].
    rewrite eachEntries_plain by reflexivity. cbn [every matchOperation].
    rewrite Hnone. reflexivity.
  - intros OPERATORS field val entity Hnone.
    unfold matchEntity, matchField. cbn [toPairs ownEntries every isObject].
    rewrite eachEntries_plain by reflexivity. cbn [every matchOperation].
    rewrite Hnone. reflexivity.
  - reflexivity.
  - intros OPERATORS entityVal operationName val Hnone Hown.
    unfold matchOperation. rewrite Hnone, Hown. reflexivity.
Qed.

(** ** The query normalizer *)

(** *** Objects *)

Lemma hasOwn_In (o : object) key :
  hasOwn o key = true <-> In key (map fst o).
Proof.
  induction o as [|[k v] rest IH]; simpl.
  - split; [discriminate | tauto].
  - rewrite orb_true_iff, IH. split.
    + intros [H|H]; [left; apply String.eqb_eq, H | right; exact H].
    + intros [H|H]; [left; apply String.eqb_eq, H | right; exact H].
Qed.

Lemma set_fresh (o : object) key v :
  hasOwn o key = false -> set o key v = o ++ [(key, v)].
Proof.
  induction o as [|[k w] rest IH]; simpl; [reflexivity|].
  intros H. apply orb_false_iff in H as [Hk Hrest].
  rewrite Hk. f_equal. apply IH, Hrest.
Qed.

Lemma get_set_eq (o : object) key v : get (set o key v) key = v.
Proof.
  induction o as [|[k w] rest IH]; simpl.
  - rewrite String.eqb_refl. reflexivity.
  - destruct (String.eqb k key) eqn:E; simpl; rewrite E; auto.
Qed.

Lemma get_set_ne (o : object) key key' v :
  key <> key' -> get (set o key v) key' = get o key'.
Proof.
  intros Hne. induction o as [|[k w] rest IH]; simpl.
  - destruct (String.eqb key key') eqn:E; [|reflexivity].
    apply String.eqb_eq in E. contradiction.
  - destruct (String.eqb k key) eqn:E; simpl.
    + apply String.eqb_eq in E. subst k.
      destruct (String.eqb key key') eqn:E'; [|reflexivity].
      apply String.eqb_eq in E'. contradiction.
    + rewrite IH. reflexivity.
Qed.

Lemma hasOwn_set (o : object) key key' v :
  hasOwn (set o key v) key' = String.eqb key key' || hasOwn o key'.
Proof.
  induction o as [|[k w] rest IH]; simpl.
  - reflexivity.
  - destruct (String.eqb k key) eqn:E; simpl.
    + apply String.eqb_eq in E. subst k.
      destruct (String.eqb key key'); reflexivity.
    + rewrite IH. destruct (String.eqb k key'), (String.eqb key key'); reflexivity.
Qed.

(** *** Method calls that an own property shadows *)

Lemma hasOwnPropertyOf_own callee obj key :
  shadowed obj "hasOwnProperty" = false ->
  hasOwnPropertyOf callee obj key = inr (hasOwnProperty obj key).
Proof. unfold hasOwnPropertyOf. intros ->. reflexivity. Qed.

Lemma hasOwnPropertyOf_shadowed callee obj key :
  shadowed obj "hasOwnProperty" = true ->
  hasOwnPropertyOf callee obj key = inl (NotAFunction callee).
Proof. unfold hasOwnPropertyOf. intros ->. reflexivity. Qed.

Lemma find_first {A} (f : A -> bool) (l : list A) x :
  In x l -> f x = true -> exists y, find f l = Some y.
Proof.
  intros Hin Hx. destruct (find f l) as [y|] eqn:Hfind; [eauto|].
  rewrite (find_none f l Hfind x Hin) in Hx. discriminate.
Qed.

(** *** The arithmetic check *)

Lemma checkArithmetic_ok operations attrSearch :
  hasOwn attrSearch "hasOwnProperty" = false ->
  (forall operation, In operation operations ->
     hasOwn attrSearch operation = true ->
     isNumeric (get attrSearch operation) = true) ->
  checkArithmetic operations attrSearch = inr tt.
Proof.
  intros Hplain.
  induction operations as [|operation rest IH]; intros H; cbn [checkArithmetic];
    [reflexivity|].
  rewrite hasOwnPropertyOf_own by exact Hplain.
  cbn [Result.bind hasOwnProperty ownEntries].
  destruct (hasOwn attrSearch operation) eqn:Hown; cbn [andb].
  - rewrite (H operation) by (simpl; auto). cbn [negb]. apply IH.
    intros op Hop. apply H. simpl. auto.
  - apply IH. intros op Hop. apply H. simpl. auto.
Qed.

(** The check throws for the first operation, in the order of the list, that
    the descriptor owns with an operand that is no number and no date. *)
Lemma checkArithmetic_first operations attrSearch :
  hasOwn attrSearch "hasOwnProperty" = false ->
  checkArithmetic operations attrSearch
  = match find (offending attrSearch) operations with
    | Some operation => inl (ArithmeticTypeError operation (VObj attrSearch))
    | None => inr tt
    end.
Proof.
  intros Hplain.
  induction operations as [|operation rest IH]; cbn [checkArithmetic find];
    [reflexivity|].
  rewrite hasOwnPropertyOf_own by exact Hplain.
  cbn [Result.bind hasOwnProperty ownEntries]. unfold offending at 1.
  destruct (hasOwn attrSearch operation && negb (isNumeric (get attrSearch operation)));
    [reflexivity | exact IH].
Qed.

(** A descriptor that owns a property named [hasOwnProperty] makes the first
    test of the check throw. *)
Lemma checkArithmetic_shadowed operation rest attrSearch :
  hasOwn attrSearch "hasOwnProperty" = true ->
  checkArithmetic (operation :: rest) attrSearch
  = inl (NotAFunction "attrSearch.hasOwnProperty").
Proof.
  intros Hown. cbn [checkArithmetic].
  rewrite hasOwnPropertyOf_shadowed by exact Hown. reflexivity.
Qed.

Lemma checkArithmetic_inv operations attrSearch :
  checkArithmetic operations attrSearch = inr tt ->
  forall operation, In operation operations ->
    hasOwn attrSearch operation = true ->
    isNumeric (get attrSearch operation) = true.
Proof.
  induction operations as [|op rest IH]; cbn [checkArithmetic]; [intros _ ? []|].
  unfold hasOwnPropertyOf.
  destruct (shadowed (VObj attrSearch) "hasOwnProperty"); [discriminate|].
  cbn [Result.bind Result.ret hasOwnProperty ownEntries].
  destruct (hasOwn attrSearch op && negb (isNumeric (get attrSearch op))) eqn:E;
    [discriminate|].
  intros Hrest operation [<-|Hin] Hown.
  - rewrite Hown in E. simpl in E. apply negb_false_iff in E. exact E.
  - apply IH; assumption.
Qed.

Section NormalizerFacts.

Variable CANONICAL_OPERATORS : string -> option string.

(** *** Renaming the operators of a descriptor *)

(** On a descriptor that owns no property named [hasOwnProperty], the only
    thing [_.mapKeys] throws is a conflict: that of the first key, in
    the order of the visit, that is an alias of a name the descriptor
    owns. *)
Lemma mapKeysFrom_first obj entries result :
  shadowed obj "hasOwnProperty" = false ->
  match find (conflicts CANONICAL_OPERATORS obj) (map fst entries) with
  | Some alias =>
      exists canonical,
        CANONICAL_OPERATORS alias = Some canonical /\
        hasOwnProperty obj canonical = true /\
        mapKeysFrom CANONICAL_OPERATORS obj entries result
        = inl (ConflictError alias canonical)
  | None =>
      exists renamed,
        mapKeysFrom CANONICAL_OPERATORS obj entries result = inr renamed
  end.
Proof using Type.
  intros Hplain. revert result.
  induction entries as [|[operator val] rest IH]; intros result;
    cbn [mapKeysFrom map fst find].
  - eexists. reflexivity.
  - unfold canonicalKey, conflicts at 1.
    destruct (CANONICAL_OPERATORS operator) as [canonical|] eqn:Hc;
      cbn [Result.bind Result.ret].
    + rewrite hasOwnPropertyOf_own by exact Hplain. cbn [Result.bind].
      destruct (hasOwnProperty obj canonical) eqn:Hown.
      * exists canonical. auto.
      * apply IH.
    + apply IH.
Qed.

(** On a descriptor that owns such a property, the first alias among its
    keys makes [_.mapKeys] throw: the test for a conflict calls the
    property. *)
Lemma mapKeysFrom_shadowed obj entries result alias canonical :
  shadowed obj "hasOwnProperty" = true ->
  In alias (map fst entries) ->
  CANONICAL_OPERATORS alias = Some canonical ->
  mapKeysFrom CANONICAL_OPERATORS obj entries result
  = inl (NotAFunction "obj.hasOwnProperty").
Proof using Type.
  intros Hshadow. revert result.
  induction entries as [|[operator val] rest IH]; intros result;
    cbn [mapKeysFrom map fst]; [intros []|].
  intros Hin Hc. unfold canonicalKey.
  destruct (CANONICAL_OPERATORS operator) as [canonical'|] eqn:Hc';
    cbn [Result.bind Result.ret].
  - rewrite hasOwnPropertyOf_shadowed by exact Hshadow. reflexivity.
  - destruct Hin as [->|Hin]; [congruence|]. apply IH; assumption.
Qed.

(** Without an alias among its keys, a descriptor is rebuilt as it is. *)
Lemma mapKeysFrom_canonical obj entries result :
  NoDup (map fst (result ++ entries)) ->
  (forall operator, In operator (map fst entries) ->
     CANONICAL_OPERATORS operator = None) ->
  mapKeysFrom CANONICAL_OPERATORS obj entries result = inr (result ++ entries).
Proof using Type.
  revert result. induction entries as [|[operator val] rest IH]; intros result Hnd Hcanon; simpl.
  - rewrite app_nil_r. reflexivity.
  - unfold canonicalKey. rewrite (Hcanon operator) by (simpl; auto). simpl.
    assert (Hfresh : hasOwn result operator = false).
    { apply not_true_is_false. intros H. apply hasOwn_In in H.
      rewrite map_app in Hnd. simpl in Hnd.
      apply NoDup_app in Hnd as (_ & Hdisj & _).
      apply (Hdisj operator); [apply list_elem_of_In; exact H | left]. }
    rewrite set_fresh by exact Hfresh.
    rewrite IH.
    + rewrite <- app_assoc. reflexivity.
    + rewrite <- app_assoc. exact Hnd.
    + intros op Hop. apply Hcanon. simpl. auto.
Qed.

(** *** Fields, one after the other *)

Lemma mapValues_app pre rest :
  mapValues CANONICAL_OPERATORS (pre ++ rest) =
  try! before := mapValues CANONICAL_OPERATORS pre in
  try! after := mapValues CANONICAL_OPERATORS rest in
  Result.ret (before ++ after).
Proof using Type.
  induction pre as [|[field attr] pre IH]; simpl.
  - destruct (mapValues CANONICAL_OPERATORS rest); reflexivity.
  - destruct (normalizeAttr CANONICAL_OPERATORS attr) as [e|attr']; simpl; [reflexivity|].
    rewrite IH. destruct (mapValues CANONICAL_OPERATORS pre) as [e|before]; simpl; [reflexivity|].
    destruct (mapValues CANONICAL_OPERATORS rest); reflexivity.
Qed.

Lemma mapValues_ok pre :
  (forall field attr, In (field, attr) pre -> exists r, normalizeAttr CANONICAL_OPERATORS attr = inr r) ->
  exists before, mapValues CANONICAL_OPERATORS pre = inr before.
Proof using Type.
  induction pre as [|[field attr] pre IH]; intros H; simpl; [eauto|].
  destruct (H field attr) as [r ->]; [simpl; auto|]. simpl.
  destruct IH as [before ->]; [intros f a Hin; apply (H f a); simpl; auto|].
  simpl. eauto.
Qed.

(** A field that is refused makes the whole normalization throw; its own
    error is the one thrown when the fields before it are accepted. *)
Lemma mapValues_throws pre field attr post e :
  normalizeAttr CANONICAL_OPERATORS attr = inl e ->
  (exists e', mapValues CANONICAL_OPERATORS (pre ++ (field, attr) :: post) = inl e') /\
  ((forall f a, In (f, a) pre -> exists r, normalizeAttr CANONICAL_OPERATORS a = inr r) ->
   mapValues CANONICAL_OPERATORS (pre ++ (field, attr) :: post) = inl e).
Proof using Type.
  intros Hattr. rewrite mapValues_app. simpl. rewrite Hattr. simpl. split.
  - destruct (mapValues CANONICAL_OPERATORS pre); simpl; eauto.
  - intros Hpre. destruct (mapValues_ok pre Hpre) as [before ->]. reflexivity.
Qed.

Lemma mapValues_Forall2 fields normalized :
  mapValues CANONICAL_OPERATORS fields = inr normalized ->
  Forall2 (fun original result =>
             result.1 = original.1 /\ normalizeAttr CANONICAL_OPERATORS original.2 = inr result.2)
          fields normalized.
Proof using Type.
  revert normalized. induction fields as [|[field attr] rest IH]; intros normalized; simpl.
  - intros [= <-]. constructor.
  - destruct (normalizeAttr CANONICAL_OPERATORS attr) as [e|attr'] eqn:Hattr; simpl; [discriminate|].
    destruct (mapValues CANONICAL_OPERATORS rest) as [e|others]; simpl; [discriminate|].
    intros [= <-]. constructor; [split; [reflexivity | exact Hattr] | apply IH; reflexivity].
Qed.

(** What [normalizeAttr] does with a value that is an object. *)
Lemma normalizeAttr_object desc :
  instanceofObject desc = true ->
  normalizeAttr CANONICAL_OPERATORS desc
  = (try! renamed := mapKeys CANONICAL_OPERATORS desc in
     try! _ := checkArithmetic ARITHMETIC_OPERATIONS renamed in
     Result.ret (VObj renamed)).
Proof using Type.
  intros Hobj. unfold normalizeAttr. rewrite Hobj.
  destruct desc; try discriminate; reflexivity.
Qed.

Lemma normalizeAttr_canonical desc :
  canonicalDescriptor CANONICAL_OPERATORS desc ->
  shadowed desc "hasOwnProperty" = false ->
  normalizeAttr CANONICAL_OPERATORS desc = inr desc.
Proof using Type.
  intros (props & -> & Hnd & Hcanon & Harith) Hplain.
  rewrite normalizeAttr_object by reflexivity. unfold mapKeys.
  cbn [ownEntries].
  rewrite mapKeysFrom_canonical by (simpl; assumption).
  cbn [Result.bind app].
  rewrite checkArithmetic_ok by assumption. reflexivity.
Qed.

Lemma mapValues_canonical fields :
  (forall field desc, In (field, desc) fields ->
     canonicalDescriptor CANONICAL_OPERATORS desc
     /\ shadowed desc "hasOwnProperty" = false) ->
  mapValues CANONICAL_OPERATORS fields = inr fields.
Proof using Type.
  induction fields as [|[field desc] rest IH]; intros H; simpl; [reflexivity|].
  destruct (H field desc) as [Hcanon Hplain]; [simpl; auto|].
  rewrite normalizeAttr_canonical by assumption. simpl.
  rewrite IH by (intros f d Hin; apply (H f); simpl; auto). reflexivity.
Qed.

End NormalizerFacts.

Section NormalizerClaims.

Variable CANONICAL_OPERATORS : string -> option string.

Abbreviation normalizeQuery' := (normalizeQuery CANONICAL_OPERATORS).

(** C3 (the form the code satisfies). With [options.remapInput === true]: a bare string [s]
    becomes [{ id: { $equal: s } }]; a query whose fields all hold values that
    are no objects is rewritten field by field, [undefined] to
    [{ $exists: false }] and any other such value to [{ $equal: value }];
    and whenever a query is normalized, each of its fields of that kind has
    been rewritten so, at its place and under its key.  With any other
    [options.remapInput] the query is returned as it is, a bare string [s] as
    [{ id: s }]. *)
Theorem normalizeQuery_shorthands :
  (forall s options,
     get options "remapInput" = VBool true ->
     normalizeQuery' (VStr s) options
     = inr (VObj [("id", VObj [("$equal", VStr s)])]))
  /\ (forall fields options,
       get options "remapInput" = VBool true ->
       (forall field attr, In (field, attr) fields -> instanceofObject attr = false) ->
       normalizeQuery' (VObj fields) options
       = inr (VObj (map (fun pair : string * value =>
                           (pair.1,
                            if isUndefined pair.2
                            then VObj [("$exists", VBool false)]
                            else VObj [("$equal", pair.2)])) fields)))
  /\ (forall fields options normalized,
       get options "remapInput" = VBool true ->
       normalizeQuery' (VObj fields) options = inr normalized ->
       exists result,
         normalized = VObj result /\
         Forall2 (fun original res : string * value =>
                    res.1 = original.1 /\
                    (original.2 = VUndefined ->
                     res.2 = VObj [("$exists", VBool false)]) /\
                    (original.2 <> VUndefined ->
                     instanceofObject original.2 = false ->
                     res.2 = VObj [("$equal", original.2)]))
                 fields result)
  /\ (forall query options,
       get options "remapInput" <> VBool true ->
       normalizeQuery' query options
       = inr (if isString query then VObj [("id", query)] else query)).
Proof.
  repeat split.
  - intros s options Hremap. unfold normalizeQuery. rewrite Hremap.
    reflexivity.
  - intros fields options Hremap Hscalar.
    unfold normalizeQuery. rewrite Hremap.
    cbn [isString cloneDeep ownEntries].
    assert (Hmap : mapValues CANONICAL_OPERATORS fields
                   = inr (map (fun pair : string * value =>
                           (pair.1,
                            if isUndefined pair.2
                            then VObj [("$exists", VBool false)]
                            else VObj [("$equal", pair.2)])) fields)).
    { induction fields as [|[field attr] rest IH]; [reflexivity|].
      cbn [mapValues map fst snd].
      unfold normalizeAttr at 1.
      rewrite (Hscalar field attr) by (simpl; auto).
      rewrite IH by (intros f a Hin; apply (Hscalar f); simpl; auto).
      destruct (isUndefined attr); reflexivity. }
    rewrite Hmap. reflexivity.
  - intros fields options normalized Hremap.
    unfold normalizeQuery. rewrite Hremap.
    cbn [isString cloneDeep ownEntries].
    destruct (mapValues CANONICAL_OPERATORS fields) as [e|result] eqn:Hmap;
      [discriminate|].
    intros [= <-]. exists result. split; [reflexivity|].
    apply mapValues_Forall2 in Hmap.
    eapply Forall2_impl; [exact Hmap|].
    intros [field attr] [field' attr'] [Hkey Hattr]. simpl in *.
    split; [exact Hkey|]. split.
    + intros ->. unfold normalizeAttr, Result.ret in Hattr. simpl in Hattr.
      congruence.
    + intros Hdef Hscalar. unfold normalizeAttr, Result.ret in Hattr.
      rewrite Hscalar in Hattr.
      destruct attr; try contradiction; simpl in Hattr; congruence.
  - intros query options Hremap. unfold normalizeQuery.
    destruct (get options "remapInput") as [| |[]| | | | |]; try reflexivity.
    contradiction.
Qed.

(** C4 (the form the code satisfies). With [options.remapInput === true], a
    query one of whose fields has a descriptor that holds an alias together
    with its canonical name is never normalized: [normalizeQuery] throws,
    during normalization, which reads no store.  When the fields before that
    one are accepted, the error is the conflict of the first key of the
    descriptor, in the order of its keys, that is an alias of a name the
    descriptor holds, and it names that alias and that name.  The latter is
    for a descriptor that owns no property named [hasOwnProperty], so that
    [obj.hasOwnProperty] is the method of every object. *)
Theorem normalizeQuery_conflict options pre field desc post alias canonical :
  get options "remapInput" = VBool true ->
  instanceofObject desc = true ->
  In alias (keys desc) ->
  CANONICAL_OPERATORS alias = Some canonical ->
  hasOwnProperty desc canonical = true ->
  (exists e, normalizeQuery' (VObj (pre ++ (field, desc) :: post)) options = inl e)
  /\ ((forall f a, In (f, a) pre ->
         exists r, normalizeAttr CANONICAL_OPERATORS a = inr r) ->
      shadowed desc "hasOwnProperty" = false ->
      exists alias' canonical',
        normalizeQuery' (VObj (pre ++ (field, desc) :: post)) options
        = inl (ConflictError alias' canonical') /\
        find (conflicts CANONICAL_OPERATORS desc) (keys desc) = Some alias' /\
        In alias' (keys desc) /\
        CANONICAL_OPERATORS alias' = Some canonical' /\
        hasOwnProperty desc canonical' = true).
Proof.
  intros Hremap Hobj Hin Hcanon Hown.
  assert (Hthrown : forall e,
    mapKeys CANONICAL_OPERATORS desc = inl e ->
    (exists e', normalizeQuery' (VObj (pre ++ (field, desc) :: post)) options
                = inl e')
    /\ ((forall f a, In (f, a) pre ->
           exists r, normalizeAttr CANONICAL_OPERATORS a = inr r) ->
        normalizeQuery' (VObj (pre ++ (field, desc) :: post)) options = inl e)).
  { intros e He.
    assert (Hattr : normalizeAttr CANONICAL_OPERATORS desc = inl e).
    { rewrite normalizeAttr_object by exact Hobj. rewrite He. reflexivity. }
    destruct (mapValues_throws CANONICAL_OPERATORS pre field desc post _ Hattr)
      as [[e' He'] Hfirst].
    unfold normalizeQuery. rewrite Hremap.
    cbn [isString cloneDeep ownEntries]. split.
    - exists e'. rewrite He'. reflexivity.
    - intros Hpre. rewrite (Hfirst Hpre). reflexivity. }
  destruct (shadowed desc "hasOwnProperty") eqn:Hshadow.
  - pose proof (mapKeysFrom_shadowed CANONICAL_OPERATORS desc (ownEntries desc) []
                  alias canonical Hshadow Hin Hcanon) as He.
    destruct (Hthrown _ He) as [Hsome Hfirst].
    split; [exact Hsome|]. intros Hpre. discriminate.
  - pose proof (mapKeysFrom_first CANONICAL_OPERATORS desc (ownEntries desc) []
                  Hshadow) as Hrun.
    destruct (find_first (conflicts CANONICAL_OPERATORS desc) (keys desc) alias Hin)
      as [alias' Hfind].
    { unfold conflicts. rewrite Hcanon. exact Hown. }
    change (find (conflicts CANONICAL_OPERATORS desc)
                 (map fst (ownEntries desc)) = Some alias') in Hfind.
    rewrite Hfind in Hrun.
    destruct Hrun as (canonical' & Hc' & Hown' & He).
    destruct (Hthrown _ He) as [Hsome Hfirst].
    split; [exact Hsome|]. intros Hpre _.
    exists alias', canonical'. rewrite (Hfirst Hpre).
    split; [reflexivity|]. split; [exact Hfind|].
    split; [|auto]. apply find_some in Hfind as [Hin' _]. exact Hin'.
Qed.

(** C5 (the form the code satisfies). With [options.remapInput === true],
    when the fields before it are accepted and the renaming of its aliases
    meets no conflict, a descriptor that then owns one of the four
    arithmetic operations with an operand that is neither a number nor a
    date makes [normalizeQuery] throw the type error of the first such
    operation in the order [$less], [$lessEqual], [$greater],
    [$greaterEqual]; the error carries the name of that operation and the
    renamed descriptor, whose JSON text (the operand within it) the message
    shows.  This is for a descriptor that owns no property named
    [hasOwnProperty] once renamed, so that [attrSearch.hasOwnProperty] is
    the method of every object. *)
Theorem normalizeQuery_arithmetic options pre field desc post renamed operation :
  get options "remapInput" = VBool true ->
  instanceofObject desc = true ->
  (forall f a, In (f, a) pre -> exists r, normalizeAttr CANONICAL_OPERATORS a = inr r) ->
  mapKeys CANONICAL_OPERATORS desc = inr renamed ->
  In operation ["$less"; "$lessEqual"; "$greater"; "$greaterEqual"] ->
  hasOwn renamed operation = true ->
  isNumeric (get renamed operation) = false ->
  hasOwn renamed "hasOwnProperty" = false ->
  exists first,
    find (offending renamed) ["$less"; "$lessEqual"; "$greater"; "$greaterEqual"]
    = Some first
    /\ hasOwn renamed first = true
    /\ isNumeric (get renamed first) = false
    /\ normalizeQuery' (VObj (pre ++ (field, desc) :: post)) options
       = inl (ArithmeticTypeError first (VObj renamed)).
Proof.
  intros Hremap Hobj Hpre Hkeys Hin Hown Hnum Hplain.
  destruct (find_first (offending renamed)
              ["$less"; "$lessEqual"; "$greater"; "$greaterEqual"] operation Hin)
    as [first Hfind].
  { unfold offending. rewrite Hown, Hnum. reflexivity. }
  assert (Hthrown : forall e,
    checkArithmetic ARITHMETIC_OPERATIONS renamed = inl e ->
    normalizeQuery' (VObj (pre ++ (field, desc) :: post)) options = inl e).
  { intros e He.
    assert (Hattr : normalizeAttr CANONICAL_OPERATORS desc = inl e).
    { rewrite normalizeAttr_object by exact Hobj. rewrite Hkeys.
      cbn [Result.bind]. rewrite He. reflexivity. }
    destruct (mapValues_throws CANONICAL_OPERATORS pre field desc post _ Hattr)
      as [_ Hfirst].
    unfold normalizeQuery. rewrite Hremap.
    cbn [isString cloneDeep ownEntries]. rewrite (Hfirst Hpre). reflexivity. }
  exists first. split; [exact Hfind|].
  pose proof (find_some _ _ Hfind) as [_ Hoff]. unfold offending in Hoff.
  apply andb_true_iff in Hoff as [Hown' Hnum']. apply negb_true_iff in Hnum'.
  split; [exact Hown'|]. split; [exact Hnum'|].
  apply Hthrown.
  rewrite (checkArithmetic_first ARITHMETIC_OPERATIONS renamed Hplain).
  unfold ARITHMETIC_OPERATIONS. rewrite Hfind. reflexivity.
Qed.

End NormalizerClaims.

(** *** Examples *)

(** With [remapInput] off, a shorthand query is returned as it is, and a bare
    number is no shorthand for an id. *)
Lemma normalizeQuery_shorthands_counterexample :
  normalizeQuery sampleAliases (VObj [("name", VStr "x"); ("age", VUndefined)])
    notRemapping
  = inr (VObj [("name", VStr "x"); ("age", VUndefined)])
  /\ normalizeQuery sampleAliases (VStr "a") notRemapping
     = inr (VObj [("id", VStr "a")])
  /\ normalizeQuery sampleAliases (VNum 5) remapping = inr (VObj [])
  /\ normalizeQuery sampleAliases (VNum 5) remapping
     <> inr (VObj [("id", VObj [("$equal", VNum 5)])]).
Proof. repeat split; try reflexivity. discriminate. Qed.

Lemma normalizeQuery_shorthands_witness :
  normalizeQuery sampleAliases (VStr "a") remapping
  = inr (VObj [("id", VObj [("$equal", VStr "a")])])
  /\ normalizeQuery sampleAliases
       (VObj [("name", VStr "x"); ("age", VUndefined); ("rank", VNull)]) remapping
     = inr (VObj [("name", VObj [("$equal", VStr "x")]);
                  ("age", VObj [("$exists", VBool false)]);
                  ("rank", VObj [("$equal", VNull)])]).
Proof.
  destruct (normalizeQuery_shorthands sampleAliases) as (Hid & Hfields & _ & _).
  split.
  - apply Hid. reflexivity.
  - apply (Hfields [("name", VStr "x"); ("age", VUndefined); ("rank", VNull)]).
    + reflexivity.
    + intros field attr [[= <- <-]|[[= <- <-]|[[= <- <-]|[]]]]; reflexivity.
Defined.

(** With [remapInput] off nothing is checked, and the type error of an
    earlier field is thrown before the conflict of a later one. *)
Lemma normalizeQuery_conflict_counterexample :
  normalizeQuery sampleAliases
    (VObj [("age", VObj [("$gt", VNum 1); ("$greater", VNum 2)])]) notRemapping
  = inr (VObj [("age", VObj [("$gt", VNum 1); ("$greater", VNum 2)])])
  /\ normalizeQuery sampleAliases
       (VObj [("size", VObj [("$less", VStr "big")]);
              ("age", VObj [("$gt", VNum 1); ("$greater", VNum 2)])]) remapping
     = inl (ArithmeticTypeError "$less" (VObj [("$less", VStr "big")])).
Proof. split; reflexivity. Qed.

Lemma normalizeQuery_conflict_witness :
  (exists e,
     normalizeQuery sampleAliases (VObj [("age", conflicting)]) remapping = inl e)
  /\ ((forall (f : string) (a : value), In (f, a) [] ->
         exists r, normalizeAttr sampleAliases a = inr r) ->
      shadowed conflicting "hasOwnProperty" = false ->
      exists alias canonical,
        normalizeQuery sampleAliases (VObj [("age", conflicting)]) remapping
        = inl (ConflictError alias canonical) /\
        find (conflicts sampleAliases conflicting) (keys conflicting)
        = Some alias /\
        In alias (keys conflicting) /\
        sampleAliases alias = Some canonical /\
        hasOwnProperty conflicting canonical = true).
Proof.
  apply (normalizeQuery_conflict sampleAliases remapping [] "age"
           conflicting [] "$gt" "$greater").
  - reflexivity.
  - reflexivity.
  - simpl. auto.
  - reflexivity.
  - reflexivity.
Defined.

(** With [remapInput] off nothing is checked, and a conflict in the same
    descriptor is thrown before the type error. *)
Lemma normalizeQuery_arithmetic_counterexample :
  normalizeQuery sampleAliases
    (VObj [("age", VObj [("$greater", VStr "old")])]) notRemapping
  = inr (VObj [("age", VObj [("$greater", VStr "old")])])
  /\ normalizeQuery sampleAliases
       (VObj [("age", VObj [("$gt", VNum 1); ("$greater", VStr "old")])]) remapping
     = inl (ConflictError "$gt" "$greater").
Proof. split; reflexivity. Qed.

(** Of two operations with an operand of the wrong type, the error names
    the first in the order of the check, not of the descriptor. *)
Lemma normalizeQuery_arithmetic_witness :
  exists first,
    find (offending [("$greater", VStr "old"); ("$less", VStr "young")])
      ["$less"; "$lessEqual"; "$greater"; "$greaterEqual"]
    = Some first
    /\ hasOwn [("$greater", VStr "old"); ("$less", VStr "young")] first = true
    /\ isNumeric (get [("$greater", VStr "old"); ("$less", VStr "young")] first)
       = false
    /\ normalizeQuery sampleAliases
         (VObj [("age", VObj [("$gt", VStr "old"); ("$lt", VStr "young")])])
         remapping
       = inl (ArithmeticTypeError first
                (VObj [("$greater", VStr "old"); ("$less", VStr "young")])).
Proof.
  apply (normalizeQuery_arithmetic sampleAliases remapping [] "age"
           (VObj [("$gt", VStr "old"); ("$lt", VStr "young")]) []
           [("$greater", VStr "old"); ("$less", VStr "young")]
           "$greater"); try reflexivity.
  - intros f a [].
  - simpl. auto.
Defined.

(** ** The options normalizer *)

Lemma defaults_get_defined source opts key :
  isUndefined (get opts key) = false ->
  get (defaults opts source) key = get opts key.
Proof.
  revert opts. induction source as [|[k v] rest IH]; intros opts Hdef; simpl.
  - reflexivity.
  - destruct (isUndefined (get opts k)) eqn:Hk.
    + assert (Hne : k <> key) by (intros ->; congruence).
      rewrite IH; rewrite get_set_ne by exact Hne; auto.
    + apply IH, Hdef.
Qed.

Lemma defaults_defined source opts key v :
  In (key, v) source ->
  (forall k w, In (k, w) source -> isUndefined w = false) ->
  isUndefined (get (defaults opts source) key) = false.
Proof.
  revert opts. induction source as [|[k w] rest IH]; intros opts Hin Hvals; simpl.
  - destruct Hin.
  - assert (Hw : isUndefined w = false) by (apply (Hvals k); simpl; auto).
    destruct (decide (k = key)) as [->|Hne].
    + assert (Hnow : isUndefined
               (get (if isUndefined (get opts key) then set opts key w else opts) key)
               = false).
      { destruct (isUndefined (get opts key)) eqn:Hk; [|exact Hk].
        rewrite get_set_eq. exact Hw. }
      rewrite defaults_get_defined; exact Hnow.
    + destruct Hin as [[= ? ?]|Hin]; [contradiction|].
      apply IH; [exact Hin|]. intros k' w' Hin'. apply (Hvals k'). simpl. auto.
Qed.

Lemma defaults_noop source opts :
  (forall key v, In (key, v) source -> isUndefined (get opts key) = false) ->
  defaults opts source = opts.
Proof.
  induction source as [|[k v] rest IH]; intros H; simpl; [reflexivity|].
  rewrite (H k v) by (simpl; auto). apply IH.
  intros key w Hin. apply (H key w). simpl. auto.
Qed.

(** Applying the defaults twice is applying them once. *)
Lemma defaults_idempotent source opts :
  (forall k w, In (k, w) source -> isUndefined w = false) ->
  defaults (defaults opts source) source = defaults opts source.
Proof.
  intros Hvals. apply defaults_noop. intros key v Hin.
  apply (defaults_defined source opts key v Hin Hvals).
Qed.

Lemma get_absent (o : object) key : hasOwn o key = false -> get o key = VUndefined.
Proof.
  induction o as [|[k v] rest IH]; simpl; [reflexivity|].
  destruct (String.eqb k key); [discriminate | exact IH].
Qed.

Lemma defaults_other source opts key :
  ~ In key (map fst source) ->
  hasOwn (defaults opts source) key = hasOwn opts key /\
  get (defaults opts source) key = get opts key.
Proof.
  revert opts. induction source as [|[k v] rest IH]; intros opts Hnot; simpl.
  - auto.
  - simpl in Hnot.
    assert (Hne : k <> key) by tauto.
    destruct (IH (if isUndefined (get opts k) then set opts k v else opts))
      as [Hown Hget]; [tauto|].
    rewrite Hown, Hget.
    destruct (isUndefined (get opts k)); [|auto].
    rewrite hasOwn_set, get_set_ne by exact Hne.
    apply String.eqb_neq in Hne. rewrite Hne. auto.
Qed.

Lemma defaults_get_first key v rest opts :
  isUndefined (get opts key) = true ->
  isUndefined v = false ->
  get (defaults opts ((key, v) :: rest)) key = v.
Proof.
  intros Hundef Hv. cbn [defaults]. rewrite Hundef.
  rewrite defaults_get_defined; rewrite get_set_eq; auto.
Qed.

Lemma defaults_get_undefined source opts key v :
  NoDup (map fst source) -> In (key, v) source ->
  isUndefined (get opts key) = true -> isUndefined v = false ->
  get (defaults opts source) key = v.
Proof.
  revert opts. induction source as [|[k w] rest IH]; intros opts Hnd Hin Hundef Hv.
  - destruct Hin.
  - cbn [map fst] in Hnd. apply NoDup_cons in Hnd as [Hk Hnd].
    destruct Hin as [[= -> ->]|Hin].
    + apply defaults_get_first; assumption.
    + assert (Hne : k <> key).
      { intros ->. apply Hk, list_elem_of_In, in_map_iff.
        exists (key, v). auto. }
      cbn [defaults]. apply IH; try assumption.
      destruct (isUndefined (get opts k)); [|exact Hundef].
      rewrite get_set_ne by exact Hne. exact Hundef.
Qed.

Section Idempotence.

Variable QUERY_OPTIONS_TRANSFORMS : list (string * (object -> Result.t object)).
Variable CANONICAL_OPERATORS : string -> option string.

(** What idempotence asks of the registered transforms, whose code is not
    among the files embedded here: they accept what they return and leave it
    as it is, and they accept the default values. *)
Hypothesis transforms_settle :
  forall opts opts',
    applyTransforms QUERY_OPTIONS_TRANSFORMS opts = inr opts' ->
    settled QUERY_OPTIONS_TRANSFORMS opts'.
Hypothesis defaults_settled :
  forall opts,
    settled QUERY_OPTIONS_TRANSFORMS opts ->
    settled QUERY_OPTIONS_TRANSFORMS (defaults opts DEFAULT_OPTIONS).

(** X23. Normalizing options applies the defaults once: where the
    transforms left [skip], [remapInput] or [remapOutput] undefined, the
    normalized options hold 0, [true] and [true], and otherwise what the
    transforms left; and normalizing normalized options changes nothing.  A
    query in canonical form none of whose descriptors owns a property named
    [hasOwnProperty] is its own normal form, whatever the options. *)
Theorem normalize_idempotent :
  (forall x y,
     normalizeOptions QUERY_OPTIONS_TRANSFORMS x = inr y ->
     normalizeOptions QUERY_OPTIONS_TRANSFORMS y = inr y
     /\ exists transformed,
          applyTransforms QUERY_OPTIONS_TRANSFORMS x = inr transformed
          /\ get y "skip"
             = (if isUndefined (get transformed "skip") then VNum 0
                else get transformed "skip")
          /\ get y "remapInput"
             = (if isUndefined (get transformed "remapInput") then VBool true
                else get transformed "remapInput")
          /\ get y "remapOutput"
             = (if isUndefined (get transformed "remapOutput") then VBool true
                else get transformed "remapOutput"))
  /\ (forall q options,
       canonicalQuery CANONICAL_OPERATORS q ->
       (forall field desc, In (field, desc) (ownEntries q) ->
          shadowed desc "hasOwnProperty" = false) ->
       normalizeQuery CANONICAL_OPERATORS q options = inr q).
Proof using transforms_settle defaults_settled.
  split.
  - intros x y. unfold normalizeOptions at 1.
    cbn [cloneDeep ownEntries].
    destruct (applyTransforms QUERY_OPTIONS_TRANSFORMS x) as [e|opts] eqn:Hx;
      [discriminate|].
    cbn [Result.bind]. unfold Result.ret. intros Hy.
    assert (y = defaults opts DEFAULT_OPTIONS) as -> by congruence. clear Hy.
    split.
    + unfold normalizeOptions. cbn [cloneDeep ownEntries].
      rewrite (defaults_settled opts (transforms_settle x opts Hx)).
      cbn [Result.bind Result.ret].
      rewrite defaults_idempotent; [reflexivity|].
      intros k w Hin. simpl in Hin.
      destruct Hin as [[= <- <-]|[[= <- <-]|[[= <- <-]|[]]]]; reflexivity.
    + exists opts. split; [reflexivity|].
      assert (Hkeys : NoDup (map fst DEFAULT_OPTIONS))
        by (apply (bool_decide_unpack _); vm_compute; exact I).
      assert (Hone : forall key v,
        In (key, v) DEFAULT_OPTIONS -> isUndefined v = false ->
        get (defaults opts DEFAULT_OPTIONS) key
        = if isUndefined (get opts key) then v else get opts key).
      { intros key v Hin Hv. destruct (isUndefined (get opts key)) eqn:Hundef.
        - apply defaults_get_undefined; assumption.
        - apply defaults_get_defined, Hundef. }
      split; [|split]; apply Hone; cbn; auto.
  - intros q options (fields & -> & Hfields) Hplain. unfold normalizeQuery.
    cbn [isString cloneDeep ownEntries].
    rewrite (mapValues_canonical CANONICAL_OPERATORS fields)
      by (intros field desc Hin; split;
          [apply (Hfields field desc Hin) | apply (Hplain field desc Hin)]).
    destruct (get options "remapInput") as [| |[]| | | | |]; reflexivity.
Qed.

End Idempotence.

(** *** Examples *)

Lemma checkNatural_inv optionName opts opts' :
  checkNatural optionName opts = inr opts' ->
  opts' = opts /\ exists n, get opts optionName = VNum n /\ 0 <= n.
Proof.
  unfold checkNatural. destruct (get opts optionName); try discriminate.
  destruct (0 <=? n) eqn:Hn; [|discriminate].
  intros [= <-]. split; [reflexivity|]. exists n. split; [reflexivity | lia].
Qed.

Lemma sampleTransforms_inv opts opts' :
  applyTransforms sampleTransforms opts = inr opts' ->
  opts' = opts
  /\ hasOwn opts "hasOwnProperty" = false
  /\ (hasOwn opts "limit" = true -> exists n, get opts "limit" = VNum n /\ 0 <= n)
  /\ (hasOwn opts "skip" = true -> exists n, get opts "skip" = VNum n /\ 0 <= n).
Proof.
  unfold sampleTransforms. cbn [applyTransforms]. unfold hasOwnPropertyOf.
  cbn [shadowed hasOwnProperty ownEntries].
  destruct (hasOwn opts "hasOwnProperty"); [discriminate|].
  cbn [Result.bind Result.ret].
  destruct (hasOwn opts "limit") eqn:Hlimit.
  - destruct (checkNatural "limit" opts) as [e|o1] eqn:H1; [discriminate|].
    apply checkNatural_inv in H1 as [-> Hn1]. cbn [Result.bind].
    destruct (hasOwn opts "hasOwnProperty"); [discriminate|].
    cbn [Result.bind Result.ret].
    destruct (hasOwn opts "skip") eqn:Hskip.
    + destruct (checkNatural "skip" opts) as [e|o2] eqn:H2; [discriminate|].
      apply checkNatural_inv in H2 as [-> Hn2]. cbn [Result.bind].
      intros [= <-]. auto.
    + intros [= <-]. split; [reflexivity|]. split; [reflexivity|].
      split; [auto | discriminate].
  - destruct (hasOwn opts "skip") eqn:Hskip.
    + destruct (checkNatural "skip" opts) as [e|o2] eqn:H2; [discriminate|].
      apply checkNatural_inv in H2 as [-> Hn2]. cbn [Result.bind].
      intros [= <-]. split; [reflexivity|]. split; [reflexivity|].
      split; [discriminate | auto].
    + intros [= <-]. split; [reflexivity|]. split; [reflexivity|].
      split; discriminate.
Qed.

Lemma sampleTransforms_accepts opts :
  hasOwn opts "hasOwnProperty" = false ->
  (hasOwn opts "limit" = true -> exists n, get opts "limit" = VNum n /\ 0 <= n) ->
  (hasOwn opts "skip" = true -> exists n, get opts "skip" = VNum n /\ 0 <= n) ->
  applyTransforms sampleTransforms opts = inr opts.
Proof.
  intros Hplain Hlimit Hskip.
  assert (Hcheck : forall name,
    (hasOwn opts name = true -> exists n, get opts name = VNum n /\ 0 <= n) ->
    (if hasOwn opts name then checkNatural name opts else inr opts) = inr opts).
  { intros name Hname. destruct (hasOwn opts name); [|reflexivity].
    destruct (Hname eq_refl) as (n & Hn & Hpos).
    unfold checkNatural. rewrite Hn.
    destruct (0 <=? n) eqn:E; [reflexivity | lia]. }
  unfold sampleTransforms. cbn [applyTransforms]. unfold hasOwnPropertyOf.
  cbn [shadowed hasOwnProperty ownEntries]. rewrite Hplain.
  cbn [Result.bind Result.ret].
  pose proof (Hcheck "limit" Hlimit) as H1.
  destruct (hasOwn opts "limit").
  - rewrite H1. cbn [Result.bind]. rewrite Hplain. cbn [Result.bind].
    pose proof (Hcheck "skip" Hskip) as H2.
    destruct (hasOwn opts "skip"); [rewrite H2|]; reflexivity.
  - pose proof (Hcheck "skip" Hskip) as H2.
    destruct (hasOwn opts "skip"); [rewrite H2|]; reflexivity.
Qed.

Lemma sampleTransforms_settle opts opts' :
  applyTransforms sampleTransforms opts = inr opts' ->
  settled sampleTransforms opts'.
Proof.
  intros Hrun. destruct (sampleTransforms_inv _ _ Hrun) as [-> _]. exact Hrun.
Qed.

Lemma sampleTransforms_defaults opts :
  settled sampleTransforms opts ->
  settled sampleTransforms (defaults opts DEFAULT_OPTIONS).
Proof.
  intros Hrun.
  destruct (sampleTransforms_inv _ _ Hrun) as (_ & Hplain & Hlimit & Hskip).
  apply sampleTransforms_accepts.
  - destruct (defaults_other DEFAULT_OPTIONS opts "hasOwnProperty") as [-> _];
      [|exact Hplain].
    simpl. intros [|[|[|[]]]]; discriminate.
  - destruct (defaults_other DEFAULT_OPTIONS opts "limit") as [-> ->]; [|exact Hlimit].
    simpl. intros [|[|[|[]]]]; discriminate.
  - intros _. destruct (isUndefined (get opts "skip")) eqn:Hundef.
    + exists 0. split; [|lia]. unfold DEFAULT_OPTIONS.
      apply defaults_get_first; [exact Hundef | reflexivity].
    + destruct (hasOwn opts "skip") eqn:Hown0.
      * destruct (Hskip eq_refl) as (n & Hn & Hpos).
        exists n. split; [|exact Hpos].
        rewrite defaults_get_defined by exact Hundef. exact Hn.
      * rewrite get_absent in Hundef by exact Hown0. discriminate.
Qed.

Lemma normalize_idempotent_witness :
  (forall y,
     normalizeOptions sampleTransforms [("limit", VNum 2)] = inr y ->
     normalizeOptions sampleTransforms y = inr y
     /\ exists transformed,
          applyTransforms sampleTransforms [("limit", VNum 2)] = inr transformed
          /\ get y "skip"
             = (if isUndefined (get transformed "skip") then VNum 0
                else get transformed "skip")
          /\ get y "remapInput"
             = (if isUndefined (get transformed "remapInput") then VBool true
                else get transformed "remapInput")
          /\ get y "remapOutput"
             = (if isUndefined (get transformed "remapOutput") then VBool true
                else get transformed "remapOutput"))
  /\ normalizeQuery sampleAliases
       (VObj [("age", VObj [("$greater", VNum 3); ("$exists", VBool true)])])
       remapping
     = inr (VObj [("age", VObj [("$greater", VNum 3); ("$exists", VBool true)])]).
Proof.
  destruct (normalize_idempotent sampleTransforms sampleAliases
              sampleTransforms_settle sampleTransforms_defaults) as [Hopts Hquery].
  split.
  - intros y. apply Hopts.
  - apply Hquery.
    + eexists. split; [reflexivity|].
      intros field desc [[= <- <-]|[]]. eexists. split; [reflexivity|].
      split; [|split].
      * apply (bool_decide_unpack _). vm_compute. exact I.
      * intros operator [<-|[<-|[]]]; reflexivity.
      * intros operation [<-|[<-|[<-|[<-|[]]]]]; simpl; intros;
          first [reflexivity | discriminate].
    + intros field desc [[= <- <-]|[]]. reflexivity.
Defined.

(** *** A descriptor with a key named [hasOwnProperty] *)



(** ** The default methods of the adapter base class *)

(** C7. The default [insertOne] resolves with the first element of what
    [insertMany(table, [e])] resolves with, [undefined] when that is the empty
    list, in the world [insertMany] left; and it is rejected when and as
    [insertMany] is. *)
Theorem insertOne_first
  (this_insertMany : string -> list object -> Async.t (list AdapterEntity))
  (table : string) (e : object) (w : world) :
  insertOne this_insertMany table e w
  = match this_insertMany table [e] w with
    | Resolved inserted w' => Resolved (inserted !! 0%nat) w'
    | Rejected err w' => Rejected err w'
    | Unfinished => Unfinished
    end.
Proof.
  unfold insertOne, Async.bind, Async.ret.
  destruct (this_insertMany table [e] w) as [inserted w'| |]; try reflexivity.
  destruct inserted; reflexivity.
Qed.

Section DefaultMethods.

Variable QUERY_OPTIONS_TRANSFORMS : list (string * (object -> Result.t object)).

Lemma setHeap_heap h w : heap (setHeap h w) = h.
Proof. reflexivity. Qed.

Lemma fresh_loc_ne (w : world) r o :
  heap w !! r = Some o -> fresh (dom (heap w)) <> r.
Proof.
  intros H Heq. apply (is_fresh (dom (heap w))). rewrite Heq.
  apply elem_of_dom. eauto.
Qed.

(** C10. The default [findOne] and [deleteOne] assign [limit = 1] on the
    object they are given: [findMany] and [deleteMany] start in a world where
    the caller's object has that limit and is otherwise as it was, and when
    these leave the objects of the heap alone the caller finds its object so
    after the call.  [updateOne] assigns the limit on the new object
    [normalizeOptions] returns: [updateMany] starts with the caller's object
    as it was, and the caller finds it unchanged. *)
Theorem one_assigns_limit
  (this_findMany : string -> value -> option loc -> Async.t (list AdapterEntity))
  (this_updateMany :
     string -> value -> object -> option loc -> Async.t (list AdapterEntity))
  (this_deleteMany : string -> value -> option loc -> Async.t (list call))
  (table : string) (queryFind : value) (update : object)
  (options : loc) (opts : object) (w : world) :
  heap w !! options = Some opts ->
  let assigned :=
    setHeap (<[options := set opts "limit" (VNum 1)]> (heap w)) w in
  (findOne QUERY_OPTIONS_TRANSFORMS this_findMany table queryFind (Some options) w
   = (await! found := this_findMany table queryFind (Some options) in
      Async.ret (head found)) assigned)
  /\ (deleteOne QUERY_OPTIONS_TRANSFORMS this_deleteMany table queryFind
        (Some options) w
      = (await! _ := this_deleteMany table queryFind (Some options) in
         Async.ret tt) assigned)
  /\ (updateOne QUERY_OPTIONS_TRANSFORMS this_updateMany table queryFind update
        (Some options) w
      = match normalizeOptions QUERY_OPTIONS_TRANSFORMS opts with
        | inl e => Rejected e w
        | inr normalized =>
            let copy := fresh (dom (heap w)) in
            (await! updated :=
               this_updateMany table queryFind update (Some copy) in
             Async.ret (head updated))
              (setHeap (<[copy := set normalized "limit" (VNum 1)]> (heap w)) w)
        end)
  /\ (keepsObjects (fun x : string * value * option loc =>
                      this_findMany x.1.1 x.1.2 x.2) ->
      forall w',
        finalWorld (findOne QUERY_OPTIONS_TRANSFORMS this_findMany table
                      queryFind (Some options) w) = Some w' ->
        exists opts', heap w' !! options = Some opts'
                      /\ opts' = set opts "limit" (VNum 1)
                      /\ get opts' "limit" = VNum 1)
  /\ (keepsObjects (fun x : string * value * option loc =>
                      this_deleteMany x.1.1 x.1.2 x.2) ->
      forall w',
        finalWorld (deleteOne QUERY_OPTIONS_TRANSFORMS this_deleteMany table
                      queryFind (Some options) w) = Some w' ->
        exists opts', heap w' !! options = Some opts'
                      /\ opts' = set opts "limit" (VNum 1)
                      /\ get opts' "limit" = VNum 1)
  /\ (keepsObjects (fun x : string * value * object * option loc =>
                      this_updateMany x.1.1.1 x.1.1.2 x.1.2 x.2) ->
      forall w',
        finalWorld (updateOne QUERY_OPTIONS_TRANSFORMS this_updateMany table
                      queryFind update (Some options) w) = Some w' ->
        heap w' !! options = Some opts).
Proof.
  intros Hopts assigned.
  assert (Hfind :
    findOne QUERY_OPTIONS_TRANSFORMS this_findMany table queryFind (Some options) w
    = (await! found := this_findMany table queryFind (Some options) in
       Async.ret (head found)) assigned).
  { unfold findOne, optionsOrDefault, Async.bind, Async.ret, Async.assign,
      Async.store. rewrite Hopts. reflexivity. }
  assert (Hdelete :
    deleteOne QUERY_OPTIONS_TRANSFORMS this_deleteMany table queryFind
      (Some options) w
    = (await! _ := this_deleteMany table queryFind (Some options) in
       Async.ret tt) assigned).
  { unfold deleteOne, optionsOrDefault, Async.bind, Async.ret, Async.assign,
      Async.store. rewrite Hopts. reflexivity. }
  assert (Hupdate :
    updateOne QUERY_OPTIONS_TRANSFORMS this_updateMany table queryFind update
      (Some options) w
    = match normalizeOptions QUERY_OPTIONS_TRANSFORMS opts with
      | inl e => Rejected e w
      | inr normalized =>
          let copy := fresh (dom (heap w)) in
          (await! updated :=
             this_updateMany table queryFind update (Some copy) in
           Async.ret (head updated))
            (setHeap (<[copy := set normalized "limit" (VNum 1)]> (heap w)) w)
      end).
  { unfold updateOne, optionsOrDefault, normalizeOptionsOf, Async.bind,
      Async.ret, Async.assign, Async.store, Async.load, Async.lift, Async.alloc.
    rewrite Hopts. cbn [from_option id].
    destruct (normalizeOptions QUERY_OPTIONS_TRANSFORMS opts) as [e|normalized];
      [reflexivity|].
    cbn [heap setHeap source]. rewrite lookup_insert_eq. cbn [from_option id].
    rewrite insert_insert_eq. reflexivity. }
  assert (Hassigned : heap assigned !! options = Some (set opts "limit" (VNum 1))).
  { unfold assigned. cbn [heap setHeap]. apply lookup_insert_eq. }
  repeat split; try assumption.
  - intros Hkeeps w'. rewrite Hfind. unfold Async.bind, Async.ret.
    intros Hfinal. exists (set opts "limit" (VNum 1)).
    split; [|split; [reflexivity | apply get_set_eq]].
    apply (Hkeeps (table, queryFind, Some options) assigned w'); [|exact Hassigned].
    cbn [fst snd].
    destruct (this_findMany table queryFind (Some options) assigned);
      simpl in *; congruence.
  - intros Hkeeps w'. rewrite Hdelete. unfold Async.bind, Async.ret.
    intros Hfinal. exists (set opts "limit" (VNum 1)).
    split; [|split; [reflexivity | apply get_set_eq]].
    apply (Hkeeps (table, queryFind, Some options) assigned w'); [|exact Hassigned].
    cbn [fst snd].
    destruct (this_deleteMany table queryFind (Some options) assigned);
      simpl in *; congruence.
  - intros Hkeeps w'. rewrite Hupdate.
    destruct (normalizeOptions QUERY_OPTIONS_TRANSFORMS opts) as [e|normalized].
    + simpl. intros [= <-]. exact Hopts.
    + cbn zeta. unfold Async.bind, Async.ret. intros Hfinal.
      set (copy := fresh (dom (heap w))) in *.
      set (w1 := setHeap (<[copy := set normalized "limit" (VNum 1)]> (heap w)) w) in *.
      apply (Hkeeps (table, queryFind, update, Some copy) w1 w').
      * cbn [fst snd].
        destruct (this_updateMany table queryFind update (Some copy) w1);
          simpl in *; congruence.
      * unfold w1. cbn [heap setHeap]. rewrite lookup_insert_ne; [exact Hopts|].
        apply (fresh_loc_ne w options opts Hopts).
Qed.

End DefaultMethods.

(** *** Examples *)

Lemma one_assigns_limit_witness :
  exists w',
    finalWorld
      (findOne sampleTransforms (fun _ _ _ => Async.ret []) "users" named
         (Some 0%nat) (sampleWorld limitTwo)) = Some w'
    /\ heap w' !! 0%nat = Some (set limitTwo "limit" (VNum 1))
    /\ forall w'',
         finalWorld
           (updateOne sampleTransforms (fun _ _ _ _ => Async.ret []) "users"
              named [] (Some 0%nat) (sampleWorld limitTwo)) = Some w'' ->
         heap w'' !! 0%nat = Some limitTwo.
Proof.
  destruct (one_assigns_limit sampleTransforms
              (fun _ _ _ => Async.ret []) (fun _ _ _ _ => Async.ret [])
              (fun _ _ _ => Async.ret []) "users" named [] 0%nat limitTwo
              (sampleWorld limitTwo))
    as (Hfind & _ & _ & _ & _ & Hupdate).
  - apply lookup_singleton_eq.
  - rewrite Hfind. eexists. split; [reflexivity|]. split.
    + cbn [heap setHeap]. apply lookup_insert_eq.
    + apply Hupdate. intros x w w' r o. cbn [Async.ret finalWorld].
      intros [= <-]. auto.
Defined.

(** ** The default [deleteMany] over the web storage adapter *)

Lemma getItemName_inj table id id' :
  WebStorageAdapter.getItemName table (VStr id)
  = WebStorageAdapter.getItemName table (VStr id') -> id = id'.
Proof.
  unfold WebStorageAdapter.getItemName. cbn [toString]. intros H.
  apply (inj (String.app table)) in H. apply (inj (String.app ".id=")) in H.
  exact H.
Qed.

Lemma setHeap_id (w : world) r o :
  heap w !! r = Some o -> setHeap (<[r := o]> (heap w)) w = w.
Proof.
  intros H. destruct w as [h s]. unfold setHeap. cbn [heap source] in *.
  rewrite insert_id by exact H. reflexivity.
Qed.

Lemma setSource_id (w : world) : setSource (source w) w = w.
Proof. destruct w. reflexivity. Qed.

Lemma filter_ne_absent (l : list string) (x : string) :
  x ∉ l -> filter (fun y => y ≠ x) l = l.
Proof.
  induction l as [|z l IH]; intros Hx; [reflexivity|].
  apply not_elem_of_cons in Hx as [Hne Hx].
  rewrite filter_cons_True by congruence. f_equal. apply IH, Hx.
Qed.

Lemma filter_ne_lookup (l : list string) (n : nat) (x : string) :
  NoDup l -> l !! n = Some x ->
  filter (fun y => y ≠ x) l = take n l ++ drop (S n) l.
Proof.
  revert n. induction l as [|y l IH]; intros n Hnd Hn; [discriminate|].
  apply NoDup_cons in Hnd as [Hy Hnd].
  destruct n as [|n]; simpl in Hn.
  - injection Hn as ->. rewrite filter_cons_False by tauto.
    cbn [take drop app]. rewrite drop_0. apply filter_ne_absent, Hy.
  - assert (Hne : y ≠ x).
    { intros ->. apply Hy. eapply list_elem_of_lookup_2, Hn. }
    rewrite filter_cons_True by exact Hne.
    cbn [take drop app]. f_equal. apply IH; assumption.
Qed.

Section DeleteMany.

Variable OPERATORS : string -> option (property -> value -> bool).
Variable QUERY_OPTIONS_TRANSFORMS : list (string * (object -> Result.t object)).

Abbreviation wsFindOne :=
  (WebStorageAdapter.findOne OPERATORS QUERY_OPTIONS_TRANSFORMS).
Abbreviation wsDeleteOne :=
  (WebStorageAdapter.deleteOne OPERATORS QUERY_OPTIONS_TRANSFORMS).

Variable table : string.
Variable queryFind : value.
Variable options : loc.
Variable opts : object.
Variable limit skip : nat.

Hypothesis query_is_object : isObject queryFind = true.
Hypothesis query_is_scanned : WebStorageAdapter.isIdQuery queryFind = false.
Hypothesis opts_limit : get opts "limit" = VNum (Z.of_nat limit).
Hypothesis opts_skip : get opts "skip" = VNum (Z.of_nat skip).

(** The scan returns the item of the match at position [skip], counting the
    matches already seen. *)
Lemma scanItems_lookup (s : Storage) (ids : list string) (seen : nat) :
  (forall id item,
     In id ids -> itemOf s table id = Some item ->
     exists matches, matchEntity OPERATORS queryFind item = inr matches) ->
  (seen <= skip)%nat ->
  WebStorageAdapter.scanItems OPERATORS s table queryFind
    (VNum (Z.of_nat skip)) ids (Z.of_nat seen)
  = inr (filter (fun id => isMatch OPERATORS s table queryFind id = true) ids
           !! (skip - seen)%nat ≫= itemOf s table).
Proof using Type.
  revert seen. induction ids as [|id rest IH]; intros seen Hevaluates Hseen.
  - reflexivity.
  - assert (Hrest : forall id' item,
      In id' rest -> itemOf s table id' = Some item ->
      exists matches, matchEntity OPERATORS queryFind item = inr matches).
    { intros id' item Hin. apply Hevaluates. right. exact Hin. }
    cbn [WebStorageAdapter.scanItems].
    destruct (items s !! WebStorageAdapter.getItemName table (VStr id))
      as [item|] eqn:Hitem.
    + destruct (Hevaluates id item (or_introl eq_refl) Hitem) as [matches Hmatch].
      rewrite Hmatch. cbn [Result.bind]. destruct matches.
      * rewrite filter_cons_True
          by (unfold isMatch, itemOf; rewrite Hitem, Hmatch; reflexivity).
        cbn [greaterThan].
        destruct (Z.of_nat skip <? Z.of_nat seen + 1) eqn:Hgt.
        -- apply Z.ltb_lt in Hgt.
           replace (skip - seen)%nat with 0%nat by lia.
           cbn. unfold itemOf. rewrite Hitem. reflexivity.
        -- apply Z.ltb_ge in Hgt.
           replace (Z.of_nat seen + 1) with (Z.of_nat (S seen)) by lia.
           rewrite IH by (exact Hrest || lia).
           replace (skip - seen)%nat with (S (skip - S seen)) by lia.
           reflexivity.
      * rewrite filter_cons_False
          by (unfold isMatch, itemOf; rewrite Hitem, Hmatch; discriminate).
        apply IH; assumption.
    + rewrite filter_cons_False
        by (unfold isMatch, itemOf; rewrite Hitem; discriminate).
      apply IH; assumption.
Qed.

(** On a table that exists, with [skip] set, [findOne] changes nothing and
    resolves with the item of the match at position [skip]. *)
Lemma findOne_scans (w : world) :
  heap w !! options = Some opts ->
  is_Some (indexes (source w) !! table) ->
  evaluates OPERATORS (source w) table queryFind ->
  wsFindOne table queryFind (Some options) w
  = Resolved (matching OPERATORS (source w) table queryFind !! skip
                ≫= itemOf (source w) table) w.
Proof using query_is_object query_is_scanned opts_skip.
  intros Hopts [idx Hidx] Hevaluates.
  unfold WebStorageAdapter.findOne, optionsOrDefault, Async.bind, Async.ret,
    Async.load, Async.store, Async.lift.
  rewrite Hopts. cbn [from_option id defaults].
  rewrite opts_skip. cbn [isUndefined].
  rewrite (setHeap_id w options opts Hopts).
  rewrite query_is_object, query_is_scanned. cbn [negb].
  unfold WebStorageAdapter.ensureCollectionExists, Async.bind, Async.ret,
    Async.getStorage.
  rewrite Hidx, Hopts. cbn [from_option id]. rewrite opts_skip.
  assert (Hscan :
    WebStorageAdapter.scanItems OPERATORS (source w) table queryFind
      (VNum (Z.of_nat skip)) idx (Z.of_nat 0)
    = inr (filter (fun id => isMatch OPERATORS (source w) table queryFind id = true)
             idx !! (skip - 0)%nat ≫= itemOf (source w) table)).
  { apply scanItems_lookup; [|lia]. intros id item Hin.
    apply Hevaluates. unfold indexOf. rewrite Hidx.
    apply list_elem_of_In, Hin. }
  change (Z.of_nat 0) with 0 in Hscan. rewrite Hscan.
  unfold matching, indexOf. rewrite Hidx. cbn [from_option id].
  rewrite Nat.sub_0_r. reflexivity.
Qed.

Lemma matching_item (s : Storage) id :
  id ∈ matching OPERATORS s table queryFind ->
  id ∈ indexOf s table /\
  exists item, itemOf s table id = Some item
               /\ matchEntity OPERATORS queryFind item = inr true.
Proof using Type.
  unfold matching. rewrite list_elem_of_filter. intros [Hmatch Hin].
  split; [exact Hin|]. unfold isMatch in Hmatch.
  destruct (itemOf s table id) as [item|]; [|discriminate].
  exists item. split; [reflexivity|].
  destruct (matchEntity OPERATORS queryFind item) as [e|[]];
    [discriminate | reflexivity | discriminate].
Qed.

Lemma itemOf_removeOne (s : Storage) id x :
  x ≠ id -> itemOf (removeOne table s id) table x = itemOf s table x.
Proof using Type.
  intros Hne. unfold itemOf, removeOne. cbn [items].
  apply lookup_delete_ne. intros Heq. apply Hne. symmetry.
  apply (getItemName_inj table id x Heq).
Qed.

Lemma indexOf_removeOne (s : Storage) id :
  indexOf (removeOne table s id) table
  = filter (fun x => x ≠ id) (indexOf s table).
Proof using Type.
  unfold indexOf at 1, removeOne. cbn [indexes].
  rewrite lookup_insert_eq. reflexivity.
Qed.

(** Removing an item removes its id from the matches and nothing else. *)
Lemma matching_removeOne (s : Storage) id :
  matching OPERATORS (removeOne table s id) table queryFind
  = filter (fun x => x ≠ id) (matching OPERATORS s table queryFind).
Proof using Type.
  unfold matching. rewrite indexOf_removeOne, !list_filter_filter.
  apply list_filter_iff. intros x. split.
  - intros [Hmatch Hne]. split; [exact Hne|].
    unfold isMatch in *. rewrite itemOf_removeOne in Hmatch by exact Hne.
    exact Hmatch.
  - intros [Hne Hmatch]. split; [|exact Hne].
    unfold isMatch in *. rewrite itemOf_removeOne by exact Hne. exact Hmatch.
Qed.

Lemma evaluates_removeOne (s : Storage) id :
  evaluates OPERATORS s table queryFind ->
  evaluates OPERATORS (removeOne table s id) table queryFind.
Proof using Type.
  intros Hevaluates x item. rewrite indexOf_removeOne, list_elem_of_filter.
  intros [Hne Hin] Hitem. rewrite itemOf_removeOne in Hitem by exact Hne.
  apply (Hevaluates x item Hin Hitem).
Qed.

Lemma wellFormed_removeOne (s : Storage) id :
  wellFormed s table -> wellFormed (removeOne table s id) table.
Proof using Type.
  intros (Hidx & Hnd & Hids). split; [|split].
  - unfold removeOne. cbn [indexes]. rewrite lookup_insert_eq. eauto.
  - rewrite indexOf_removeOne. apply NoDup_filter, Hnd.
  - intros x item. rewrite indexOf_removeOne, list_elem_of_filter.
    intros [Hne Hin] Hitem. rewrite itemOf_removeOne in Hitem by exact Hne.
    apply (Hids x item Hin Hitem).
Qed.

(** [deleteOne] removes the item [findOne] returns: the match at position
    [skip]. *)
Lemma deleteOne_removes (w : world) id :
  heap w !! options = Some opts ->
  wellFormed (source w) table ->
  evaluates OPERATORS (source w) table queryFind ->
  matching OPERATORS (source w) table queryFind !! skip = Some id ->
  wsDeleteOne table queryFind (Some options) w
  = Resolved tt (setSource (removeOne table (source w) id) w).
Proof using query_is_object query_is_scanned opts_skip.
  intros Hopts (Hidx & Hnd & Hids) Hevaluates Hid.
  destruct (matching_item (source w) id) as (Hin & item & Hitem & _).
  { eapply list_elem_of_lookup_2, Hid. }
  unfold WebStorageAdapter.deleteOne, optionsOrDefault. unfold Async.bind at 1 2.
  cbn [Async.ret].
  rewrite (findOne_scans w Hopts Hidx Hevaluates), Hid. cbn [mbind option_bind].
  rewrite Hitem. rewrite (Hids id item Hin Hitem).
  destruct Hidx as [idx Hidx].
  unfold WebStorageAdapter.ensureCollectionExists, Async.bind, Async.ret,
    Async.getStorage, Async.putStorage.
  rewrite Hidx. cbn [pull source setSource indexes items heap].
  unfold removeOne, indexOf. rewrite Hidx. reflexivity.
Qed.

Lemma turns_nil_last deleted last i :
  turns deleted last !! i = Some (FindOneCall None) ->
  S i = length (turns deleted last).
Proof using Type.
  revert i. induction deleted as [|e rest IH]; intros i; cbn [turns].
  - destruct i as [|i]; [reflexivity | discriminate].
  - destruct i as [|[|i]]; cbn; try discriminate.
    intros H. rewrite <- (IH i H). reflexivity.
Qed.

(** The loop, entered with [count] deletions done: it deletes, one
    [findOne] and [deleteOne] pair at a time, the next [k] matches from
    position [skip] on, where [k] is what is left of the limit or of the
    matches past [skip], whichever is less. *)
Lemma loopFind_deletes (k : nat) :
  forall (fuel count : nat) (w : world),
    heap w !! options = Some opts ->
    wellFormed (source w) table ->
    evaluates OPERATORS (source w) table queryFind ->
    (count <= limit)%nat ->
    k = Nat.min (limit - count)
                (length (matching OPERATORS (source w) table queryFind) - skip) ->
    (k < fuel)%nat ->
    exists deleted last,
      loopFind wsFindOne wsDeleteOne fuel table queryFind options
        (Z.of_nat count) w
      = Resolved (turns deleted last)
          (setSource
             (removeAll table
                (take k (drop skip (matching OPERATORS (source w) table queryFind)))
                (source w)) w)
      /\ length deleted = k
      /\ (last = None \/ (count + k)%nat = limit)
      /\ matching OPERATORS
           (removeAll table
              (take k (drop skip (matching OPERATORS (source w) table queryFind)))
              (source w)) table queryFind
         = take skip (matching OPERATORS (source w) table queryFind)
           ++ drop (skip + k) (matching OPERATORS (source w) table queryFind).
Proof using query_is_object query_is_scanned opts_limit opts_skip.
  induction k as [|k IH]; intros fuel count w Hopts Hwf Hevaluates Hcount Hk Hfuel;
    (destruct fuel as [|fuel]; [lia|]);
    set (ms := matching OPERATORS (source w) table queryFind) in *;
    cbn [loopFind]; unfold Async.bind at 1;
    rewrite (findOne_scans w Hopts (proj1 Hwf) Hevaluates); fold ms.
  - (* nothing left to delete *)
    rewrite take_0. unfold removeAll. cbn [fold_left].
    rewrite setSource_id, !Nat.add_0_r, take_drop.
    destruct (ms !! skip) as [itemId|] eqn:Hid; cbn [mbind option_bind].
    + destruct (matching_item (source w) itemId) as (_ & item & Hitem & _).
      { eapply list_elem_of_lookup_2, Hid. }
      rewrite Hitem. unfold Async.bind, Async.load, Async.ret.
      rewrite Hopts. cbn [from_option id]. rewrite opts_limit.
      apply lookup_lt_Some in Hid.
      assert (count = limit) as -> by lia.
      cbn [isCount]. rewrite Z.eqb_refl.
      exists [], (Some item). auto.
    + exists [], None. auto.
  - (* one more turn *)
    assert (Hlen : (skip < length ms)%nat) by lia.
    destruct (lookup_lt_is_Some_2 ms skip Hlen) as [itemId Hid].
    rewrite Hid. cbn [mbind option_bind].
    destruct (matching_item (source w) itemId) as (Hin & item & Hitem & _).
    { eapply list_elem_of_lookup_2, Hid. }
    rewrite Hitem. unfold Async.bind at 1. unfold Async.load at 1.
    rewrite Hopts. cbn [from_option id]. rewrite opts_limit.
    cbn [isCount].
    destruct (Z.of_nat count =? Z.of_nat limit) eqn:Heq;
      [apply Z.eqb_eq in Heq; lia|].
    unfold Async.bind at 1.
    rewrite (deleteOne_removes w itemId Hopts Hwf Hevaluates Hid).
    set (w1 := setSource (removeOne table (source w) itemId) w).
    assert (Hms1 : matching OPERATORS (source w1) table queryFind
                   = take skip ms ++ drop (S skip) ms).
    { unfold w1. cbn [source setSource]. rewrite matching_removeOne.
      apply filter_ne_lookup; [|exact Hid].
      apply NoDup_filter, Hwf. }
    assert (Htake : length (take skip ms) = skip)
      by (rewrite length_take; lia).
    destruct (IH fuel (S count) w1) as (deleted & last & Hrun & Hdel & Hlast & Hleft).
    + exact Hopts.
    + apply wellFormed_removeOne, Hwf.
    + apply evaluates_removeOne, Hevaluates.
    + lia.
    + rewrite Hms1, length_app, Htake, length_drop. lia.
    + lia.
    + replace (Z.of_nat count + 1) with (Z.of_nat (S count)) by lia.
      unfold Async.bind. rewrite Hrun. unfold Async.ret.
      rewrite Hms1 in Hrun, Hleft |- *.
      rewrite (drop_app_length' (take skip ms) (drop (S skip) ms) skip)
        in Hleft |- * by (symmetry; exact Htake).
      rewrite (drop_S ms itemId skip Hid). cbn [firstn].
      unfold removeAll in *. cbn [fold_left].
      exists (item :: deleted), last. split; [|split; [|split]].
      * reflexivity.
      * cbn [length]. lia.
      * destruct Hlast as [Hlast|Hlast]; [left; exact Hlast | right; lia].
      * unfold w1 in Hleft. cbn [source setSource] in Hleft.
        rewrite Hleft.
        rewrite (take_app_length' (take skip ms) (drop (S skip) ms) skip)
          by (symmetry; exact Htake).
        rewrite (drop_app_add' (take skip ms) (drop (S skip) ms) skip k)
          by (symmetry; exact Htake).
        rewrite drop_drop. do 2 f_equal. lia.
Qed.

(** The default [deleteMany] for a query the matcher evaluates. *)
Lemma deleteMany_scanned (fuel : nat) (w : world) :
  heap w !! options = Some opts ->
  wellFormed (source w) table ->
  evaluates OPERATORS (source w) table queryFind ->
  (Nat.min limit (length (matching OPERATORS (source w) table queryFind) - skip)
   < fuel)%nat ->
  let ms := matching OPERATORS (source w) table queryFind in
  let k := Nat.min limit (length ms - skip) in
  let left := removeAll table (take k (drop skip ms)) (source w) in
  exists deleted last,
    WebStorageAdapter.defaultDeleteMany OPERATORS QUERY_OPTIONS_TRANSFORMS
      fuel table queryFind (Some options) w
    = Resolved (turns deleted last) (setSource left w)
    /\ length deleted = k
    /\ (last = None \/ k = limit)
    /\ (forall i, turns deleted last !! i = Some (FindOneCall None) ->
                  S i = length (turns deleted last))
    /\ matching OPERATORS left table queryFind
       = take skip ms ++ drop (skip + k) ms
    /\ length (matching OPERATORS left table queryFind) = (length ms - k)%nat.
Proof using query_is_object query_is_scanned opts_limit opts_skip.
  intros Hopts Hwf Hevaluates Hfuel ms k left.
  destruct (loopFind_deletes k fuel 0 w Hopts Hwf Hevaluates) as
    (deleted & last & Hrun & Hdel & Hlast & Hleft).
  - lia.
  - unfold k, ms. rewrite Nat.sub_0_r. reflexivity.
  - exact Hfuel.
  - exists deleted, last.
    unfold WebStorageAdapter.defaultDeleteMany, deleteMany, optionsOrDefault.
    unfold Async.bind at 1. cbn [Async.ret].
    change (Z.of_nat 0) with 0 in Hrun. fold ms in Hrun, Hleft. fold left in Hleft.
    split; [exact Hrun|]. split; [exact Hdel|]. split; [|split; [|split]].
    + destruct Hlast as [Hlast|Hlast]; [left; exact Hlast | right; lia].
    + apply turns_nil_last.
    + exact Hleft.
    + rewrite Hleft, length_app, length_take, length_drop. unfold k. lia.
Qed.

End DeleteMany.

Section DeleteById.

Variable OPERATORS : string -> option (property -> value -> bool).
Variable QUERY_OPTIONS_TRANSFORMS : list (string * (object -> Result.t object)).

Variable table : string.
Variable queryFind : value.
Variable options : loc.
Variable opts : object.
Variable limit : nat.

Hypothesis query_names_id : namesOneId queryFind = true.
Hypothesis opts_limit : get opts "limit" = VNum (Z.of_nat limit).
Hypothesis opts_skip : isUndefined (get opts "skip") = false.

(** For a query that names one id, [findOne] changes nothing and resolves
    with the item stored under that id, whatever the skip. *)
Lemma findOne_by_id (w : world) :
  heap w !! options = Some opts ->
  WebStorageAdapter.findOne OPERATORS QUERY_OPTIONS_TRANSFORMS table queryFind
    (Some options) w
  = Resolved (items (source w)
                !! WebStorageAdapter.getItemName table (idOfQuery queryFind)) w.
Proof using query_names_id opts_skip.
  intros Hopts.
  unfold WebStorageAdapter.findOne, optionsOrDefault, Async.bind, Async.ret,
    Async.load, Async.store.
  rewrite Hopts. cbn [from_option id defaults]. rewrite opts_skip.
  rewrite (setHeap_id w options opts Hopts).
  unfold namesOneId in query_names_id. unfold idOfQuery.
  destruct (isObject queryFind); cbn [negb orb] in *.
  - rewrite query_names_id. reflexivity.
  - reflexivity.
Qed.

Lemma deleteOne_by_id (w : world) item :
  heap w !! options = Some opts ->
  is_Some (indexes (source w) !! table) ->
  items (source w) !! WebStorageAdapter.getItemName table (idOfQuery queryFind)
  = Some item ->
  get item "id" = VStr (toString (idOfQuery queryFind)) ->
  WebStorageAdapter.deleteOne OPERATORS QUERY_OPTIONS_TRANSFORMS table queryFind
    (Some options) w
  = Resolved tt
      (setSource (removeOne table (source w) (toString (idOfQuery queryFind))) w).
Proof using query_names_id opts_skip.
  intros Hopts [idx Hidx] Hitem Hid.
  unfold WebStorageAdapter.deleteOne, optionsOrDefault. unfold Async.bind at 1 2.
  cbn [Async.ret].
  rewrite (findOne_by_id w Hopts), Hitem, Hid.
  unfold WebStorageAdapter.ensureCollectionExists, Async.bind, Async.ret,
    Async.getStorage, Async.putStorage.
  rewrite Hidx. cbn [pull source setSource indexes items heap].
  unfold removeOne, indexOf. rewrite Hidx. reflexivity.
Qed.

(** The default [deleteMany] deletes the item stored under the id, if there
    is one and the limit is not 0, in one turn. *)
Lemma deleteMany_by_id (fuel : nat) (w : world) :
  heap w !! options = Some opts ->
  is_Some (indexes (source w) !! table) ->
  (forall item,
     items (source w) !! WebStorageAdapter.getItemName table (idOfQuery queryFind)
     = Some item ->
     get item "id" = VStr (toString (idOfQuery queryFind))) ->
  (1 < fuel)%nat ->
  exists deleted last,
    WebStorageAdapter.defaultDeleteMany OPERATORS QUERY_OPTIONS_TRANSFORMS
      fuel table queryFind (Some options) w
    = Resolved (turns deleted last)
        (setSource
           (removeAll table
              (take (length deleted) [toString (idOfQuery queryFind)])
              (source w)) w)
    /\ length deleted
       = Nat.min limit
           (length (option_list
              (items (source w)
                 !! WebStorageAdapter.getItemName table (idOfQuery queryFind))))
    /\ (last = None \/ length deleted = limit).
Proof using query_names_id opts_limit opts_skip.
  intros Hopts Hidx Hid Hfuel.
  destruct fuel as [|[|fuel]]; try lia.
  unfold WebStorageAdapter.defaultDeleteMany, deleteMany, optionsOrDefault.
  unfold Async.bind at 1. cbn [Async.ret loopFind].
  unfold Async.bind at 1. rewrite (findOne_by_id w Hopts).
  destruct (items (source w)
              !! WebStorageAdapter.getItemName table (idOfQuery queryFind))
    as [item|] eqn:Hitem.
  - unfold Async.bind at 1. unfold Async.load at 1.
    rewrite Hopts. cbn [from_option id]. rewrite opts_limit. cbn [isCount].
    destruct (0 =? Z.of_nat limit) eqn:Hzero.
    + apply Z.eqb_eq in Hzero. assert (limit = 0%nat) as -> by lia.
      exists [], (Some item). unfold removeAll. cbn. rewrite setSource_id. auto.
    + apply Z.eqb_neq in Hzero.
      unfold Async.bind at 1.
      rewrite (deleteOne_by_id w item Hopts Hidx Hitem (Hid item eq_refl)).
      set (w1 := setSource (removeOne table (source w)
                              (toString (idOfQuery queryFind))) w).
      assert (Hgone : items (source w1)
                        !! WebStorageAdapter.getItemName table (idOfQuery queryFind)
                      = None).
      { unfold w1, removeOne. cbn [source setSource items].
        apply lookup_delete_eq. }
      unfold Async.bind at 1. unfold Async.bind at 1.
      rewrite (findOne_by_id w1 Hopts), Hgone.
      exists [item], None. unfold removeAll, Async.ret. cbn.
      split; [reflexivity|]. split; [lia | auto].
  - exists [], None. unfold removeAll. cbn. rewrite setSource_id.
    split; [reflexivity|]. split; [lia | auto].
Qed.

End DeleteById.

(** C2 (the form the code satisfies). On a well formed table, with options
    whose limit is [limit], the default [deleteMany] over the [findOne] and
    the [deleteOne] of the web storage adapter resolves, given fuel for its
    turns.  For a query the matcher evaluates, on which it throws at no item
    of the table, and a skip of [skip] (0 by default) it deletes exactly
    [k = min limit (N - skip)] items, [N] being the number of matches: the
    [k] matches from position [skip] on (with
    [skip = 0], the first [min limit N]); the [N - k] other matches are still
    found afterwards.  For a query answered by id it deletes the item stored
    under that id, if there is one and the limit is not 0, whatever the skip.
    In both cases its calls are one [findOne] and [deleteOne] pair for each
    item deleted, each [findOne] having found an item, then one last
    [findOne], which found nothing unless the limit was reached; no call
    follows a [findOne] that found nothing. *)
Theorem defaultDeleteMany_deletes
  (OPERATORS : string -> option (property -> value -> bool))
  (QUERY_OPTIONS_TRANSFORMS : list (string * (object -> Result.t object)))
  (table : string) (queryFind : value) (options : loc) (opts : object)
  (limit : nat) (fuel : nat) (w : world) :
  heap w !! options = Some opts ->
  get opts "limit" = VNum (Z.of_nat limit) ->
  wellFormed (source w) table ->
  (forall skip : nat,
     namesOneId queryFind = false ->
     evaluates OPERATORS (source w) table queryFind ->
     get opts "skip" = VNum (Z.of_nat skip) ->
     (Nat.min limit (length (matching OPERATORS (source w) table queryFind) - skip)
      < fuel)%nat ->
     let ms := matching OPERATORS (source w) table queryFind in
     let k := Nat.min limit (length ms - skip) in
     let left := removeAll table (take k (drop skip ms)) (source w) in
     exists deleted last,
       WebStorageAdapter.defaultDeleteMany OPERATORS QUERY_OPTIONS_TRANSFORMS
         fuel table queryFind (Some options) w
       = Resolved (turns deleted last) (setSource left w)
       /\ length deleted = k
       /\ (last = None \/ k = limit)
       /\ (forall i, turns deleted last !! i = Some (FindOneCall None) ->
                     S i = length (turns deleted last))
       /\ matching OPERATORS left table queryFind
          = take skip ms ++ drop (skip + k) ms
       /\ length (matching OPERATORS left table queryFind) = (length ms - k)%nat)
  /\ (namesOneId queryFind = true ->
      isUndefined (get opts "skip") = false ->
      (forall item,
         items (source w)
           !! WebStorageAdapter.getItemName table (idOfQuery queryFind)
         = Some item ->
         get item "id" = VStr (toString (idOfQuery queryFind))) ->
      (1 < fuel)%nat ->
      exists deleted last,
        WebStorageAdapter.defaultDeleteMany OPERATORS QUERY_OPTIONS_TRANSFORMS
          fuel table queryFind (Some options) w
        = Resolved (turns deleted last)
            (setSource
               (removeAll table
                  (take (length deleted) [toString (idOfQuery queryFind)])
                  (source w)) w)
        /\ length deleted
           = Nat.min limit
               (length (option_list
                  (items (source w)
                     !! WebStorageAdapter.getItemName table (idOfQuery queryFind))))
        /\ (last = None \/ length deleted = limit)
        /\ (forall i, turns deleted last !! i = Some (FindOneCall None) ->
                      S i = length (turns deleted last))).
Proof.
  intros Hopts Hlimit Hwf. split.
  - intros skip Hscan Hevaluates Hskip Hfuel. unfold namesOneId in Hscan.
    apply orb_false_iff in Hscan as [Hobj Hid]. apply negb_false_iff in Hobj.
    apply (deleteMany_scanned OPERATORS QUERY_OPTIONS_TRANSFORMS table queryFind
             options opts limit skip Hobj Hid Hlimit Hskip fuel w Hopts Hwf
             Hevaluates Hfuel).
  - intros Hid Hskip Hitem Hfuel.
    destruct (deleteMany_by_id OPERATORS QUERY_OPTIONS_TRANSFORMS table queryFind
                options opts limit Hid Hlimit Hskip fuel w Hopts (proj1 Hwf)
                Hitem Hfuel) as (deleted & last & Hrun & Hlen & Hlast).
    exists deleted, last. split; [exact Hrun|]. split; [exact Hlen|].
    split; [exact Hlast|]. apply turns_nil_last.
Qed.

(** *** Examples *)

Lemma sampleStorage_wellFormed : wellFormed sampleStorage "users".
Proof.
  split; [|split].
  - vm_compute. eauto.
  - apply (bool_decide_unpack _). vm_compute. exact I.
  - intros id item Hin.
    change (indexOf sampleStorage "users") with ["a"; "b"; "c"; "d"; "e"; "f"] in Hin.
    repeat (apply elem_of_cons in Hin as [->|Hin];
            [vm_compute; intros [= <-]; reflexivity|]).
    apply elem_of_nil in Hin. destruct Hin.
Qed.

Lemma named_known : known sampleOperators named.
Proof.
  intros key desc operationName val [[= <- <-]|[]] _ [[= <- <-]|[]].
  left. vm_compute. eauto.
Qed.

Lemma sampleStorage_evaluates : evaluates sampleOperators sampleStorage "users" named.
Proof.
  intros id item _ _. apply matchEntity_returns, named_known.
Qed.

(** With [skip = 4], a limit of 2 and 5 matches, one item is deleted, not
    [min 2 5]: the second [findOne] finds no match past the skip. *)
Lemma defaultDeleteMany_counterexample :
  length (matching sampleOperators sampleStorage "users" named) = 5%nat
  /\ exists w',
       WebStorageAdapter.defaultDeleteMany sampleOperators sampleTransforms
         10 "users" named (Some 0%nat) (sampleWorld limitTwoSkipFour)
       = Resolved [FindOneCall (Some (user "e")); DeleteOneCall; FindOneCall None] w'
       /\ indexOf (source w') "users" = ["a"; "b"; "c"; "d"; "f"]
       /\ length (matching sampleOperators (source w') "users" named) = 4%nat.
Proof.
  split; [vm_compute; reflexivity|].
  eexists. split; [vm_compute; reflexivity|].
  split; vm_compute; reflexivity.
Qed.

(** The scenario of the specification: a limit of 2 over 5 matches deletes
    2 and leaves 3. *)
Lemma defaultDeleteMany_witness :
  exists deleted last,
    WebStorageAdapter.defaultDeleteMany sampleOperators sampleTransforms
      3 "users" named (Some 0%nat) (sampleWorld limitTwo)
    = Resolved (turns deleted last)
        (setSource (removeAll "users" ["a"; "b"] sampleStorage)
           (sampleWorld limitTwo))
    /\ length deleted = 2%nat
    /\ length (matching sampleOperators
                 (removeAll "users" ["a"; "b"] sampleStorage) "users" named)
       = 3%nat.
Proof.
  destruct (defaultDeleteMany_deletes sampleOperators sampleTransforms
              "users" named 0%nat limitTwo 2 3 (sampleWorld limitTwo))
    as [Hscanned _].
  - apply lookup_singleton_eq.
  - reflexivity.
  - exact sampleStorage_wellFormed.
  - destruct (Hscanned 0%nat) as (deleted & last & Hrun & Hlen & _ & _ & _ & Hleft).
    + reflexivity.
    + exact sampleStorage_evaluates.
    + reflexivity.
    + vm_compute. lia.
    + exists deleted, last. split; [exact Hrun|].
      split; [exact Hlen | exact Hleft].
Defined.

(** ** The life cycle *)

Module LifecycleFacts.

Import Lifecycle.

Lemma settle_lookup_eq p outcome ps :
  ps !! p = Some Pending -> settle p outcome ps !! p = Some outcome.
Proof.
  intros H. unfold settle. rewrite H.
  apply list_lookup_insert_eq. eapply lookup_lt_Some, H.
Qed.

Lemma settle_lookup_ne p q outcome ps :
  p <> q -> settle p outcome ps !! q = ps !! q.
Proof.
  intros Hne. unfold settle.
  destruct (ps !! p) as [[| |]|]; try reflexivity.
  apply list_lookup_insert_ne, Hne.
Qed.

Lemma settle_settled p outcome ps x :
  ps !! p = Some x -> x <> Pending -> settle p outcome ps = ps.
Proof.
  intros H Hx. unfold settle. rewrite H. destruct x; [contradiction | reflexivity..].
Qed.

Lemma consistent_tail ev h hs : consistent ((ev, h) :: hs) -> consistent hs.
Proof. intros H ev' h' Hin. apply H. right. exact Hin. Qed.

(** No handler registers or removes a handler. *)
Lemma runAll_listeners event err hs a :
  listeners (runAll event err hs a) = listeners a.
Proof.
  revert a. induction hs as [|[ev h] hs IH]; intros a; cbn [runAll]; [reflexivity|].
  destruct (decide (ev = event)); [|apply IH].
  destruct h; cbn [run Diaspora_logger]; rewrite ?IH; reflexivity.
Qed.

(** A [ready] event resolves the pending promises that wait for it, and
    settles no other. *)
Lemma runAll_ready_promise err hs a p :
  consistent hs ->
  promises (runAll READY err hs a) !! p
  = match promises a !! p with
    | Some Pending =>
        if decide ((READY, ResolveWaiter p) ∈ hs)
        then Some (Fulfilled ThisAdapter)
        else Some Pending
    | settled => settled
    end.
Proof.
  intros Hcons. revert a.
  induction hs as [|[ev h] hs IH]; intros a; cbn [runAll].
  - destruct (promises a !! p) as [[| |]|]; reflexivity.
  - specialize (IH (consistent_tail _ _ _ Hcons)).
    pose proof (Hcons ev h ltac:(left)) as Hev.
    destruct (decide (ev = READY)) as [->|Hne].
    + destruct h as [| |q|q]; try discriminate; cbn [run]; rewrite IH; clear IH;
        cbn [promises].
      * destruct (promises a !! p) as [[| |]|]; try reflexivity.
        apply decide_ext. rewrite elem_of_cons. split; [auto|].
        intros [?|?]; [discriminate | assumption].
      * destruct (decide (q = p)) as [->|Hq].
        -- destruct (promises a !! p) as [[| |]|] eqn:Hp.
           ++ rewrite (settle_lookup_eq _ _ _ Hp).
              rewrite decide_True by left. reflexivity.
           ++ rewrite (settle_settled _ _ _ _ Hp) by discriminate.
              rewrite Hp. reflexivity.
           ++ rewrite (settle_settled _ _ _ _ Hp) by discriminate.
              rewrite Hp. reflexivity.
           ++ unfold settle. rewrite Hp, Hp. reflexivity.
        -- rewrite settle_lookup_ne by exact Hq.
           destruct (promises a !! p) as [[| |]|]; try reflexivity.
           apply decide_ext. rewrite elem_of_cons. split; [auto|].
           intros [[= ?]|?]; [congruence | assumption].
    + rewrite IH. destruct (promises a !! p) as [[| |]|]; try reflexivity.
      apply decide_ext. rewrite elem_of_cons. split; [auto|].
      intros [[= ? ?]|?]; [congruence | assumption].
Qed.

(** A [ready] event leaves the adapter ready, and the stored error as it
    was. *)
Lemma runAll_ready err hs a :
  consistent hs ->
  state (runAll READY err hs a)
  = (if decide ((READY, SetReady) ∈ hs) then READY else state a)
  /\ error (runAll READY err hs a) = error a.
Proof.
  intros Hcons. revert a.
  induction hs as [|[ev h] hs IH]; intros a; cbn [runAll].
  - rewrite decide_False by apply not_elem_of_nil. auto.
  - specialize (IH (consistent_tail _ _ _ Hcons)).
    pose proof (Hcons ev h ltac:(left)) as Hev.
    destruct (decide (ev = READY)) as [->|Hne].
    + destruct h; try discriminate; cbn [run];
        match goal with |- context [runAll READY err hs ?b] =>
          destruct (IH b) as [-> ->] end; cbn [state error].
      * destruct (decide ((READY, SetReady) ∈ hs)) as [Hin|Hnot].
        -- rewrite decide_True by (right; exact Hin). auto.
        -- rewrite decide_True by left. auto.
      * destruct (decide ((READY, SetReady) ∈ hs)) as [Hin|Hnot].
        -- rewrite decide_True by (right; exact Hin). auto.
        -- rewrite decide_False
             by (rewrite elem_of_cons; intros [?|?]; [discriminate | contradiction]).
           auto.
    + destruct (IH a) as [-> ->].
      destruct (decide ((READY, SetReady) ∈ hs)) as [Hin|Hnot].
      * rewrite decide_True by (right; exact Hin). auto.
      * rewrite decide_False
          by (rewrite elem_of_cons; intros [[= ? ?]|?]; [congruence | contradiction]).
        auto.
Qed.

(** An [error] event, on an adapter whose first handlers are those of the
    constructor: the handler of the constructor assigns the state and
    throws, so that nothing else happens. *)
Lemma emit_error err a waiters :
  listeners a = (READY, SetReady) :: (ERROR, SetError) :: waiters ->
  emit ERROR err a
  = {| state := ERROR; error := error a;
       listeners := listeners a; promises := promises a |}.
Proof.
  intros Hlisteners. unfold emit. rewrite Hlisteners. cbn [runAll].
  rewrite decide_False by discriminate. rewrite decide_True by reflexivity.
  cbn [run Diaspora_logger]. rewrite Hlisteners. reflexivity.
Qed.

Lemma invariant_new : invariant new.
Proof.
  split; [|split; [|split]].
  - intros ev h. unfold new. cbn [listeners].
    rewrite !elem_of_cons, elem_of_nil.
    intros [[= -> ->]|[[= -> ->]|[]]]; reflexivity.
  - exists []. reflexivity.
  - reflexivity.
  - intros p. unfold new. cbn [promises]. discriminate.
Qed.

Lemma invariant_ready err a : invariant a -> invariant (emit READY err a).
Proof.
  intros (Hcons & Hfirst & Herror & Hpending). unfold emit.
  split; [|split; [|split]]; rewrite ?runAll_listeners; try assumption.
  - rewrite (proj2 (runAll_ready err (listeners a) a Hcons)). exact Herror.
  - intros p. rewrite (runAll_ready_promise err _ a p Hcons).
    destruct (promises a !! p) as [[| |]|] eqn:Hp; try discriminate.
    intros _. apply Hpending, Hp.
Qed.

Lemma invariant_error err a : invariant a -> invariant (emit ERROR err a).
Proof.
  intros (Hcons & [waiters Hfirst] & Herror & Hpending).
  rewrite (emit_error err a waiters Hfirst).
  split; [|split; [|split]]; cbn [listeners error promises]; eauto.
Qed.

Lemma invariant_waitReady a : invariant a -> invariant (waitReady a).2.
Proof.
  intros (Hcons & [waiters Hfirst] & Herror & Hpending). unfold invariant, waitReady.
  destruct (state a); cbn [snd listeners promises error].
  - split; [|split; [|split]]; eauto.
    intros p Hp. apply Hpending.
    apply lookup_app_Some in Hp as [Hp|[_ Hp]]; [exact Hp|].
    destruct (p - length (promises a))%nat; discriminate.
  - split; [|split; [|split]]; eauto.
    intros p Hp. apply Hpending.
    apply lookup_app_Some in Hp as [Hp|[_ Hp]]; [exact Hp|].
    destruct (p - length (promises a))%nat; discriminate.
  - split; [|split; [|split]].
    + intros ev h. rewrite elem_of_app, !elem_of_cons, elem_of_nil.
      intros [Hin|[[= -> ->]|[[= -> ->]|[]]]]; [apply (Hcons ev h Hin) | reflexivity..].
    + rewrite Hfirst. eexists. reflexivity.
    + exact Herror.
    + intros p Hp. rewrite !elem_of_app, !elem_of_cons.
      apply lookup_app_Some in Hp as [Hp|[Hge Hp]].
      * destruct (Hpending p Hp). auto.
      * destruct (p - length (promises a))%nat eqn:Hsub; [|destruct n; discriminate].
        assert (p = length (promises a)) as -> by lia. auto.
Qed.

Lemma reachable_invariant a : reachable a -> invariant a.
Proof.
  induction 1.
  - apply invariant_new.
  - apply invariant_waitReady. assumption.
  - apply invariant_ready. assumption.
  - apply invariant_error. assumption.
  - exact IHreachable.
Qed.

(** What [waitReady] returns, at once. *)
Lemma waitReady_now a :
  promises (waitReady a).2 !! (waitReady a).1
  = Some match state a with
         | READY => Fulfilled ThisAdapter
         | ERROR => Failed (error a)
         | PREPARING => Pending
         end.
Proof.
  unfold waitReady.
  destruct (state a); cbn [fst snd promises];
    apply list_lookup_middle; reflexivity.
Qed.

(** C8 (where the code departs from it).  The handler of the constructor
    for the [error] event assigns the state, and then reads [error] on
    [Diaspora.logger], which the class does not have: it throws before it
    stores the error, and the handlers registered after it, those that
    reject the promises of [waitReady], are not called.  A promise that is
    pending when the setup fails stays pending, no error is stored, and a
    later [waitReady] is rejected with [undefined], where the claim has the
    setup error surfaced to every pending and future caller. *)
Theorem error_not_surfaced :
  (promises (waitReady new).2 !! 0%nat = Some Pending
   /\ promises (emit ERROR (Some "down") (waitReady new).2) !! 0%nat
      = Some Pending
   /\ state (emit ERROR (Some "down") (waitReady new).2) = ERROR
   /\ error (emit ERROR (Some "down") (waitReady new).2) = None
   /\ promises (waitReady (emit ERROR (Some "down") (waitReady new).2)).2 !! 1%nat
      = Some (Failed None))
  /\ (forall a err,
        reachable a ->
        state (emit ERROR (Some err) a) = ERROR
        /\ error (emit ERROR (Some err) a) = None
        /\ promises (emit ERROR (Some err) a) = promises a
        /\ promises (waitReady (emit ERROR (Some err) a)).2
             !! (waitReady (emit ERROR (Some err) a)).1
           = Some (Failed None)).
Proof.
  split; [repeat split|].
  intros a err Hreach.
  destruct (reachable_invariant a Hreach) as (_ & [waiters Hfirst] & Herror & _).
  rewrite waitReady_now, (emit_error (Some err) a waiters Hfirst).
  cbn [state error promises]. rewrite Herror. auto.
Qed.

End LifecycleFacts.

(** ** The registry *)

Lemma assignKey_lookup_eq {A} (properties : gmap string A) key v :
  key <> "__proto__" -> assignKey properties key v !! key = Some v.
Proof.
  intros Hne. unfold assignKey. apply String.eqb_neq in Hne. rewrite Hne.
  apply lookup_insert_eq.
Qed.

Lemma assignKey_lookup_ne {A} (properties : gmap string A) key other v :
  other <> key -> assignKey properties key v !! other = properties !! other.
Proof.
  intros Hne. unfold assignKey. destruct (String.eqb key "__proto__");
    [reflexivity|]. apply lookup_insert_ne. congruence.
Qed.

Lemma assignKey_proto {A} (properties : gmap string A) key v :
  key = "__proto__" -> assignKey properties key v = properties.
Proof. intros ->. reflexivity. Qed.

Module DiasporaFacts.

Import Diaspora.

Lemma ownsKey_own {A} (properties : gmap string A) key :
  properties !! "hasOwnProperty" = None ->
  ownsKey properties key = inr (bool_decide (is_Some (properties !! key))).
Proof. unfold ownsKey. intros ->. reflexivity. Qed.

Lemma ownsKey_shadowed {A} (properties : gmap string A) key :
  is_Some (properties !! "hasOwnProperty") ->
  ownsKey properties key = inl NotCallableError.
Proof. unfold ownsKey. intros [v ->]. reflexivity. Qed.

(** A registered label is refused, and so is a source name in use: both
    calls throw and return no registry. *)
Lemma registerAdapter_duplicate {DataSource} (d : registry DataSource)
  label adapter :
  is_Some (adapters DataSource d !! label) ->
  exists e,
    registerAdapter DataSource d label adapter = inl e
    /\ (adapters DataSource d !! "hasOwnProperty" = None ->
        e = AdapterExistsError label).
Proof.
  intros H. unfold registerAdapter, ownsKey.
  destruct (adapters DataSource d !! "hasOwnProperty").
  - eexists. split; [reflexivity | discriminate].
  - rewrite bool_decide_eq_true_2 by exact H. eauto.
Qed.

Lemma createNamedDataSource_used {DataSource} (d : registry DataSource)
  sourceName adapterLabel otherConfig :
  is_Some (_dataSources DataSource d !! toString sourceName) ->
  exists e,
    createNamedDataSource DataSource d sourceName adapterLabel otherConfig = inl e.
Proof.
  intros H. unfold createNamedDataSource.
  destruct (requireName "DataSource" sourceName); [eauto|].
  destruct (createDataSource DataSource d adapterLabel sourceName otherConfig);
    [eauto|].
  unfold ownsKey. destruct (_dataSources DataSource d !! "hasOwnProperty"); [eauto|].
  rewrite bool_decide_eq_true_2 by exact H. eauto.
Qed.

(** C9, at the inputs where the code departs from it: [requireName] accepts
    the empty string and a number, and [createNamedDataSource] registers a
    data source under the empty name. *)
Theorem createNamedDataSource_empty_name :
  requireName "DataSource" (VStr "") = inr tt
  /\ requireName "DataSource" (VNum 5) = inr tt
  /\ exists d',
       createNamedDataSource sampleSource builtIn (VStr "") "inMemory" []
       = inr ((VStr "inMemory", []), d')
       /\ _dataSources sampleSource d' !! "" = Some (VStr "inMemory", []).
Proof.
  split; [reflexivity|]. split; [reflexivity|].
  eexists. split.
  - unfold createNamedDataSource, createDataSource, builtIn.
    cbn [requireName isString negb adapters _dataSources toString truthy].
    rewrite ownsKey_own by reflexivity.
    rewrite lookup_singleton_eq.
    rewrite ownsKey_own by apply lookup_empty.
    rewrite lookup_empty.
    rewrite bool_decide_eq_false_2 by (intros [x Hx]; discriminate).
    reflexivity.
  - cbn [_dataSources]. apply assignKey_lookup_eq. discriminate.
Qed.

End DiasporaFacts.

(** * Further properties *)

(** ** The query normalizer, once more *)

Lemma set_keys (o : object) key v :
  map fst (set o key v)
  = if hasOwn o key then map fst o else map fst o ++ [key].
Proof.
  induction o as [|[k w] rest IH]; simpl; [reflexivity|].
  destruct (String.eqb k key) eqn:E; simpl; [reflexivity|].
  rewrite IH. destruct (hasOwn rest key); reflexivity.
Qed.

Lemma set_NoDup (o : object) key v :
  NoDup (map fst o) -> NoDup (map fst (set o key v)).
Proof.
  intros Hnd. rewrite set_keys. destruct (hasOwn o key) eqn:Hown; [exact Hnd|].
  apply NoDup_app. split; [exact Hnd|]. split.
  - intros x Hx Hin. apply list_elem_of_singleton in Hin as ->.
    apply list_elem_of_In, hasOwn_In in Hx. congruence.
  - apply NoDup_singleton.
Qed.

Section NormalizerFixpoint.

Variable CANONICAL_OPERATORS : string -> option string.

(** The alias table maps aliases to names that are no aliases, and the two
    names the shorthands are rewritten to are no aliases either. *)
Hypothesis canonical_names :
  forall alias canonical,
    CANONICAL_OPERATORS alias = Some canonical ->
    CANONICAL_OPERATORS canonical = None.
Hypothesis exists_canonical : CANONICAL_OPERATORS "$exists" = None.
Hypothesis equal_canonical : CANONICAL_OPERATORS "$equal" = None.

Lemma mapKeysFrom_keys obj entries result renamed :
  mapKeysFrom CANONICAL_OPERATORS obj entries result = inr renamed ->
  NoDup (map fst result) ->
  (forall k, In k (map fst result) -> CANONICAL_OPERATORS k = None) ->
  NoDup (map fst renamed) /\
  forall k, In k (map fst renamed) -> CANONICAL_OPERATORS k = None.
Proof using canonical_names.
  revert result. induction entries as [|[operator val] rest IH];
    intros result; simpl.
  - intros [= <-]. auto.
  - unfold canonicalKey.
    destruct (CANONICAL_OPERATORS operator) as [canonical|] eqn:Hc; simpl.
    + destruct (hasOwnPropertyOf "obj.hasOwnProperty" obj canonical) as [e|[]];
        simpl; [discriminate|discriminate|].
      intros Hrun Hnd Hkeys. apply (IH _ Hrun); [apply set_NoDup, Hnd|].
      intros k. rewrite set_keys.
      destruct (hasOwn result canonical); [apply Hkeys|].
      rewrite in_app_iff. intros [Hk|[<-|[]]]; [apply Hkeys, Hk|].
      apply (canonical_names operator), Hc.
    + intros Hrun Hnd Hkeys. apply (IH _ Hrun); [apply set_NoDup, Hnd|].
      intros k. rewrite set_keys.
      destruct (hasOwn result operator); [apply Hkeys|].
      rewrite in_app_iff. intros [Hk|[<-|[]]]; [apply Hkeys, Hk | exact Hc].
Qed.

(** What [normalizeAttr] returns, it returns unchanged when given it. *)
Lemma normalizeAttr_fixpoint attrSearch normalized :
  normalizeAttr CANONICAL_OPERATORS attrSearch = inr normalized ->
  normalizeAttr CANONICAL_OPERATORS normalized = inr normalized.
Proof using canonical_names exists_canonical equal_canonical.
  unfold normalizeAttr at 1.
  destruct (isUndefined attrSearch) eqn:Hundef.
  - intros [= <-]. unfold normalizeAttr, mapKeys. cbn.
    unfold canonicalKey. rewrite exists_canonical. reflexivity.
  - destruct (instanceofObject attrSearch) eqn:Hobj; cbn [negb].
    + destruct (mapKeys CANONICAL_OPERATORS attrSearch) as [e|renamed] eqn:Hkeys;
        cbn [Result.bind]; [discriminate|].
      destruct (checkArithmetic ARITHMETIC_OPERATIONS renamed) as [e|[]] eqn:Hcheck;
        cbn [Result.bind Result.ret]; [discriminate|].
      intros [= <-].
      destruct (mapKeysFrom_keys _ _ _ _ Hkeys) as [Hnd Hcanon].
      { constructor. }
      { intros k []. }
      apply normalizeAttr_canonical.
      * exists renamed. split; [reflexivity|]. split; [exact Hnd|].
        split; [exact Hcanon|]. apply checkArithmetic_inv, Hcheck.
      * cbn [shadowed].
        destruct (hasOwn renamed "hasOwnProperty") eqn:Hown; [|reflexivity].
        unfold ARITHMETIC_OPERATIONS in Hcheck.
        rewrite checkArithmetic_shadowed in Hcheck by exact Hown. discriminate.
    + intros [= <-]. unfold normalizeAttr, mapKeys. cbn.
      unfold canonicalKey. rewrite equal_canonical. reflexivity.
Qed.

(** X1. [normalizeQuery] is idempotent on every query it accepts, shorthand
    or not: the query it returns is returned unchanged when normalized again
    with the same options. *)
Theorem normalizeQuery_twice query options normalized :
  normalizeQuery CANONICAL_OPERATORS query options = inr normalized ->
  normalizeQuery CANONICAL_OPERATORS normalized options = inr normalized.
Proof using canonical_names exists_canonical equal_canonical.
  unfold normalizeQuery, Result.ret, cloneDeep.
  set (q0 := if isString query then VObj [("id", query)] else query).
  assert (Hq0 : isString q0 = false) by (unfold q0; destruct query; reflexivity).
  destruct (get options "remapInput") as [| |[]| | | | |] eqn:Hremap;
    try (intros [= <-]; rewrite Hq0; reflexivity).
  destruct (mapValues CANONICAL_OPERATORS (ownEntries q0)) as [e|fields] eqn:Hmap;
    cbn [Result.bind]; [discriminate|].
  intros [= <-]. cbn [isString ownEntries].
  assert (Hagain : mapValues CANONICAL_OPERATORS fields = inr fields).
  { apply mapValues_Forall2 in Hmap. clear Hq0.
    induction Hmap as [|[k d] [k' d'] l l' [Hkey Hattr] _ IH]; [reflexivity|].
    cbn in Hkey, Hattr. cbn [mapValues].
    rewrite (normalizeAttr_fixpoint d d' Hattr). cbn [Result.bind].
    rewrite IH. reflexivity. }
  rewrite Hagain. reflexivity.
Qed.

End NormalizerFixpoint.

Lemma normalizeQuery_twice_witness :
  normalizeQuery sampleAliases
    (VObj [("age", VObj [("$lt", VNum 3)]); ("name", VStr "x")]) remapping
  = inr (VObj [("age", VObj [("$less", VNum 3)]);
               ("name", VObj [("$equal", VStr "x")])])
  /\ normalizeQuery sampleAliases
       (VObj [("age", VObj [("$less", VNum 3)]);
              ("name", VObj [("$equal", VStr "x")])]) remapping
     = inr (VObj [("age", VObj [("$less", VNum 3)]);
                  ("name", VObj [("$equal", VStr "x")])]).
Proof.
  split; [reflexivity|].
  apply (normalizeQuery_twice sampleAliases) with
    (query := VObj [("age", VObj [("$lt", VNum 3)]); ("name", VStr "x")]).
  - intros alias canonical. unfold sampleAliases.
    destruct (String.eqb alias "$gt"); [intros [= <-]; reflexivity|].
    destruct (String.eqb alias "$lt"); [intros [= <-]; reflexivity | discriminate].
  - reflexivity.
  - reflexivity.
  - reflexivity.
Defined.

(** ** The options normalizer, once more *)

(** X2. Normalized options always define [skip], [remapInput] and
    [remapOutput]; a value the transforms left defined, [false], [0] and [null]
    included, is never replaced by a default, and no other option is
    touched; omitted or empty options normalize to the three defaults,
    whatever the transforms. *)
Theorem normalizeOptions_defaults
  (QUERY_OPTIONS_TRANSFORMS : list (string * (object -> Result.t object))) :
  normalizeOptions QUERY_OPTIONS_TRANSFORMS [] = inr DEFAULT_OPTIONS
  /\ forall opts transformed normalized,
       applyTransforms QUERY_OPTIONS_TRANSFORMS opts = inr transformed ->
       normalizeOptions QUERY_OPTIONS_TRANSFORMS opts = inr normalized ->
       (forall key, In key ["skip"; "remapInput"; "remapOutput"] ->
          isUndefined (get normalized key) = false)
       /\ (forall key, isUndefined (get transformed key) = false ->
             get normalized key = get transformed key)
       /\ (forall key, ~ In key ["skip"; "remapInput"; "remapOutput"] ->
             get normalized key = get transformed key
             /\ hasOwn normalized key = hasOwn transformed key).
Proof.
  split.
  - unfold normalizeOptions. cbn [cloneDeep ownEntries].
    assert (Hnone : forall ts, applyTransforms ts [] = inr []).
    { induction ts as [|[name t] ts IH]; [reflexivity | exact IH]. }
    rewrite Hnone. reflexivity.
  - intros opts transformed normalized Hrun. unfold normalizeOptions.
    cbn [cloneDeep ownEntries]. rewrite Hrun. cbn [Result.bind]. unfold Result.ret.
    intros Heq.
    assert (Hnorm : normalized = defaults transformed DEFAULT_OPTIONS) by congruence.
    subst normalized. clear Heq. split; [|split].
    + intros key Hin.
      assert (Hvals : forall k w, In (k, w) DEFAULT_OPTIONS -> isUndefined w = false).
      { intros k w [[= <- <-]|[[= <- <-]|[[= <- <-]|[]]]]; reflexivity. }
      destruct Hin as [<-|[<-|[<-|[]]]].
      * apply (defaults_defined DEFAULT_OPTIONS transformed "skip" (VNum 0));
          [left; reflexivity | exact Hvals].
      * apply (defaults_defined DEFAULT_OPTIONS transformed "remapInput" (VBool true));
          [right; left; reflexivity | exact Hvals].
      * apply (defaults_defined DEFAULT_OPTIONS transformed "remapOutput" (VBool true));
          [right; right; left; reflexivity | exact Hvals].
    + intros key Hdef. apply defaults_get_defined, Hdef.
    + intros key Hnot.
      destruct (defaults_other DEFAULT_OPTIONS transformed key Hnot) as [Hown Hget].
      auto.
Qed.

(** ** The matcher, once more *)

(** X3. The matcher reads a record only at the fields the query names, with
    the read [entity[key]] that finds the properties of [Object.prototype]
    too: two records on which those reads agree are matched alike, or make
    the matcher throw the same error, whatever else they hold. *)
Theorem matchEntity_frame
  (OPERATORS : string -> option (property -> value -> bool))
  (query : value) (entity entity' : object) :
  (forall key, In key (keys query) ->
     readProperty entity key = readProperty entity' key) ->
  matchEntity OPERATORS query entity = matchEntity OPERATORS query entity'.
Proof.
  intros Hagree. unfold matchEntity. apply every_ext.
  intros [key desc] Hin. cbn [matchField].
  rewrite (Hagree key); [reflexivity|].
  unfold keys, toPairs in *. apply (in_map fst) in Hin. exact Hin.
Qed.

Lemma matchEntity_frame_witness :
  matchEntity sampleOperators named (user "a")
  = matchEntity sampleOperators named
      [("name", VStr "n"); ("age", VNum 3); ("id", VStr "z")].
Proof.
  apply matchEntity_frame. intros key [<-|[]]. reflexivity.
Defined.



(** ** Finding and deleting in the web storage *)

(** X4. For a query the matcher evaluates, and on which it throws at no item
    of the table, on a table that has an index, [findOne] resolves and leaves
    the world as it is; what it returns is the item of the match at position
    [skip] in index order: an item stored under an id of the index, which the
    query matches; and it returns nothing exactly when the table has no more
    than [skip] matches. *)
Theorem findOne_scan_position
  (OPERATORS : string -> option (property -> value -> bool))
  (QUERY_OPTIONS_TRANSFORMS : list (string * (object -> Result.t object)))
  (table : string) (queryFind : value) (options : loc) (opts : object)
  (skip : nat) (w : world) :
  namesOneId queryFind = false ->
  get opts "skip" = VNum (Z.of_nat skip) ->
  heap w !! options = Some opts ->
  is_Some (indexes (source w) !! table) ->
  evaluates OPERATORS (source w) table queryFind ->
  let ms := matching OPERATORS (source w) table queryFind in
  exists found,
    WebStorageAdapter.findOne OPERATORS QUERY_OPTIONS_TRANSFORMS table queryFind
      (Some options) w = Resolved found w
    /\ (forall item, found = Some item ->
          exists id, ms !! skip = Some id
                     /\ id ∈ indexOf (source w) table
                     /\ itemOf (source w) table id = Some item
                     /\ matchEntity OPERATORS queryFind item = inr true)
    /\ (found = None <-> (length ms <= skip)%nat).
Proof.
  intros Hscan Hskip Hopts Hidx Heval ms. unfold namesOneId in Hscan.
  apply orb_false_iff in Hscan as [Hobj Hid]. apply negb_false_iff in Hobj.
  exists (ms !! skip ≫= itemOf (source w) table). split; [|split].
  - apply (findOne_scans OPERATORS QUERY_OPTIONS_TRANSFORMS table queryFind
             options opts skip Hobj Hid Hskip w Hopts Hidx Heval).
  - intros item Hfound. destruct (ms !! skip) as [id|] eqn:Hpos; [|discriminate].
    cbn [mbind option_bind] in Hfound. exists id.
    destruct (matching_item OPERATORS table queryFind (source w) id)
      as (Hin & item' & Hitem & Hmatch).
    { eapply list_elem_of_lookup_2, Hpos. }
    rewrite Hitem in Hfound. injection Hfound as <-. auto.
  - destruct (ms !! skip) as [id|] eqn:Hpos; cbn [mbind option_bind].
    + destruct (matching_item OPERATORS table queryFind (source w) id)
        as (_ & item & Hitem & _).
      { eapply list_elem_of_lookup_2, Hpos. }
      rewrite Hitem. apply lookup_lt_Some in Hpos. split; [discriminate | lia].
    + apply lookup_ge_None in Hpos. split; [intros _; exact Hpos | reflexivity].
Qed.

Lemma findOne_scan_position_witness :
  exists found,
    WebStorageAdapter.findOne sampleOperators sampleTransforms "users" named
      (Some 0%nat) (sampleWorld limitTwoSkipFour)
    = Resolved found (sampleWorld limitTwoSkipFour)
    /\ (forall item, found = Some item ->
          exists id,
            matching sampleOperators sampleStorage "users" named !! 4%nat = Some id
            /\ id ∈ indexOf sampleStorage "users"
            /\ itemOf sampleStorage "users" id = Some item
            /\ matchEntity sampleOperators named item = inr true)
    /\ (found = None
        <-> (length (matching sampleOperators sampleStorage "users" named) <= 4)%nat).
Proof.
  apply (findOne_scan_position sampleOperators sampleTransforms "users" named
           0%nat limitTwoSkipFour 4 (sampleWorld limitTwoSkipFour)).
  - reflexivity.
  - reflexivity.
  - apply lookup_singleton_eq.
  - vm_compute. eauto.
  - exact sampleStorage_evaluates.
Defined.

(** X25. The matcher is called on the items of the table one after the
    other, and what it throws is not caught: when it throws on the first item
    of the index, [findOne] is rejected with that error, whatever the [skip]
    and the items after it, and so is [deleteOne], which then deletes
    nothing.  The storage is as it was, and the only object assigned to is
    the caller's options, where [skip] defaults to 0. *)
Theorem findOne_matcher_throws
  (OPERATORS : string -> option (property -> value -> bool))
  (QUERY_OPTIONS_TRANSFORMS : list (string * (object -> Result.t object)))
  (table : string) (queryFind : value) (options : loc) (opts : object)
  (itemId : string) (rest : list string) (item : object) (e : exn) (w : world) :
  namesOneId queryFind = false ->
  heap w !! options = Some opts ->
  indexes (source w) !! table = Some (itemId :: rest) ->
  itemOf (source w) table itemId = Some item ->
  matchEntity OPERATORS queryFind item = inl e ->
  let w' := setHeap (<[options := defaults opts [("skip", VNum 0)]]> (heap w)) w in
  WebStorageAdapter.findOne OPERATORS QUERY_OPTIONS_TRANSFORMS table queryFind
    (Some options) w = Rejected e w'
  /\ WebStorageAdapter.deleteOne OPERATORS QUERY_OPTIONS_TRANSFORMS table
       queryFind (Some options) w = Rejected e w'
  /\ source w' = source w.
Proof.
  intros Hscan Hopts Hidx Hitem Hthrows w'. unfold namesOneId in Hscan.
  apply orb_false_iff in Hscan as [Hobj Hid]. apply negb_false_iff in Hobj.
  assert (Hfind :
    WebStorageAdapter.findOne OPERATORS QUERY_OPTIONS_TRANSFORMS table queryFind
      (Some options) w = Rejected e w').
  { unfold WebStorageAdapter.findOne, optionsOrDefault, Async.bind, Async.ret,
      Async.load, Async.store, Async.lift.
    rewrite Hopts. cbn [from_option id]. rewrite Hobj, Hid. cbn [negb].
    unfold WebStorageAdapter.ensureCollectionExists, Async.bind, Async.ret,
      Async.getStorage.
    cbn [source setHeap heap]. rewrite Hidx.
    cbn [WebStorageAdapter.scanItems]. unfold itemOf in Hitem.
    unfold setHeap. cbn [source heap]. rewrite Hitem, Hthrows. reflexivity. }
  split; [exact Hfind|]. split; [|reflexivity].
  unfold WebStorageAdapter.deleteOne, optionsOrDefault.
  unfold Async.bind at 1 2. cbn [Async.ret]. rewrite Hfind. reflexivity.
Qed.

Lemma findOne_matcher_throws_witness :
  let queryFind := VObj [("name", VObj [("hasOwnProperty", VNum 1)])] in
  let w' :=
    setHeap (<[0%nat := defaults limitTwo [("skip", VNum 0)]]>
               (heap (sampleWorld limitTwo))) (sampleWorld limitTwo) in
  WebStorageAdapter.findOne sampleOperators sampleTransforms "users" queryFind
    (Some 0%nat) (sampleWorld limitTwo)
  = Rejected (UndefinedReceiver "hasOwnProperty") w'
  /\ WebStorageAdapter.deleteOne sampleOperators sampleTransforms "users"
       queryFind (Some 0%nat) (sampleWorld limitTwo)
     = Rejected (UndefinedReceiver "hasOwnProperty") w'
  /\ source w' = source (sampleWorld limitTwo).
Proof.
  apply (findOne_matcher_throws sampleOperators sampleTransforms "users"
           (VObj [("name", VObj [("hasOwnProperty", VNum 1)])]) 0%nat limitTwo
           "a" ["b"; "c"; "d"; "e"; "f"] (user "a")
           (UndefinedReceiver "hasOwnProperty") (sampleWorld limitTwo)).
  - reflexivity.
  - apply lookup_singleton_eq.
  - apply lookup_singleton_eq.
  - reflexivity.
  - reflexivity.
Defined.

(** X5. Reading writes: for a query the matcher evaluates, on a table the
    storage has no index of, [findOne] finds nothing, whatever items the
    storage holds, and leaves the empty index of the table in the storage;
    it also sets [skip] to 0 on the caller's options when they have none. *)
Theorem findOne_creates_index
  (OPERATORS : string -> option (property -> value -> bool))
  (QUERY_OPTIONS_TRANSFORMS : list (string * (object -> Result.t object)))
  (table : string) (queryFind : value) (options : loc) (opts : object)
  (w : world) :
  namesOneId queryFind = false ->
  heap w !! options = Some opts ->
  indexes (source w) !! table = None ->
  WebStorageAdapter.findOne OPERATORS QUERY_OPTIONS_TRANSFORMS table queryFind
    (Some options) w
  = Resolved None
      {| heap := <[options := defaults opts [("skip", VNum 0)]]> (heap w);
         source := {| indexes := <[table := []]> (indexes (source w));
                      items := items (source w) |} |}.
Proof.
  intros Hscan Hopts Hidx. unfold namesOneId in Hscan.
  apply orb_false_iff in Hscan as [Hobj Hid]. apply negb_false_iff in Hobj.
  unfold WebStorageAdapter.findOne, optionsOrDefault, Async.bind, Async.ret,
    Async.load, Async.store.
  rewrite Hopts. cbn [from_option id]. rewrite Hobj, Hid. cbn [negb].
  unfold WebStorageAdapter.ensureCollectionExists, Async.bind, Async.ret,
    Async.getStorage, Async.putStorage.
  cbn [source setHeap setSource heap]. rewrite Hidx.
  cbn [source setHeap setSource heap WebStorageAdapter.scanItems]. reflexivity.
Qed.

Lemma findOne_creates_index_witness :
  WebStorageAdapter.findOne sampleOperators sampleTransforms "posts" named
    (Some 0%nat) (sampleWorld [])
  = Resolved None
      {| heap := <[0%nat := defaults [] [("skip", VNum 0)]]> (heap (sampleWorld []));
         source := {| indexes := <["posts" := []]> (indexes sampleStorage);
                      items := items sampleStorage |} |}.
Proof.
  apply (findOne_creates_index sampleOperators sampleTransforms "posts" named
           0%nat [] (sampleWorld [])).
  - reflexivity.
  - apply lookup_singleton_eq.
  - vm_compute. reflexivity.
Defined.

(** The shortcut by id, whatever the options hold. *)
Lemma findOne_names_id
  (OPERATORS : string -> option (property -> value -> bool))
  (QUERY_OPTIONS_TRANSFORMS : list (string * (object -> Result.t object)))
  (table : string) (queryFind : value) (options : loc) (opts : object)
  (w : world) :
  namesOneId queryFind = true ->
  heap w !! options = Some opts ->
  WebStorageAdapter.findOne OPERATORS QUERY_OPTIONS_TRANSFORMS table queryFind
    (Some options) w
  = Resolved (items (source w)
                !! WebStorageAdapter.getItemName table (idOfQuery queryFind))
      (setHeap (<[options := defaults opts [("skip", VNum 0)]]> (heap w)) w).
Proof.
  intros Hid Hopts.
  unfold WebStorageAdapter.findOne, optionsOrDefault, Async.bind, Async.ret,
    Async.load, Async.store.
  rewrite Hopts. cbn [from_option id].
  unfold namesOneId in Hid. unfold idOfQuery, WebStorageAdapter.findOneById,
    Async.bind, Async.ret, Async.getStorage.
  destruct (isObject queryFind); cbn [negb orb] in *.
  - rewrite Hid. reflexivity.
  - reflexivity.
Qed.

(** X6. A query that names one id (a value that is no object, or
    [{ id: { $equal: v } }]) is answered from the item stored under the name
    of that id alone: [findOne] returns it whether or not the index of the
    table lists the id or exists, whatever the [skip] of the options, and
    without the matcher; the storage is left as it is, and the only object
    assigned to is the caller's options, where [skip] defaults to 0. *)
Theorem findOne_by_id_only
  (OPERATORS OPERATORS' : string -> option (property -> value -> bool))
  (QUERY_OPTIONS_TRANSFORMS : list (string * (object -> Result.t object)))
  (table : string) (queryFind : value) (options : loc) (opts opts' : object)
  (h : gmap loc object) (s s' : Storage) :
  namesOneId queryFind = true ->
  h !! options = Some opts ->
  items s !! WebStorageAdapter.getItemName table (idOfQuery queryFind)
  = items s' !! WebStorageAdapter.getItemName table (idOfQuery queryFind) ->
  exists found,
    WebStorageAdapter.findOne OPERATORS QUERY_OPTIONS_TRANSFORMS table queryFind
      (Some options) {| heap := h; source := s |}
    = Resolved found
        {| heap := <[options := defaults opts [("skip", VNum 0)]]> h;
           source := s |}
    /\ WebStorageAdapter.findOne OPERATORS' QUERY_OPTIONS_TRANSFORMS table
         queryFind (Some options)
         {| heap := <[options := opts']> h; source := s' |}
       = Resolved found
           {| heap := <[options := defaults opts' [("skip", VNum 0)]]> h;
              source := s' |}
    /\ found = items s !! WebStorageAdapter.getItemName table (idOfQuery queryFind).
Proof.
  intros Hid Hopts Hitems. eexists. split; [|split].
  - rewrite (findOne_names_id OPERATORS QUERY_OPTIONS_TRANSFORMS table queryFind
               options opts {| heap := h; source := s |} Hid Hopts).
    reflexivity.
  - rewrite (findOne_names_id OPERATORS' QUERY_OPTIONS_TRANSFORMS table queryFind
               options opts' {| heap := <[options := opts']> h; source := s' |}
               Hid (lookup_insert_eq h options opts')).
    unfold setHeap. cbn [heap source]. rewrite insert_insert_eq, Hitems.
    reflexivity.
  - reflexivity.
Qed.

Lemma findOne_by_id_only_witness :
  exists found,
    WebStorageAdapter.findOne sampleOperators sampleTransforms "users"
      (VObj [("id", VObj [("$equal", VStr "f")])]) (Some 0%nat)
      {| heap := {[ 0%nat := limitTwoSkipFour ]}; source := sampleStorage |}
    = Resolved found
        {| heap := <[0%nat := defaults limitTwoSkipFour [("skip", VNum 0)]]>
                     {[ 0%nat := limitTwoSkipFour ]};
           source := sampleStorage |}
    /\ WebStorageAdapter.findOne (fun _ => None) sampleTransforms "users"
         (VObj [("id", VObj [("$equal", VStr "f")])]) (Some 0%nat)
         {| heap := <[0%nat := []]> {[ 0%nat := limitTwoSkipFour ]};
            source := {| indexes := ∅; items := items sampleStorage |} |}
       = Resolved found
           {| heap := <[0%nat := defaults [] [("skip", VNum 0)]]>
                        {[ 0%nat := limitTwoSkipFour ]};
              source := {| indexes := ∅; items := items sampleStorage |} |}
    /\ found
       = items sampleStorage
           !! WebStorageAdapter.getItemName "users"
                (idOfQuery (VObj [("id", VObj [("$equal", VStr "f")])])).
Proof.
  apply (findOne_by_id_only sampleOperators (fun _ => None) sampleTransforms
           "users" (VObj [("id", VObj [("$equal", VStr "f")])]) 0%nat
           limitTwoSkipFour [] {[ 0%nat := limitTwoSkipFour ]} sampleStorage
           {| indexes := ∅; items := items sampleStorage |}).
  - reflexivity.
  - apply lookup_singleton_eq.
  - reflexivity.
Defined.

(** X7. For a query the matcher evaluates, and on which it throws at no item
    of the table, on a well formed table, [deleteOne] resolves; it deletes
    the match at position [skip] and nothing else: with no more than [skip]
    matches the world is as it was;
    otherwise the id of that match leaves the index and its item the storage,
    every other item is as it was, the other matches are still matched in
    their order, and the table is still well formed. *)
Theorem deleteOne_scan_position
  (OPERATORS : string -> option (property -> value -> bool))
  (QUERY_OPTIONS_TRANSFORMS : list (string * (object -> Result.t object)))
  (table : string) (queryFind : value) (options : loc) (opts : object)
  (skip : nat) (w : world) :
  namesOneId queryFind = false ->
  get opts "skip" = VNum (Z.of_nat skip) ->
  heap w !! options = Some opts ->
  wellFormed (source w) table ->
  evaluates OPERATORS (source w) table queryFind ->
  let ms := matching OPERATORS (source w) table queryFind in
  let left := removeAll table (option_list (ms !! skip)) (source w) in
  WebStorageAdapter.deleteOne OPERATORS QUERY_OPTIONS_TRANSFORMS table queryFind
    (Some options) w = Resolved tt (setSource left w)
  /\ ((length ms <= skip)%nat -> setSource left w = w)
  /\ indexOf left table
     = filter (fun id => ms !! skip ≠ Some id) (indexOf (source w) table)
  /\ (forall id, ms !! skip ≠ Some id ->
        itemOf left table id = itemOf (source w) table id)
  /\ (forall id, ms !! skip = Some id -> itemOf left table id = None)
  /\ matching OPERATORS left table queryFind = take skip ms ++ drop (S skip) ms
  /\ wellFormed left table.
Proof.
  intros Hscan Hskip Hopts Hwf Heval ms left. unfold namesOneId in Hscan.
  apply orb_false_iff in Hscan as [Hobj Hid]. apply negb_false_iff in Hobj.
  unfold left. destruct (ms !! skip) as [id|] eqn:Hpos;
    unfold removeAll, option_list; cbn [option_rect fold_left].
  - split; [|split; [|split; [|split; [|split; [|split]]]]].
    + apply (deleteOne_removes OPERATORS QUERY_OPTIONS_TRANSFORMS table queryFind
               options opts skip Hobj Hid Hskip w id Hopts Hwf Heval Hpos).
    + intros Hlen. apply lookup_lt_Some in Hpos. lia.
    + rewrite indexOf_removeOne. apply list_filter_iff. intros x.
      split; [intros Hne [= ->]; tauto | intros Hne ->; tauto].
    + intros x Hne. apply itemOf_removeOne. intros ->. tauto.
    + intros x [= <-]. unfold itemOf, removeOne. cbn [items].
      apply lookup_delete_eq.
    + rewrite matching_removeOne. apply filter_ne_lookup; [|exact Hpos].
      apply NoDup_filter, Hwf.
    + apply wellFormed_removeOne, Hwf.
  - rewrite setSource_id.
    assert (Hnone :
      WebStorageAdapter.deleteOne OPERATORS QUERY_OPTIONS_TRANSFORMS table
        queryFind (Some options) w = Resolved tt w).
    { unfold WebStorageAdapter.deleteOne, optionsOrDefault.
      unfold Async.bind at 1 2. cbn [Async.ret].
      rewrite (findOne_scans OPERATORS QUERY_OPTIONS_TRANSFORMS table queryFind
                 options opts skip Hobj Hid Hskip w Hopts (proj1 Hwf) Heval).
      fold ms. rewrite Hpos. reflexivity. }
    split; [exact Hnone|]. split; [reflexivity|].
    split; [|split; [|split; [|split]]].
    + symmetry. clear. induction (indexOf (source w) table) as [|x l IH];
        [reflexivity|].
      rewrite filter_cons_True by discriminate. f_equal. exact IH.
    + reflexivity.
    + discriminate.
    + apply lookup_ge_None in Hpos.
      rewrite take_ge, drop_ge, app_nil_r by lia. reflexivity.
    + exact Hwf.
Qed.

Lemma deleteOne_scan_position_witness :
  let ms := matching sampleOperators sampleStorage "users" named in
  let left := removeAll "users" (option_list (ms !! 4%nat)) sampleStorage in
  WebStorageAdapter.deleteOne sampleOperators sampleTransforms "users" named
    (Some 0%nat) (sampleWorld limitTwoSkipFour)
  = Resolved tt (setSource left (sampleWorld limitTwoSkipFour))
  /\ ((length ms <= 4)%nat
      -> setSource left (sampleWorld limitTwoSkipFour)
         = sampleWorld limitTwoSkipFour)
  /\ indexOf left "users"
     = filter (fun id => ms !! 4%nat ≠ Some id) (indexOf sampleStorage "users")
  /\ (forall id, ms !! 4%nat ≠ Some id ->
        itemOf left "users" id = itemOf sampleStorage "users" id)
  /\ (forall id, ms !! 4%nat = Some id -> itemOf left "users" id = None)
  /\ matching sampleOperators left "users" named
     = take 4 ms ++ drop 5 ms
  /\ wellFormed left "users".
Proof.
  apply (deleteOne_scan_position sampleOperators sampleTransforms "users" named
           0%nat limitTwoSkipFour 4 (sampleWorld limitTwoSkipFour)).
  - reflexivity.
  - reflexivity.
  - apply lookup_singleton_eq.
  - exact sampleStorage_wellFormed.
  - exact sampleStorage_evaluates.
Defined.

(** ** Inserting in the web storage *)

Lemma get_reparseObject toISOString (o : object) key :
  isUndefined (get o key) = false ->
  get (reparseObject toISOString o) key = reparse toISOString (get o key).
Proof.
  unfold reparseObject. cbn [reparse ownEntries].
  induction o as [|[k v] rest IH]; cbn [get]; [discriminate|].
  destruct (String.eqb k key) eqn:Hk.
  - intros Hdef. rewrite Hdef. cbn [get]. rewrite Hk. reflexivity.
  - intros Hdef. destruct (isUndefined v); [exact (IH Hdef)|].
    cbn [get]. rewrite Hk. exact (IH Hdef).
Qed.

Lemma stamped_id uuid entity : get (stamped uuid entity) "id" = VStr uuid.
Proof.
  unfold stamped, setIdHash. rewrite get_set_ne by discriminate.
  apply get_set_eq.
Qed.

Lemma stamped_idHash uuid entity :
  getProperty (get (stamped uuid entity) "idHash") "webStorage" = VStr uuid.
Proof.
  unfold stamped, setIdHash. rewrite get_set_eq.
  cbn [getProperty ownEntries assign fold_left fst snd].
  rewrite !get_set_eq. reflexivity.
Qed.

(** [insertOne] resolves, with the entity it built. *)
Lemma insertOne_stores toISOString uuid table entity (w : world) :
  WebStorageAdapter.insertOne toISOString uuid table entity w
  = Resolved (Some (stamped uuid entity))
      (setSource (stored toISOString table (source w) uuid entity) w).
Proof.
  unfold WebStorageAdapter.insertOne, WebStorageAdapter.ensureCollectionExists,
    WebStorageAdapter.setIndex, WebStorageAdapter.setItem, Async.bind, Async.ret,
    Async.getStorage, Async.putStorage, stored, indexOf, maybeCastEntity.
  destruct (indexes (source w) !! table) as [idx|] eqn:Hidx;
    cbn [source setSource indexes items heap from_option id].
  - reflexivity.
  - rewrite insert_insert_eq. reflexivity.
Qed.

(** X8. [insertOne] always resolves, with the entity it was given under a new
    [id] and with that id under [webStorage] in its [idHash]; it adds the id
    last to the index of the table (created if the table had none), stores
    the entity under the name of the id and touches no other index, item or
    object.  What is stored is the JSON text of the entity: [findOneById] on
    the new id then returns the entity as the text parses (a date as its ISO
    text, without the properties that are [undefined]), which carries the
    id. *)
Theorem insertOne_then_findOneById
  (toISOString : Z -> string) (uuid table : string) (entity : object)
  (w : world) :
  exists w',
    WebStorageAdapter.insertOne toISOString uuid table entity w
    = Resolved (Some (stamped uuid entity)) w'
    /\ heap w' = heap w
    /\ indexes (source w') !! table = Some (indexOf (source w) table ++ [uuid])
    /\ (forall other, other <> table ->
          indexes (source w') !! other = indexes (source w) !! other)
    /\ (forall name, name <> WebStorageAdapter.getItemName table (VStr uuid) ->
          items (source w') !! name = items (source w) !! name)
    /\ WebStorageAdapter.findOneById table (VStr uuid) w'
       = Resolved (Some (reparseObject toISOString (stamped uuid entity))) w'
    /\ get (stamped uuid entity) "id" = VStr uuid
    /\ getProperty (get (stamped uuid entity) "idHash") "webStorage" = VStr uuid
    /\ get (reparseObject toISOString (stamped uuid entity)) "id" = VStr uuid.
Proof.
  eexists. split; [apply insertOne_stores|].
  cbn [heap source setSource stored indexes items].
  split; [reflexivity|]. split; [apply lookup_insert_eq|].
  split; [intros other Hne; apply lookup_insert_ne; congruence|].
  split; [intros name Hne; apply lookup_insert_ne; congruence|].
  split; [|split; [apply stamped_id | split; [apply stamped_idHash|]]].
  - unfold WebStorageAdapter.findOneById, Async.bind, Async.ret, Async.getStorage.
    cbn [source setSource items stored]. rewrite lookup_insert_eq. reflexivity.
  - rewrite get_reparseObject; rewrite stamped_id; reflexivity.
Qed.

Lemma stored_wellFormed toISOString table (s : Storage) uuid entity :
  (is_Some (indexes s !! table) -> wellFormed s table) ->
  uuid ∉ indexOf s table ->
  wellFormed (stored toISOString table s uuid entity) table.
Proof.
  intros Hwf Hfresh.
  assert (Hnd : NoDup (indexOf s table)).
  { unfold indexOf. destruct (indexes s !! table) eqn:Hidx.
    - destruct Hwf as (_ & Hnd & _); [eauto|].
      unfold indexOf in Hnd. rewrite Hidx in Hnd. exact Hnd.
    - apply NoDup_nil_2. }
  assert (Hidx : indexOf (stored toISOString table s uuid entity) table
                 = indexOf s table ++ [uuid]).
  { unfold indexOf at 1, stored. cbn [indexes]. rewrite lookup_insert_eq.
    reflexivity. }
  split; [|split].
  - unfold stored. cbn [indexes]. rewrite lookup_insert_eq. eauto.
  - rewrite Hidx. apply NoDup_app. split; [exact Hnd|]. split.
    + intros x Hx Hin. apply list_elem_of_singleton in Hin as ->. tauto.
    + apply NoDup_singleton.
  - intros x item. rewrite Hidx, elem_of_app, list_elem_of_singleton.
    unfold itemOf, stored. cbn [items]. intros Hin Hitem.
    destruct (decide (x = uuid)) as [->|Hne].
    + rewrite lookup_insert_eq in Hitem. injection Hitem as <-.
      rewrite get_reparseObject; rewrite stamped_id; reflexivity.
    + rewrite lookup_insert_ne in Hitem
        by (intros Heq; apply Hne; symmetry; apply (getItemName_inj _ _ _ Heq)).
      destruct Hin as [Hin|Hin]; [|tauto].
      assert (Hsome : is_Some (indexes s !! table)).
      { unfold indexOf in Hin. destruct (indexes s !! table); [eauto|].
        apply elem_of_nil in Hin. destruct Hin. }
      destruct (Hwf Hsome) as (_ & _ & Hids). apply (Hids x item Hin Hitem).
Qed.

(** X9. On a table that is well formed, or has no index yet, [insertOne]
    leaves a well formed table exactly when the id it draws is not already
    in the index of the table. *)
Theorem insertOne_wellFormed
  (toISOString : Z -> string) (uuid table : string) (entity : object)
  (w : world) :
  (is_Some (indexes (source w) !! table) -> wellFormed (source w) table) ->
  exists inserted w',
    WebStorageAdapter.insertOne toISOString uuid table entity w
    = Resolved inserted w'
    /\ (wellFormed (source w') table <-> uuid ∉ indexOf (source w) table).
Proof.
  intros Hwf. eexists _, _. split; [apply insertOne_stores|].
  cbn [source setSource]. split.
  - intros (_ & Hnd & _) Hin. revert Hnd.
    unfold indexOf at 1, stored. cbn [indexes]. rewrite lookup_insert_eq.
    cbn [from_option id]. rewrite NoDup_app. intros (_ & Hdisjoint & _).
    apply (Hdisjoint uuid Hin). apply list_elem_of_singleton. reflexivity.
  - apply stored_wellFormed, Hwf.
Qed.

Lemma insertOne_wellFormed_witness :
  exists inserted w',
    WebStorageAdapter.insertOne pretty "g" "users" [("name", VStr "n")]
      (sampleWorld [])
    = Resolved inserted w'
    /\ (wellFormed (source w') "users" <-> "g" ∉ indexOf sampleStorage "users").
Proof.
  apply (insertOne_wellFormed pretty "g" "users" [("name", VStr "n")]
           (sampleWorld [])).
  intros _. exact sampleStorage_wellFormed.
Defined.

(** X10. Inserting an entity and then deleting the entity of the id it was
    given puts the storage back as it was, when the table has an index, the
    id is new to it and no item is stored under its name; [deleteOne] then
    finds the entity by its id, without the matcher. *)
Theorem insertOne_then_deleteOne
  (OPERATORS : string -> option (property -> value -> bool))
  (QUERY_OPTIONS_TRANSFORMS : list (string * (object -> Result.t object)))
  (toISOString : Z -> string) (uuid table : string) (entity : object)
  (options : loc) (opts : object) (w : world) :
  heap w !! options = Some opts ->
  is_Some (indexes (source w) !! table) ->
  uuid ∉ indexOf (source w) table ->
  items (source w) !! WebStorageAdapter.getItemName table (VStr uuid) = None ->
  (await! _ := WebStorageAdapter.insertOne toISOString uuid table entity in
   WebStorageAdapter.deleteOne OPERATORS QUERY_OPTIONS_TRANSFORMS table
     (VObj [("id", VObj [("$equal", VStr uuid)])]) (Some options)) w
  = Resolved tt
      (setHeap (<[options := defaults opts [("skip", VNum 0)]]> (heap w)) w).
Proof.
  intros Hopts [idx Hidx] Hfresh Hnone.
  unfold Async.bind at 1. rewrite insertOne_stores.
  unfold WebStorageAdapter.deleteOne, optionsOrDefault. unfold Async.bind at 1 2.
  cbn [Async.ret].
  rewrite (findOne_names_id OPERATORS QUERY_OPTIONS_TRANSFORMS table
             (VObj [("id", VObj [("$equal", VStr uuid)])]) options opts
             (setSource (stored toISOString table (source w) uuid entity) w)
             eq_refl Hopts).
  cbn [idOfQuery isObject getProperty ownEntries get String.eqb Ascii.eqb
       Bool.eqb source setSource stored items].
  change (get [("id", VObj [("$equal", VStr uuid)])] "id")
    with (VObj [("$equal", VStr uuid)]).
  cbn [idOfQuery isObject getProperty ownEntries get String.eqb Ascii.eqb
       Bool.eqb source setSource stored items].
  change (get [("$equal", VStr uuid)] "$equal") with (VStr uuid).
  rewrite lookup_insert_eq.
  rewrite get_reparseObject; rewrite stamped_id; [|reflexivity].
  cbn [reparse].
  unfold WebStorageAdapter.ensureCollectionExists, Async.bind, Async.ret,
    Async.getStorage, Async.putStorage.
  cbn [source setSource setHeap heap indexes items stored].
  rewrite lookup_insert_eq.
  cbn [source setSource setHeap heap indexes items pull].
  unfold stored, indexOf in *. cbn [indexes items].
  rewrite Hidx in *. cbn [from_option id] in *.
  rewrite filter_app, (filter_ne_absent idx uuid Hfresh).
  rewrite filter_cons_False, filter_nil, app_nil_r by tauto.
  rewrite insert_insert_eq, (insert_id _ _ _ Hidx).
  rewrite (delete_insert_id _ _ _ Hnone).
  destruct w as [h [ixs its]]. reflexivity.
Qed.

Lemma insertOne_then_deleteOne_witness :
  (await! _ := WebStorageAdapter.insertOne pretty "g" "users" [("name", VStr "n")] in
   WebStorageAdapter.deleteOne sampleOperators sampleTransforms "users"
     (VObj [("id", VObj [("$equal", VStr "g")])]) (Some 0%nat))
    (sampleWorld limitTwo)
  = Resolved tt
      (setHeap (<[0%nat := defaults limitTwo [("skip", VNum 0)]]>
                  (heap (sampleWorld limitTwo))) (sampleWorld limitTwo)).
Proof.
  apply (insertOne_then_deleteOne sampleOperators sampleTransforms pretty "g"
           "users" [("name", VStr "n")] 0%nat limitTwo (sampleWorld limitTwo)).
  - apply lookup_singleton_eq.
  - vm_compute. eauto.
  - apply (bool_decide_unpack _). vm_compute. exact I.
  - vm_compute. reflexivity.
Defined.

(** *** Several entities at once *)

Lemma insertEach_stores toISOString uuids table entities :
  forall n (w : world),
    insertEach toISOString uuids n table entities w
    = Resolved (Some <$> stampedAll uuids n entities)
        (setSource (storedAll toISOString table uuids n entities (source w)) w).
Proof.
  induction entities as [|entity rest IH]; intros n w;
    cbn [insertEach stampedAll storedAll fmap list_fmap].
  - unfold Async.ret. rewrite setSource_id. reflexivity.
  - unfold Async.bind at 1. rewrite insertOne_stores.
    unfold Async.bind at 1. rewrite IH. reflexivity.
Qed.

Lemma storedAll_items toISOString table uuids entities :
  forall n (s s' : Storage),
    items s = items s' ->
    items (storedAll toISOString table uuids n entities s)
    = items (storedAll toISOString table uuids n entities s').
Proof.
  induction entities as [|entity rest IH]; intros n s s' Hitems;
    cbn [storedAll]; [exact Hitems|].
  apply IH. unfold stored. cbn [items]. rewrite Hitems. reflexivity.
Qed.

Lemma storedAll_indexes toISOString table uuids entities :
  forall n (s : Storage),
    is_Some (indexes s !! table) ->
    indexes (storedAll toISOString table uuids n entities s)
    = <[table := indexOf s table ++ (uuids <$> seq n (length entities))]>
        (indexes s).
Proof.
  induction entities as [|entity rest IH]; intros n s [idx Hidx];
    cbn [storedAll length seq fmap list_fmap].
  - unfold indexOf. rewrite Hidx. cbn [from_option id].
    rewrite app_nil_r, insert_id by exact Hidx. reflexivity.
  - rewrite IH by (unfold stored; cbn [indexes]; rewrite lookup_insert_eq; eauto).
    unfold indexOf at 1. unfold stored. cbn [indexes].
    rewrite lookup_insert_eq. cbn [from_option id].
    rewrite insert_insert_eq, <- app_assoc. reflexivity.
Qed.

(** The items are stored one after the other; the index is not. *)
Lemma storeEach_stores toISOString uuids table entities :
  forall n (tableIndex : list string) (w : world),
    WebStorageAdapter.storeEach toISOString uuids n table entities tableIndex w
    = Resolved (stampedAll uuids n entities,
                tableIndex ++ (uuids <$> seq n (length entities)))
        (setSource
           {| indexes := indexes (source w);
              items := items (storedAll toISOString table uuids n entities
                                (source w)) |} w).
Proof.
  induction entities as [|entity rest IH]; intros n tableIndex w;
    cbn [WebStorageAdapter.storeEach stampedAll storedAll length seq fmap
         list_fmap].
  - unfold Async.ret. rewrite app_nil_r. destruct w as [h [ixs its]].
    reflexivity.
  - unfold Async.bind at 1. unfold WebStorageAdapter.setItem at 1.
    unfold Async.bind at 1. unfold Async.getStorage at 1.
    unfold Async.putStorage at 1.
    unfold Async.bind at 1. rewrite IH. unfold Async.ret.
    cbn [fst snd source setSource indexes items heap].
    rewrite <- app_assoc. cbn [app]. unfold setSource.
    cbn [heap source indexes items]. do 3 f_equal.
    apply storedAll_items. reflexivity.
Qed.

Lemma maybeCastSet_Some (datas : list object) : maybeCastSet (Some datas) = datas.
Proof.
  unfold maybeCastSet, maybeCastEntity.
  induction datas as [|data rest IH]; [reflexivity|].
  cbn [omap list_omap]. cbn [omap list_omap] in IH. rewrite IH. reflexivity.
Qed.

Lemma compact_Some {A} (results : list A) : compact (Some <$> results) = results.
Proof.
  unfold compact.
  induction results as [|r rest IH]; [reflexivity|].
  cbn [fmap list_fmap omap list_omap]. cbn [fmap omap] in IH. rewrite IH.
  reflexivity.
Qed.

Lemma bind_resolved {A B} (c : Async.t A) (k : A -> Async.t B) w a w' :
  c w = Resolved a w' -> Async.bind c k w = k a w'.
Proof. unfold Async.bind. intros ->. reflexivity. Qed.

Lemma stampedAll_length uuids entities :
  forall n, length (stampedAll uuids n entities) = length entities.
Proof.
  induction entities as [|entity rest IH]; intros n; cbn [stampedAll length];
    [reflexivity | rewrite IH; reflexivity].
Qed.

(** [insertMany] and the sequence of [insertOne], once the index of the
    table exists. *)
Lemma insertMany_stores toISOString uuids table entities (w w0 : world) :
  WebStorageAdapter.ensureCollectionExists table w
  = Resolved (indexOf (source w) table) w0 ->
  WebStorageAdapter.insertMany toISOString uuids table entities w
  = Resolved (stampedAll uuids 0 entities)
      (setSource (storedAll toISOString table uuids 0 entities (source w0)) w0)
  /\ indexes (storedAll toISOString table uuids 0 entities (source w0)) !! table
     = Some (indexOf (source w) table ++ (uuids <$> seq 0 (length entities))).
Proof.
  intros Hensure.
  assert (Hidx : indexes (source w0) !! table = Some (indexOf (source w) table)).
  { revert Hensure.
    unfold WebStorageAdapter.ensureCollectionExists, Async.bind, Async.ret,
      Async.getStorage, Async.putStorage, indexOf.
    destruct (indexes (source w) !! table) as [idx|] eqn:Hidx;
      cbn [from_option id]; intros [= <-].
    - exact Hidx.
    - cbn [source setSource indexes]. apply lookup_insert_eq. }
  pose proof (storedAll_indexes toISOString table uuids entities 0 (source w0)
                (ex_intro _ _ Hidx)) as Hixs.
  unfold indexOf at 1 in Hixs. rewrite Hidx in Hixs. cbn [from_option id] in Hixs.
  split; [|rewrite Hixs; apply lookup_insert_eq].
  unfold WebStorageAdapter.insertMany.
  change ((fun entity : object => ownEntries (cloneDeep (VObj entity))) <$> entities)
    with (id <$> entities).
  rewrite list_fmap_id.
  rewrite (bind_resolved _ _ w _ _ Hensure).
  unfold Async.bind at 1. rewrite storeEach_stores.
  unfold WebStorageAdapter.setIndex, Async.bind, Async.ret, Async.getStorage,
    Async.putStorage.
  cbn [fst snd source setSource indexes items heap].
  rewrite maybeCastSet_Some. f_equal. unfold setSource. f_equal.
  rewrite <- Hixs.
  destruct (storedAll toISOString table uuids 0 entities (source w0)).
  reflexivity.
Qed.

(** X11. The [insertMany] of the web storage adapter, which stores the items
    one by one and the index once at the end, does what the default
    [insertMany] of the base class does over the adapter's [insertOne] once
    the index of the table exists: it resolves with the same entities and
    leaves the same storage, for the same ids drawn in the same order; given
    no entity it still creates the index of a table that has none. *)
Theorem insertMany_each
  (toISOString : Z -> string) (uuids : nat -> string) (table : string)
  (entities : list object) (w : world) :
  WebStorageAdapter.insertMany toISOString uuids table entities w
  = (await! _ := WebStorageAdapter.ensureCollectionExists table in
     await! mapped := insertEach toISOString uuids 0 table entities in
     Async.ret (compact mapped)) w
  /\ exists inserted w',
       WebStorageAdapter.insertMany toISOString uuids table entities w
       = Resolved inserted w'
       /\ length inserted = length entities
       /\ heap w' = heap w
       /\ indexes (source w') !! table
          = Some (indexOf (source w) table
                  ++ (uuids <$> seq 0 (length entities))).
Proof.
  assert (Hensure : exists w0,
    WebStorageAdapter.ensureCollectionExists table w
    = Resolved (indexOf (source w) table) w0
    /\ heap w0 = heap w).
  { unfold WebStorageAdapter.ensureCollectionExists, Async.bind, Async.ret,
      Async.getStorage, Async.putStorage, indexOf.
    destruct (indexes (source w) !! table) as [idx|] eqn:Hidx;
      cbn [from_option id]; eexists; split; reflexivity. }
  destruct Hensure as (w0 & Hensure & Hheap).
  destruct (insertMany_stores toISOString uuids table entities w w0 Hensure)
    as [Hmany Hindex].
  split.
  - rewrite Hmany, (bind_resolved _ _ w _ _ Hensure).
    unfold Async.bind at 1. rewrite insertEach_stores. unfold Async.ret.
    rewrite compact_Some. reflexivity.
  - eexists _, _. split; [exact Hmany|].
    split; [apply stampedAll_length|].
    split; [exact Hheap | exact Hindex].
Qed.

(** ** The default methods of the base class, composed *)

Lemma mapSeries_app
  (this_insertOne : string -> object -> Async.t (option AdapterEntity))
  (table : string) (entities others : list object) :
  forall w,
    mapSeries this_insertOne table (entities ++ others) w
    = (await! first := mapSeries this_insertOne table entities in
       await! second := mapSeries this_insertOne table others in
       Async.ret (first ++ second)) w.
Proof.
  induction entities as [|entity rest IH]; intros w; cbn [app mapSeries].
  - unfold Async.bind, Async.ret.
    destruct (mapSeries this_insertOne table others w); reflexivity.
  - unfold Async.bind at 1 3 4.
    destruct (this_insertOne table entity w) as [inserted w1|e w1|];
      [|reflexivity|reflexivity].
    unfold Async.bind at 1 3. rewrite IH. unfold Async.bind, Async.ret.
    destruct (mapSeries this_insertOne table rest w1) as [first w2|e w2|];
      [|reflexivity|reflexivity].
    destruct (mapSeries this_insertOne table others w2); reflexivity.
Qed.

(** X12. The default [insertMany] inserts the entities in order, one
    [insertOne] after the other: inserting two lists in one call is
    inserting the first and then the second, the results following each
    other; and when an [insertOne] is rejected, [insertMany] is rejected with
    its error in the world it left, the entities before it inserted and none
    after it tried. *)
Theorem insertMany_sequence
  (this_insertOne : string -> object -> Async.t (option AdapterEntity))
  (table : string) (entities others : list object) (w : world) :
  insertMany this_insertOne table (entities ++ others) w
  = (await! first := insertMany this_insertOne table entities in
     await! second := insertMany this_insertOne table others in
     Async.ret (first ++ second)) w
  /\ forall inserted w1 entity e w2,
       insertMany this_insertOne table entities w = Resolved inserted w1 ->
       this_insertOne table entity w1 = Rejected e w2 ->
       insertMany this_insertOne table (entities ++ entity :: others) w
       = Rejected e w2.
Proof.
  assert (Happ : forall others',
    insertMany this_insertOne table (entities ++ others') w
    = (await! first := insertMany this_insertOne table entities in
       await! second := insertMany this_insertOne table others' in
       Async.ret (first ++ second)) w).
  { intros others'. unfold insertMany. unfold Async.bind at 1.
    rewrite mapSeries_app. unfold Async.bind, Async.ret.
    destruct (mapSeries this_insertOne table entities w) as [first w1|e w1|];
      [|reflexivity|reflexivity].
    destruct (mapSeries this_insertOne table others' w1) as [second w2|e w2|];
      [|reflexivity|reflexivity].
    unfold compact. rewrite omap_app. reflexivity. }
  split; [apply Happ|].
  intros inserted w1 entity e w2 Hfirst Hone. rewrite Happ.
  unfold Async.bind at 1. rewrite Hfirst.
  unfold insertMany. cbn [mapSeries]. unfold Async.bind. rewrite Hone.
  reflexivity.
Qed.

(** X13. The two defaults undo each other: the default [insertOne], run over
    the default [insertMany] of an [insertOne], does what that [insertOne]
    does, whether it resolves with an entity or with nothing, is rejected, or
    never settles. *)
Theorem insertOne_over_insertMany
  (this_insertOne : string -> object -> Async.t (option AdapterEntity))
  (table : string) (entity : object) (w : world) :
  insertOne (insertMany this_insertOne) table entity w
  = this_insertOne table entity w.
Proof.
  unfold insertOne, insertMany. cbn [mapSeries].
  unfold Async.bind, Async.ret, compact.
  destruct (this_insertOne table entity w) as [[inserted|] w1|e w1|];
    reflexivity.
Qed.

(** X14. The default [deleteMany] over the default [findOne] deletes at most
    one entity, whatever limit the caller asked for, a limit of 0 included:
    [findOne] assigns [limit = 1] on the options object [deleteMany] shares
    with it, and the loop compares its count with that limit.  With
    [findMany] and [deleteOne] methods that resolve and leave the objects of
    the heap alone, [deleteMany] resolves after one [findOne], which found
    nothing, or after a [findOne], a [deleteOne] and a second [findOne]; the
    caller's options then have the limit 1. *)
Theorem deleteMany_over_findOne
  (QUERY_OPTIONS_TRANSFORMS : list (string * (object -> Result.t object)))
  (this_findMany : string -> value -> option loc -> Async.t (list AdapterEntity))
  (this_deleteOne : string -> value -> option loc -> Async.t unit)
  (fuel : nat) (table : string) (queryFind : value)
  (options : loc) (opts : object) (w : world) :
  heap w !! options = Some opts ->
  keepsObjects (fun x : string * value * option loc =>
                  this_findMany x.1.1 x.1.2 x.2) ->
  keepsObjects (fun x : string * value * option loc =>
                  this_deleteOne x.1.1 x.1.2 x.2) ->
  resolves (fun x : string * value * option loc =>
              this_findMany x.1.1 x.1.2 x.2) ->
  resolves (fun x : string * value * option loc =>
              this_deleteOne x.1.1 x.1.2 x.2) ->
  (2 <= fuel)%nat ->
  exists calls w',
    deleteMany QUERY_OPTIONS_TRANSFORMS
      (findOne QUERY_OPTIONS_TRANSFORMS this_findMany) this_deleteOne
      fuel table queryFind (Some options) w
    = Resolved calls w'
    /\ (calls = [FindOneCall None]
        \/ exists found last,
             calls = [FindOneCall (Some found); DeleteOneCall; FindOneCall last])
    /\ exists opts', heap w' !! options = Some opts'
                     /\ get opts' "limit" = VNum 1.
Proof.
  intros Hopts HkeepF HkeepD HresF HresD Hfuel.
  (* one [findOne] of the base class, on options that are in the heap *)
  assert (Hfind : forall w0 opts0,
    heap w0 !! options = Some opts0 ->
    exists found w1,
      findOne QUERY_OPTIONS_TRANSFORMS this_findMany table queryFind
        (Some options) w0 = Resolved found w1
      /\ heap w1 !! options = Some (set opts0 "limit" (VNum 1))).
  { intros w0 opts0 Hopts0.
    unfold findOne, optionsOrDefault, Async.bind, Async.ret, Async.assign,
      Async.store. rewrite Hopts0. cbn [from_option id].
    set (w1 := setHeap (<[options := set opts0 "limit" (VNum 1)]> (heap w0)) w0).
    destruct (HresF (table, queryFind, Some options) w1) as (found & w2 & Hrun).
    cbn [fst snd] in Hrun. rewrite Hrun. eexists _, _. split; [reflexivity|].
    apply (HkeepF (table, queryFind, Some options) w1 w2).
    - cbn [fst snd]. rewrite Hrun. reflexivity.
    - unfold w1. cbn [heap setHeap]. apply lookup_insert_eq. }
  destruct fuel as [|[|fuel]]; try lia.
  unfold deleteMany, optionsOrDefault. unfold Async.bind at 1.
  cbn [Async.ret loopFind].
  destruct (Hfind w opts Hopts) as (found & w1 & Hrun1 & Hopts1).
  unfold Async.bind at 1. rewrite Hrun1.
  destruct found as [found|].
  - unfold Async.bind at 1. unfold Async.load at 1. rewrite Hopts1.
    cbn [from_option id]. rewrite get_set_eq. cbn [isCount Z.eqb].
    destruct (HresD (table, queryFind, Some options) w1) as ([] & w2 & Hrun2).
    cbn [fst snd] in Hrun2.
    unfold Async.bind at 1. rewrite Hrun2.
    assert (Hopts2 : heap w2 !! options = Some (set opts "limit" (VNum 1))).
    { apply (HkeepD (table, queryFind, Some options) w1 w2); [|exact Hopts1].
      cbn [fst snd]. rewrite Hrun2. reflexivity. }
    destruct (Hfind w2 _ Hopts2) as (last & w3 & Hrun3 & Hopts3).
    unfold Async.bind at 1. unfold Async.bind at 1. rewrite Hrun3.
    assert (Hcalls :
      (match last with
       | None => Async.ret [FindOneCall last]
       | Some _ =>
           await! opts0 := Async.load options in
           if isCount (0 + 1) (get opts0 "limit")
           then Async.ret [FindOneCall last]
           else
             await! _ := this_deleteOne table queryFind (Some options) in
             await! calls :=
               loopFind (findOne QUERY_OPTIONS_TRANSFORMS this_findMany)
                 this_deleteOne fuel table queryFind options (0 + 1 + 1) in
             Async.ret (FindOneCall last :: DeleteOneCall :: calls)
       end) w3 = Resolved [FindOneCall last] w3).
    { destruct last as [last|]; [|reflexivity].
      unfold Async.bind, Async.load, Async.ret. rewrite Hopts3.
      cbn [from_option id]. rewrite get_set_eq. reflexivity. }
    rewrite Hcalls. unfold Async.ret.
    eexists _, _. split; [reflexivity|]. split; [right; eauto|].
    eexists. split; [exact Hopts3 | apply get_set_eq].
  - unfold Async.ret. eexists _, _. split; [reflexivity|]. split; [left; reflexivity|].
    eexists. split; [exact Hopts1 | apply get_set_eq].
Qed.

Lemma deleteMany_over_findOne_witness :
  exists calls w',
    deleteMany sampleTransforms
      (findOne sampleTransforms (fun _ _ _ => Async.ret [user "a"; user "b"]))
      (fun _ _ _ => Async.ret tt)
      5 "users" named (Some 0%nat) (sampleWorld limitTwo)
    = Resolved calls w'
    /\ (calls = [FindOneCall None]
        \/ exists found last,
             calls = [FindOneCall (Some found); DeleteOneCall; FindOneCall last])
    /\ exists opts', heap w' !! 0%nat = Some opts'
                     /\ get opts' "limit" = VNum 1.
Proof.
  apply (deleteMany_over_findOne sampleTransforms
           (fun _ _ _ => Async.ret [user "a"; user "b"])
           (fun _ _ _ => Async.ret tt)
           5 "users" named 0%nat limitTwo (sampleWorld limitTwo)).
  - apply lookup_singleton_eq.
  - intros x w w' r o. cbn [Async.ret finalWorld]. intros [= <-]. auto.
  - intros x w w' r o. cbn [Async.ret finalWorld]. intros [= <-]. auto.
  - intros x w. unfold Async.ret. eauto.
  - intros x w. unfold Async.ret. eauto.
  - lia.
Defined.

(** ** The life cycle, once more *)

Module LifecycleEvents.

Import Lifecycle LifecycleFacts.

(** X15. [waitReady] returns a promise that is resolved with the adapter at
    once when the adapter is ready, rejected at once with the stored error
    when it is in the error state, and pending otherwise.  On every adapter
    a program can reach, a [ready] event makes the adapter ready, also after
    an [error] event; it resolves every pending promise with the adapter, so
    that none is pending after it, and the next [waitReady] is resolved at
    once.  A settled promise stays as it is through [ready] and [error]
    events, an [error] event settles no promise, and no event removes a
    handler. *)
Theorem ready_event (a : adapter) :
  reachable a ->
  promises (waitReady a).2 !! (waitReady a).1
  = Some match state a with
         | READY => Fulfilled ThisAdapter
         | ERROR => Failed (error a)
         | PREPARING => Pending
         end
  /\ state (emit READY None a) = READY
  /\ error (emit READY None a) = error a
  /\ promises (waitReady (emit READY None a)).2
       !! (waitReady (emit READY None a)).1 = Some (Fulfilled ThisAdapter)
  /\ (forall p, promises a !! p = Some Pending ->
        promises (emit READY None a) !! p = Some (Fulfilled ThisAdapter))
  /\ (forall p settled, promises a !! p = Some settled -> settled <> Pending ->
        promises (emit READY None a) !! p = Some settled)
  /\ (forall p, promises (emit READY None a) !! p <> Some Pending)
  /\ (forall err, promises (emit ERROR err a) = promises a)
  /\ (forall event err, listeners (emit event err a) = listeners a).
Proof.
  intros Hreach.
  destruct (reachable_invariant a Hreach)
    as (Hcons & [waiters Hfirst] & Herror & Hpending).
  destruct (runAll_ready None (listeners a) a Hcons) as [Hstate Herr].
  rewrite decide_True in Hstate by (rewrite Hfirst; left).
  split; [apply waitReady_now|].
  unfold emit at 1 2. split; [exact Hstate|]. split; [exact Herr|].
  split; [|split; [|split; [|split; [|split]]]].
  - rewrite waitReady_now. unfold emit. rewrite Hstate. reflexivity.
  - intros p Hp. unfold emit.
    rewrite (runAll_ready_promise None _ a p Hcons), Hp.
    rewrite decide_True by apply (Hpending p Hp). reflexivity.
  - intros p settled Hp Hsettled. unfold emit.
    rewrite (runAll_ready_promise None _ a p Hcons), Hp.
    destruct settled; [contradiction | reflexivity..].
  - intros p. unfold emit.
    rewrite (runAll_ready_promise None _ a p Hcons).
    destruct (promises a !! p) as [[| |]|] eqn:Hp; try discriminate.
    rewrite decide_True by apply (Hpending p Hp). discriminate.
  - intros err. rewrite (emit_error err a waiters Hfirst). reflexivity.
  - intros event err. apply runAll_listeners.
Qed.

Lemma ready_event_witness :
  let a := emit ERROR (Some "down") (waitReady new).2 in
  promises (waitReady a).2 !! (waitReady a).1
  = Some match state a with
         | READY => Fulfilled ThisAdapter
         | ERROR => Failed (error a)
         | PREPARING => Pending
         end
  /\ state (emit READY None a) = READY
  /\ error (emit READY None a) = error a
  /\ promises (waitReady (emit READY None a)).2
       !! (waitReady (emit READY None a)).1 = Some (Fulfilled ThisAdapter)
  /\ (forall p, promises a !! p = Some Pending ->
        promises (emit READY None a) !! p = Some (Fulfilled ThisAdapter))
  /\ (forall p settled, promises a !! p = Some settled -> settled <> Pending ->
        promises (emit READY None a) !! p = Some settled)
  /\ (forall p, promises (emit READY None a) !! p <> Some Pending)
  /\ (forall err, promises (emit ERROR err a) = promises a)
  /\ (forall event err, listeners (emit event err a) = listeners a).
Proof.
  apply (ready_event (emit ERROR (Some "down") (waitReady new).2)).
  apply reachable_error, reachable_wait, reachable_new.
Defined.

End LifecycleEvents.

(** ** The registry, once more *)

Module RegistryFacts.

Import Diaspora DiasporaFacts.

(** X16. The registry of the adapters is a plain object, tested with its own
    [hasOwnProperty]: once an adapter is registered under the label
    [hasOwnProperty], every later [registerAdapter] and [createDataSource]
    calls that adapter in place of the test, and throws.  Otherwise
    [registerAdapter] refuses a label that is registered and no other; a
    label that is free is registered, and [createDataSource] then builds the
    data sources of that label with the adapter, under the source name given,
    or under the label when the name is empty or omitted, with the other
    labels and the named data sources as they were; except for the label
    [__proto__], which creates no property: it is never refused and never
    registered. *)
Theorem registerAdapter_createDataSource {DataSource}
  (d : registry DataSource) (label : string) (adapter : IAdapterCtr DataSource) :
  match registerAdapter DataSource d label adapter with
  | inl e =>
      (e = NotCallableError
       /\ is_Some (adapters DataSource d !! "hasOwnProperty"))
      \/ (e = AdapterExistsError label
          /\ adapters DataSource d !! "hasOwnProperty" = None
          /\ is_Some (adapters DataSource d !! label))
  | inr d' =>
      adapters DataSource d !! "hasOwnProperty" = None
      /\ adapters DataSource d !! label = None
      /\ _dataSources DataSource d' = _dataSources DataSource d
      /\ (forall other, other <> label ->
            adapters DataSource d' !! other = adapters DataSource d !! other)
      /\ (label = "__proto__" ->
          adapters DataSource d' = adapters DataSource d)
      /\ (label <> "__proto__" -> adapters DataSource d' !! label = Some adapter)
      /\ (label <> "__proto__" -> label <> "hasOwnProperty" ->
          forall sourceName config,
            createDataSource DataSource d' label sourceName config
            = inr (adapter (if truthy sourceName then sourceName else VStr label)
                           config))
      /\ (label = "hasOwnProperty" ->
          forall other sourceName config adapter',
            createDataSource DataSource d' other sourceName config
            = inl NotCallableError
            /\ registerAdapter DataSource d' other adapter' = inl NotCallableError)
  end.
Proof.
  unfold registerAdapter at 1, ownsKey.
  destruct (adapters DataSource d !! "hasOwnProperty") as [shadow|] eqn:Hshadow.
  - left. eauto.
  - destruct (bool_decide (is_Some (adapters DataSource d !! label))) eqn:Hused.
    + apply bool_decide_eq_true_1 in Hused. right. auto.
    + apply bool_decide_eq_false_1, eq_None_not_Some in Hused.
      cbn [adapters _dataSources].
      split; [reflexivity|]. split; [exact Hused|]. split; [reflexivity|].
      split; [intros other Hne; apply assignKey_lookup_ne, Hne|].
      split; [intros ->; reflexivity|].
      split; [intros Hne; apply assignKey_lookup_eq, Hne|].
      split.
      * intros Hproto Hmethod sourceName config. unfold createDataSource.
        cbn [adapters].
        rewrite ownsKey_own
          by (rewrite assignKey_lookup_ne by congruence; exact Hshadow).
        rewrite assignKey_lookup_eq by exact Hproto. reflexivity.
      * intros -> other sourceName config adapter'.
        unfold createDataSource, registerAdapter. cbn [adapters].
        rewrite !ownsKey_shadowed
          by (rewrite assignKey_lookup_eq by discriminate; eauto).
        auto.
Qed.

(** X17. Once [createNamedDataSource] has returned a data source, the name
    was free, the adapters are as they were and so are the data sources of
    the other names.  The registry holds the data source under the text of
    its name, and every later call for a name with the same text, with an
    adapter that is registered, throws the error of a name already used;
    except that a source named [__proto__] is not registered, and that after
    a source named [hasOwnProperty] every later call with a registered
    adapter throws the type error of the call of that data source. *)
Theorem createNamedDataSource_once {DataSource}
  (d d' : registry DataSource) (sourceName : value) (adapterLabel : string)
  (otherConfig : list value) (dataSource : DataSource) :
  createNamedDataSource DataSource d sourceName adapterLabel otherConfig
  = inr (dataSource, d') ->
  _dataSources DataSource d !! "hasOwnProperty" = None
  /\ _dataSources DataSource d !! toString sourceName = None
  /\ adapters DataSource d' = adapters DataSource d
  /\ (forall name, name <> toString sourceName ->
        _dataSources DataSource d' !! name = _dataSources DataSource d !! name)
  /\ (toString sourceName = "__proto__" ->
      _dataSources DataSource d' = _dataSources DataSource d)
  /\ (toString sourceName <> "__proto__" ->
      _dataSources DataSource d' !! toString sourceName = Some dataSource)
  /\ (toString sourceName <> "__proto__" ->
      toString sourceName <> "hasOwnProperty" ->
      forall sourceName' adapterLabel' otherConfig',
        toString sourceName' = toString sourceName ->
        requireName "DataSource" sourceName' = inr tt ->
        is_Some (adapters DataSource d !! adapterLabel') ->
        createNamedDataSource DataSource d' sourceName' adapterLabel' otherConfig'
        = inl (NameUsedError sourceName'))
  /\ (toString sourceName = "hasOwnProperty" ->
      forall sourceName' adapterLabel' otherConfig',
        requireName "DataSource" sourceName' = inr tt ->
        is_Some (adapters DataSource d !! adapterLabel') ->
        createNamedDataSource DataSource d' sourceName' adapterLabel' otherConfig'
        = inl NotCallableError).
Proof.
  unfold createNamedDataSource at 1.
  destruct (requireName "DataSource" sourceName) as [e|[]]; [discriminate|].
  unfold createDataSource at 1, ownsKey at 1.
  destruct (adapters DataSource d !! "hasOwnProperty") eqn:Hmethod; [discriminate|].
  destruct (adapters DataSource d !! adapterLabel) as [ctr|]; [|discriminate].
  unfold ownsKey.
  destruct (_dataSources DataSource d !! "hasOwnProperty") eqn:Hshadow;
    [discriminate|].
  destruct (bool_decide (is_Some (_dataSources DataSource d !! toString sourceName)))
    eqn:Hused; [discriminate|].
  apply bool_decide_eq_false_1, eq_None_not_Some in Hused.
  intros [= <- <-]. cbn [_dataSources adapters].
  assert (Hbuilt : forall sourceName' adapterLabel' otherConfig',
    is_Some (adapters DataSource d !! adapterLabel') ->
    exists built,
      createDataSource DataSource
        {| adapters := adapters DataSource d;
           _dataSources :=
             assignKey (_dataSources DataSource d) (toString sourceName)
               (ctr (if truthy sourceName then sourceName else VStr adapterLabel)
                    otherConfig) |}
        adapterLabel' sourceName' otherConfig' = inr built).
  { intros sourceName' adapterLabel' otherConfig' [ctr' Hctr'].
    unfold createDataSource. cbn [adapters].
    rewrite ownsKey_own by exact Hmethod. unfold IAdapterCtr in *.
    rewrite Hctr'. eauto. }
  split; [reflexivity|]. split; [exact Hused|]. split; [reflexivity|].
  split; [intros name Hne; apply assignKey_lookup_ne, Hne|].
  split; [intros ->; reflexivity|].
  split; [intros Hne; apply assignKey_lookup_eq, Hne|].
  split.
  - intros Hproto Hne sourceName' adapterLabel' otherConfig' Htext Hname Hctr.
    unfold createNamedDataSource. rewrite Hname.
    destruct (Hbuilt sourceName' adapterLabel' otherConfig' Hctr) as [built ->].
    cbn [_dataSources].
    rewrite ownsKey_own
      by (rewrite assignKey_lookup_ne by congruence; exact Hshadow).
    rewrite Htext, assignKey_lookup_eq by exact Hproto.
    rewrite bool_decide_eq_true_2 by eauto. reflexivity.
  - intros Hname sourceName' adapterLabel' otherConfig' Hname' Hctr.
    unfold createNamedDataSource. rewrite Hname'.
    destruct (Hbuilt sourceName' adapterLabel' otherConfig' Hctr) as [built ->].
    cbn [_dataSources]. rewrite Hname.
    rewrite ownsKey_shadowed
      by (rewrite assignKey_lookup_eq by discriminate; eauto).
    reflexivity.
Qed.

Lemma createNamedDataSource_once_witness :
  let d' := {| adapters := adapters sampleSource builtIn;
               _dataSources := <["5" := (VNum 5, [])]> ∅ |} in
  _dataSources sampleSource builtIn !! "hasOwnProperty" = None
  /\ _dataSources sampleSource builtIn !! toString (VNum 5) = None
  /\ adapters sampleSource d' = adapters sampleSource builtIn
  /\ (forall name, name <> toString (VNum 5) ->
        _dataSources sampleSource d' !! name
        = _dataSources sampleSource builtIn !! name)
  /\ (toString (VNum 5) = "__proto__" ->
      _dataSources sampleSource d' = _dataSources sampleSource builtIn)
  /\ (toString (VNum 5) <> "__proto__" ->
      _dataSources sampleSource d' !! toString (VNum 5) = Some (VNum 5, []))
  /\ (toString (VNum 5) <> "__proto__" ->
      toString (VNum 5) <> "hasOwnProperty" ->
      forall sourceName' adapterLabel' otherConfig',
        toString sourceName' = toString (VNum 5) ->
        requireName "DataSource" sourceName' = inr tt ->
        is_Some (adapters sampleSource builtIn !! adapterLabel') ->
        createNamedDataSource sampleSource d' sourceName' adapterLabel'
          otherConfig'
        = inl (NameUsedError sourceName'))
  /\ (toString (VNum 5) = "hasOwnProperty" ->
      forall sourceName' adapterLabel' otherConfig',
        requireName "DataSource" sourceName' = inr tt ->
        is_Some (adapters sampleSource builtIn !! adapterLabel') ->
        createNamedDataSource sampleSource d' sourceName' adapterLabel'
          otherConfig'
        = inl NotCallableError).
Proof.
  apply (createNamedDataSource_once builtIn _ (VNum 5) "inMemory" []).
  unfold createNamedDataSource, createDataSource, builtIn.
  cbn [requireName isString negb lengthIsPositive adapters _dataSources truthy].
  rewrite ownsKey_own by reflexivity.
  rewrite lookup_singleton_eq.
  rewrite ownsKey_own by apply lookup_empty.
  rewrite bool_decide_eq_false_2
    by (rewrite lookup_empty; intros [x Hx]; discriminate).
  reflexivity.
Defined.

(** X18. [declareModel] never refuses a name: it checks only the names that
    [requireName] accepts, so the empty string and a name that is no string
    are taken too.  It throws exactly when the description is no object, and
    otherwise returns the new model and assigns it under the text of the
    name, in place of the model that was there if the name was in use; the
    other models are as they were.  Under the name [__proto__] the
    assignment creates no property: the model is returned, and the models
    stay as they were. *)
Theorem declareModel_accepts {Model}
  (newModel : value -> value -> Model) (models : gmap string Model)
  (name modelDesc : value) :
  declareModel Model newModel models name modelDesc
  = (if isObject modelDesc
     then inr (newModel name modelDesc,
               assignKey models (toString name) (newModel name modelDesc))
     else inl ModelDescError)
  /\ forall model models',
       declareModel Model newModel models name modelDesc
       = inr (model, models') ->
       model = newModel name modelDesc
       /\ (toString name <> "__proto__" -> models' !! toString name = Some model)
       /\ (toString name = "__proto__" -> models' = models)
       /\ forall other, other <> toString name ->
            models' !! other = models !! other.
Proof.
  assert (Hrun :
    declareModel Model newModel models name modelDesc
    = (if isObject modelDesc
       then inr (newModel name modelDesc,
                 assignKey models (toString name) (newModel name modelDesc))
       else inl ModelDescError)).
  { unfold declareModel.
    assert (Hname : (if isNonEmptyString name
                     then requireName "Model" name else inr tt) = inr tt).
    { destruct name; try reflexivity. cbn [isNonEmptyString].
      destruct (0 <? Z.of_nat (String.length s)); reflexivity. }
    rewrite Hname. destruct (isObject modelDesc); reflexivity. }
  split; [exact Hrun|]. rewrite Hrun.
  destruct (isObject modelDesc); [|discriminate].
  intros model models' [= <- <-]. split; [reflexivity|].
  split; [intros Hne; apply assignKey_lookup_eq, Hne|].
  split; [intros ->; reflexivity|].
  intros other Hne. apply assignKey_lookup_ne, Hne.
Qed.

End RegistryFacts.

(** ** Collections and id hashes *)

Lemma invert_fold_other (after : object) (acc : object) text :
  (forall p, In p after -> toString p.2 <> text) ->
  get (fold_left (fun acc (p : string * value) =>
                    if String.eqb (toString p.2) "__proto__" then acc
                    else set acc (toString p.2) (VStr p.1))
         after acc) text
  = get acc text.
Proof.
  revert acc. induction after as [|[k v] rest IH]; intros acc Hother;
    cbn [fold_left]; [reflexivity|].
  rewrite IH by (intros p Hp; apply Hother; right; exact Hp).
  cbn [fst snd]. destruct (String.eqb (toString v) "__proto__"); [reflexivity|].
  apply get_set_ne. apply (Hother (k, v)). left. reflexivity.
Qed.

Lemma invert_fold_proto (entries : object) (acc : object) :
  get (fold_left (fun acc (p : string * value) =>
                    if String.eqb (toString p.2) "__proto__" then acc
                    else set acc (toString p.2) (VStr p.1))
         entries acc) "__proto__"
  = get acc "__proto__".
Proof.
  revert acc. induction entries as [|[k v] rest IH]; intros acc;
    cbn [fold_left]; [reflexivity|].
  rewrite IH. cbn [fst snd].
  destruct (String.eqb (toString v) "__proto__") eqn:Heq; [reflexivity|].
  apply get_set_ne. apply String.eqb_neq. exact Heq.
Qed.

(** X19. [configureCollection] assigns, under the name of the table, the
    remapping table with its inverse, and the filter table given, the empty
    one when it is omitted; it leaves the other tables alone.  The
    assignments create the two properties for every name but [__proto__],
    under which nothing is kept.  The inverse maps the text of a store field
    back to the field mapped to it; where several fields are mapped to store
    fields with the same text, to the last of them; and it has no entry for
    any other text, nor for the text [__proto__], which [_.invert] assigns to
    without effect. *)
Theorem configureCollection_inverts {Filter}
  (c : collections Filter) (tableName : string) (remaps' : object)
  (filters' : option (list (string * Filter))) :
  exists inverted,
    (tableName <> "__proto__" ->
       remaps _ (configureCollection c tableName remaps' filters') !! tableName
       = Some (remaps', inverted)
       /\ filters _ (configureCollection c tableName remaps' filters') !! tableName
          = Some (default [] filters'))
    /\ (tableName = "__proto__" ->
          remaps _ (configureCollection c tableName remaps' filters') = remaps _ c
          /\ filters _ (configureCollection c tableName remaps' filters')
             = filters _ c)
    /\ (forall other, other <> tableName ->
          remaps _ (configureCollection c tableName remaps' filters') !! other
          = remaps _ c !! other
          /\ filters _ (configureCollection c tableName remaps' filters') !! other
             = filters _ c !! other)
    /\ inverted = invert remaps'
    /\ (forall before field storeField after,
          remaps' = before ++ (field, storeField) :: after ->
          (forall p, In p after -> toString p.2 <> toString storeField) ->
          toString storeField <> "__proto__" ->
          get inverted (toString storeField) = VStr field)
    /\ (forall text,
          (forall p, In p remaps' -> toString p.2 <> text) ->
          get inverted text = VUndefined)
    /\ get inverted "__proto__" = VUndefined.
Proof.
  exists (invert remaps'). unfold configureCollection. cbn [remaps filters].
  split; [intros Hne; split; apply assignKey_lookup_eq, Hne|].
  split; [intros ->; split; reflexivity|].
  split; [intros other Hne; split; apply assignKey_lookup_ne, Hne|].
  split; [reflexivity|]. split; [|split].
  - intros before field storeField after -> Hlast Hproto. unfold invert.
    rewrite fold_left_app. cbn [fold_left fst snd].
    rewrite invert_fold_other by exact Hlast.
    apply String.eqb_neq in Hproto. rewrite Hproto. apply get_set_eq.
  - intros text Hnone. unfold invert.
    rewrite invert_fold_other by exact Hnone. reflexivity.
  - unfold invert. rewrite invert_fold_proto. reflexivity.
Qed.

(** X20. The [configureCollection] of the web storage adapter does not pass
    the filters it is given to the base class: whatever they are, the table
    is configured as with the filters omitted, so that a table of any name
    but [__proto__] has the empty filter table.  It resolves, and the storage
    then has an index for the table, the one it had or the empty one; the
    items and the heap are as they were. *)
Theorem configureCollection_drops_filters {Filter}
  (c : collections Filter) (tableName : string) (remaps' : object)
  (filters' : list (string * Filter)) (w : world) :
  exists c' w',
    WebStorageAdapter.configureCollection c tableName remaps' filters' w
    = Resolved c' w'
    /\ c' = configureCollection c tableName remaps' None
    /\ (tableName <> "__proto__" -> filters _ c' !! tableName = Some [])
    /\ remaps _ c' = remaps _ (configureCollection c tableName remaps' (Some filters'))
    /\ indexes (source w') !! tableName = Some (indexOf (source w) tableName)
    /\ (forall other, other <> tableName ->
          indexes (source w') !! other = indexes (source w) !! other)
    /\ items (source w') = items (source w)
    /\ heap w' = heap w.
Proof.
  unfold WebStorageAdapter.configureCollection,
    WebStorageAdapter.ensureCollectionExists, Async.bind, Async.ret,
    Async.getStorage, Async.putStorage, indexOf.
  destruct (indexes (source w) !! tableName) as [idx|] eqn:Hidx;
    eexists _, _; (split; [reflexivity|]); (split; [reflexivity|]);
    cbn [configureCollection filters remaps from_option id source setSource
         indexes items heap];
    (split; [intros Hne; apply assignKey_lookup_eq, Hne|]);
    (split; [reflexivity|]).
  - split; [exact Hidx|]. auto.
  - split; [apply lookup_insert_eq|]. split; [|auto].
    intros other Hne. apply lookup_insert_ne. congruence.
Qed.



(** ** Well formed tables *)

Lemma storedAll_wellFormed toISOString table uuids entities :
  forall n (s : Storage),
    wellFormed s table ->
    NoDup (uuids <$> seq n (length entities)) ->
    (forall uuid, uuid ∈ uuids <$> seq n (length entities) ->
                  uuid ∉ indexOf s table) ->
    wellFormed (storedAll toISOString table uuids n entities s) table.
Proof.
  induction entities as [|entity rest IH]; intros n s Hwf Hnd Hfresh;
    cbn [storedAll length seq fmap list_fmap] in *; [exact Hwf|].
  apply NoDup_cons in Hnd as [Hhead Hnd].
  apply IH; [|exact Hnd|].
  - apply stored_wellFormed; [intros _; exact Hwf|].
    apply Hfresh. left.
  - intros uuid Hin. unfold indexOf at 1, stored. cbn [indexes].
    rewrite lookup_insert_eq. cbn [from_option id].
    rewrite elem_of_app, list_elem_of_singleton. intros [Hold| ->].
    + apply (Hfresh uuid); [right; exact Hin | exact Hold].
    + apply Hhead, Hin.
Qed.

(** X22. [insertMany] keeps a table well formed, and makes the table it
    creates well formed, when the ids it draws are distinct and new to the
    index of the table: no id is then twice in the index, and every item is
    stored under the id it carries. *)
Theorem insertMany_wellFormed
  (toISOString : Z -> string) (uuids : nat -> string) (table : string)
  (entities : list object) (w : world) :
  (is_Some (indexes (source w) !! table) -> wellFormed (source w) table) ->
  NoDup (uuids <$> seq 0 (length entities)) ->
  (forall uuid, uuid ∈ uuids <$> seq 0 (length entities) ->
                uuid ∉ indexOf (source w) table) ->
  exists inserted w',
    WebStorageAdapter.insertMany toISOString uuids table entities w
    = Resolved inserted w'
    /\ wellFormed (source w') table
    /\ indexOf (source w') table
       = indexOf (source w) table ++ (uuids <$> seq 0 (length entities)).
Proof.
  intros Hwf Hnd Hfresh.
  assert (Hensure : exists w0,
    WebStorageAdapter.ensureCollectionExists table w
    = Resolved (indexOf (source w) table) w0
    /\ wellFormed (source w0) table
    /\ indexOf (source w0) table = indexOf (source w) table).
  { unfold WebStorageAdapter.ensureCollectionExists, Async.bind, Async.ret,
      Async.getStorage, Async.putStorage.
    destruct (indexes (source w) !! table) as [idx|] eqn:Hidx.
    - exists w. unfold indexOf. rewrite Hidx. cbn [from_option id].
      split; [reflexivity|]. split; [apply Hwf; eauto | reflexivity].
    - eexists. unfold indexOf at 1. rewrite Hidx. cbn [from_option id].
      split; [reflexivity|]. cbn [source setSource].
      assert (Hempty :
        indexOf {| indexes := <[table := []]> (indexes (source w));
                   items := items (source w) |} table = []).
      { unfold indexOf. cbn [indexes]. rewrite lookup_insert_eq. reflexivity. }
      split; [|rewrite Hempty; unfold indexOf; rewrite Hidx; reflexivity].
      split; [|split].
      + cbn [indexes]. rewrite lookup_insert_eq. eauto.
      + rewrite Hempty. apply NoDup_nil_2.
      + intros x item. rewrite Hempty. intros Hin.
        apply elem_of_nil in Hin. destruct Hin. }
  destruct Hensure as (w0 & Hensure & Hwf0 & Hidx0).
  destruct (insertMany_stores toISOString uuids table entities w w0 Hensure)
    as [Hrun Hindex].
  eexists _, _. split; [exact Hrun|]. cbn [source setSource]. split.
  - apply storedAll_wellFormed; [exact Hwf0 | exact Hnd |].
    rewrite Hidx0. exact Hfresh.
  - unfold indexOf at 1. rewrite Hindex. reflexivity.
Qed.

Lemma insertMany_wellFormed_witness :
  exists inserted w',
    WebStorageAdapter.insertMany pretty (fun n => pretty n) "users"
      [[("name", VStr "n")]; []] (sampleWorld [])
    = Resolved inserted w'
    /\ wellFormed (source w') "users"
    /\ indexOf (source w') "users"
       = indexOf sampleStorage "users" ++ ((fun n => pretty n) <$> seq 0 2).
Proof.
  apply (insertMany_wellFormed pretty (fun n => pretty n) "users"
           [[("name", VStr "n")]; []] (sampleWorld [])).
  - intros _. exact sampleStorage_wellFormed.
  - apply (bool_decide_unpack _). vm_compute. exact I.
  - intros uuid Hin. revert uuid Hin. apply Forall_forall.
    apply (bool_decide_unpack _). vm_compute. exact I.
Defined.
